(** * R-Tree (final_project.cpp): a shallow embedding and its properties

    The development follows the C++ source top to bottom:
    - [Float32]: the [float] scalars of the source, as IEEE-754 binary32
      values of the Standard Library's [SpecFloat] (precision 24, emax 128,
      round to nearest even), with the comparison operators of C++;
    - [Rectangle], [Entry], [Node], [RTree]: the classes of the source;
      [std::vector] is a list, [size_t] is [N], [std::optional] is [option];
    - the vector [nodes] has a capacity: [emplace_back] and [push_back]
      reallocate a vector that is full, and a reference [Node<DataT>&] taken
      before is then invalid. A reference is the handle it was taken from,
      together with the fact that no reallocation has happened since; reading
      or writing through an invalid reference, undefined behaviour in C++, is
      the error [DanglingReference];
    - accesses the source performs without a check ([nodes[i]],
      [entries[i]], [*entry.data]) and the exception of [findParent] are
      error results of the [result] monad;
    - the recursive member functions take a fuel argument; the public
      operations supply the size of the arena, and running out of fuel is an
      error of its own.

    The properties come in four parts: the lemmas about the order of
    binary32, the loops and the invariants of the arena, proved for the member
    functions on stable storage; the comparison of [splitNode] and [insert]
    with these; the claims C1 to C10 of the specification; and further
    properties of the code, X1 to X26. *)

From Stdlib Require Import ZArith NArith Lia SpecFloat.
From stdpp Require Import base tactics option numbers list.

Set Default Proof Using "Type".
Local Open Scope N_scope.

(** ** Scalars: binary32 *)

Module Float32.

Definition float : Type := spec_float.

Definition prec : Z := 24.
Definition emax : Z := 128.

Definition fsub (x y : float) : float := SFsub prec emax x y.
Definition fmul (x y : float) : float := SFmul prec emax x y.

(** The four relational operators of C++ on [float]; every one of them is
    false when an operand is a NaN. *)
Definition flt (x y : float) : bool := SFltb x y.
Definition fle (x y : float) : bool := SFleb x y.
Definition fgt (x y : float) : bool :=
  match SFcompare x y with Some Gt => true | _ => false end.
Definition fge (x y : float) : bool :=
  match SFcompare x y with Some (Gt | Eq) => true | _ => false end.
Definition feq (x y : float) : bool := SFeqb x y.

(** [std::min(a, b)] is [(b < a) ? b : a], [std::max(a, b)] is
    [(a < b) ? b : a]. *)
Definition fmin (a b : float) : float := if flt b a then b else a.
Definition fmax (a b : float) : float := if flt a b then b else a.

(** Literals. [of_Z] is the conversion of an integer literal. *)
Definition of_Z (z : Z) : float := binary_normalize prec emax z 0 false.
Definition minus_one : float := S754_finite true 8388608 (-23).
Definition FLT_MAX : float := S754_finite false 16777215 104.

Definition is_nan (x : float) : bool :=
  match x with S754_nan => true | _ => false end.

(** The comparison of two finite floats of the same sign: by exponent,
    then by mantissa. *)
Definition lexc (e1 : Z) (m1 : positive) (e2 : Z) (m2 : positive) : comparison :=
  match (e1 ?= e2)%Z with Lt => Lt | Gt => Gt | Eq => Pos.compare_cont Eq m1 m2 end.

End Float32.
Import Float32.

(** ** Rectangle *)

Record Rectangle : Type := mkRectangle {
  x_min : float; y_min : float; x_max : float; y_max : float
}.

Definition area (r : Rectangle) : float :=
  fmul (fsub (x_max r) (x_min r)) (fsub (y_max r) (y_min r)).

Definition overlaps (r other : Rectangle) : bool :=
  negb (fge (x_min r) (x_max other) || fle (x_max r) (x_min other) ||
        fge (y_min r) (y_max other) || fle (y_max r) (y_min other)).

Definition expand (r other : Rectangle) : Rectangle :=
  {| x_min := fmin (x_min r) (x_min other);
     y_min := fmin (y_min r) (y_min other);
     x_max := fmax (x_max r) (x_max other);
     y_max := fmax (y_max r) (y_max other) |}.

(** Rectangles of the tests, with integer corners. *)
Definition rect (a b c d : Z) : Rectangle :=
  mkRectangle (of_Z a) (of_Z b) (of_Z c) (of_Z d).

(** ** Results of partial operations *)

Inductive error : Type :=
| OutOfRange        (* an index past the end of a vector *)
| EmptyOptional     (* [*entry.data] on an empty optional *)
| ParentNotFound    (* the runtime_error of findParent *)
| DanglingReference (* a [Node&] used after [nodes] has reallocated *)
| OutOfFuel.

Inductive result (A : Type) : Type :=
| Ok (a : A)
| Err (e : error).
Arguments Ok {A} a.
Arguments Err {A} e.

#[global] Instance result_ret : MRet result := fun A a => Ok a.
#[global] Instance result_bind : MBind result := fun A B f m =>
  match m with Ok a => f a | Err e => Err e end.

(** [v[i]] for a vector [v] and an index of type [size_t]. *)
Definition at_ {A} (l : list A) (i : N) : result A :=
  match l !! N.to_nat i with Some a => Ok a | None => Err OutOfRange end.

Definition size {A} (l : list A) : N := N.of_nat (length l).

(** ** Entries, nodes, the tree *)

Definition MAX_ENTRIES : N := 4.
Definition MIN_ENTRIES : N := 2.
Definition SIZE_MAX : N := 18446744073709551615.

Section RTree.

Context {DataT : Type}.

Record Entry : Type := mkEntry {
  bounding_box : Rectangle;
  data : option DataT;
  child_index : N
}.

(** The constructor [Entry(rect, data = nullopt)]. *)
Definition Entry_new (r : Rectangle) (d : option DataT) : Entry :=
  mkEntry r d SIZE_MAX.

Definition set_bounding_box (e : Entry) (r : Rectangle) : Entry :=
  mkEntry r (data e) (child_index e).
Definition set_child_index (e : Entry) (c : N) : Entry :=
  mkEntry (bounding_box e) (data e) c.

Record Node : Type := mkNode {
  is_leaf : bool;
  entries : list Entry
}.

Definition set_entries (n : Node) (es : list Entry) : Node :=
  mkNode (is_leaf n) es.

Record RTree : Type := mkRTree {
  nodes : list Node;
  root_index : N
}.

(** [nodes[i] = n] *)
Definition set_node (t : RTree) (i : N) (n : Node) : RTree :=
  mkRTree (<[N.to_nat i := n]> (nodes t)) (root_index t).

(** *** The storage of the vector [nodes] *)

(** The object in memory: the two members of the class, and the capacity of
    the storage that the vector [nodes] owns. *)
Record Index : Type := mkIndex {
  members :> RTree;
  capacity : N
}.

(** The members after a write in place: the storage stays where it is. *)
Definition put (s : Index) (t : RTree) : Index := mkIndex t (capacity s).

(** The capacity that a full vector takes when it reallocates: libstdc++ and
    libc++ double it, and give room for one element to an empty vector. *)
Definition grow (c : N) : N := N.max 1 (2 * c).

(** [nodes.push_back(n)] and [nodes.emplace_back(..)]. A vector whose size has
    reached its capacity reallocates, and every reference into it is lost. The
    flag says whether the references taken before the call are still valid
    after it. *)
Definition push_back (s : Index) (n : Node) : Index * bool :=
  let t := mkRTree (nodes s ++ [n]) (root_index s) in
  if size (nodes s) <? capacity s then (mkIndex t (capacity s), true)
  else (mkIndex t (grow (capacity s)), false).

(** A use of a reference [Node&]: undefined behaviour in C++, and an error
    here, when the vector has reallocated since the reference was taken. *)
Definition valid (live : bool) : result unit :=
  if live then Ok tt else Err DanglingReference.

(** [createNode]: the arena grows by one empty node, whose handle is
    returned. *)
Definition createNode (s : Index) (leaf : bool) : Index * N * bool :=
  let '(s', live) := push_back s (mkNode leaf []) in
  (s', size (nodes s') - 1, live).

(** The constructor [RTree()]: [nodes] starts empty, without storage. *)
Definition RTree_new : Index :=
  let '(s, r, _) := createNode (mkIndex (mkRTree [] 0) 0) true in
  put s (mkRTree (nodes s) r).

(** [nodes.reserve(c)]: [nodes] is a public member, so that a client can
    give it storage for [c] nodes before it inserts. A capacity below [c]
    becomes [c], as in libstdc++ and libc++. *)
Definition reserve (s : Index) (c : N) : Index :=
  if capacity s <? c then mkIndex s c else s.

(** A loop over a vector that threads a state and may fail. *)
Fixpoint for_each {A S : Type} (body : S -> A -> result S) (l : list A) (s : S)
    : result S :=
  match l with
  | [] => Ok s
  | a :: l' => s' ← body s a; for_each body l' s'
  end.

(** *** chooseLeaf *)

(** The loop of [chooseLeaf] over the entries of an internal node, from
    entry number [i] on; its state is [best_index] and
    [min_area_increase]. *)
Fixpoint chooseLeaf_scan (rect : Rectangle) (es : list Entry) (i : N)
    (best_index : N) (min_area_increase : float) : N :=
  match es with
  | [] => best_index
  | e :: es' =>
      let entry_rect := bounding_box e in
      let area_before := area entry_rect in
      let expanded_rect := expand entry_rect rect in
      let area_increase := fsub (area expanded_rect) area_before in
      if flt area_increase min_area_increase
      then chooseLeaf_scan rect es' (i + 1) i area_increase
      else chooseLeaf_scan rect es' (i + 1) best_index min_area_increase
  end.

Fixpoint chooseLeaf (fuel : nat) (t : RTree) (node_index : N)
    (rect : Rectangle) : result (RTree * N) :=
  match fuel with
  | O => Err OutOfFuel
  | S fuel' =>
      node ← at_ (nodes t) node_index;
      if is_leaf node then Ok (t, node_index)
      else
        let best_index := chooseLeaf_scan rect (entries node) 0 0 FLT_MAX in
        e ← at_ (entries node) best_index;
        let e' := set_bounding_box e (expand (bounding_box e) rect) in
        let node' :=
          set_entries node (<[N.to_nat best_index := e']> (entries node)) in
        chooseLeaf fuel' (set_node t node_index node') (child_index e) rect
  end.

(** *** splitNode *)

(** [area_diff] of the seed loop for the pair of entries [ei], [ej]. *)
Definition area_diff (ei ej : Entry) : float :=
  let combined := expand (bounding_box ei) (bounding_box ej) in
  fsub (fsub (area combined) (area (bounding_box ei))) (area (bounding_box ej)).

(** The state of the seed loops: [seed1], [seed2], [max_area_diff]. *)
Definition seeds : Type := N * N * float.

Fixpoint pickSeeds_inner (ei : Entry) (i : N) (es : list Entry) (j : N)
    (st : seeds) : seeds :=
  match es with
  | [] => st
  | ej :: es' =>
      let d := area_diff ei ej in
      pickSeeds_inner ei i es' (j + 1)
        (if fgt d (snd st) then (i, j, d) else st)
  end.

Fixpoint pickSeeds_outer (es : list Entry) (i : N) (st : seeds) : seeds :=
  match es with
  | [] => st
  | ei :: es' =>
      pickSeeds_outer es' (i + 1) (pickSeeds_inner ei i es' (i + 1) st)
  end.

Definition pickSeeds (es : list Entry) : N * N :=
  fst (pickSeeds_outer es 0 (0, 1, minus_one)).

(** The entries other than the two seeds, in storage order, from entry
    number [i] on. *)
Fixpoint remaining_from (es : list Entry) (i seed1 seed2 : N) : list Entry :=
  match es with
  | [] => []
  | e :: es' =>
      if negb (i =? seed1) && negb (i =? seed2)
      then e :: remaining_from es' (i + 1) seed1 seed2
      else remaining_from es' (i + 1) seed1 seed2
  end.

(** The area increase of the distribution loop: what the rectangle [r]
    gains when it absorbs the entry. *)
Definition area_increase (r : Rectangle) (entry : Entry) : float :=
  fsub (area (expand r (bounding_box entry))) (area r).

(** The distribution loop; [g1] is [node.entries], [g2] is
    [new_node.entries]. *)
Fixpoint distribute (remaining : list Entry) (g1 g2 : list Entry)
    : result (list Entry * list Entry) :=
  match remaining with
  | [] => Ok (g1, g2)
  | entry :: rest =>
      e1 ← at_ g1 0;
      e2 ← at_ g2 0;
      let rect1 := bounding_box e1 in
      let rect2 := bounding_box e2 in
      if flt (area_increase rect1 entry) (area_increase rect2 entry)
      then distribute rest (g1 ++ [entry]) g2
      else distribute rest g1 (g2 ++ [entry])
  end.

(** The bounding rectangle of a vector of entries: entry 0, expanded by the
    entries 1, 2, ... in turn. *)
Definition mbr (es : list Entry) : result Rectangle :=
  e0 ← at_ es 0;
  Ok (fold_left (fun m e => expand m (bounding_box e)) (drop 1 es)
        (bounding_box e0)).

Fixpoint findParent_from (ns : list Node) (i : N) (child : N) : result N :=
  match ns with
  | [] => Err ParentNotFound
  | node :: ns' =>
      if negb (is_leaf node) &&
         existsb (fun e => child_index e =? child) (entries node)
      then Ok i
      else findParent_from ns' (i + 1) child
  end.

Definition findParent (t : RTree) (child : N) : result N :=
  findParent_from (nodes t) 0 child.

(** The loop of [splitNode] over [parent.entries] that stores the new
    bounding rectangle of the split node in the first entry that refers to
    it. *)
Fixpoint relink (es : list Entry) (node_index : N) (node_entries : list Entry)
    : result (list Entry) :=
  match es with
  | [] => Ok []
  | e :: es' =>
      if child_index e =? node_index
      then m ← mbr node_entries; Ok (set_bounding_box e m :: es')
      else es'' ← relink es' node_index node_entries; Ok (e :: es'')
  end.

(** [v.emplace_back(mbr); v.back().child_index = c] *)
Definition link (m : Rectangle) (c : N) : Entry :=
  set_child_index (Entry_new m None) c.

(** [splitNode]. The references [node], [root] and [parent] are taken
    before [nodes] grows; where the function reads or writes through one of
    them after [createNode] or [push_back], the reference has to be valid
    still. *)
Fixpoint splitNode (fuel : nat) (s : Index) (node_index : N) : result Index :=
  match fuel with
  | O => Err OutOfFuel
  | S fuel' =>
      node ← at_ (nodes s) node_index;
      let '(seed1, seed2) := pickSeeds (entries node) in
      seed1_entry ← at_ (entries node) seed1;
      seed2_entry ← at_ (entries node) seed2;
      let remaining_entries := remaining_from (entries node) 0 seed1 seed2 in
      '(g1, g2) ← distribute remaining_entries [seed1_entry] [seed2_entry];
      let new_node := mkNode (is_leaf node) g2 in
      let s1 := put s (set_node s node_index (set_entries node g1)) in
      if node_index =? root_index s then
        let '(s2, r, live1) := createNode s1 false in
        let s3 := put s2 (mkRTree (nodes s2) r) in
        root ← at_ (nodes s3) r;
        let new_node_index := size (nodes s3) in
        let '(s4, live2) := push_back s3 new_node in
        (* [node.entries[0]]: [node] dates from before both calls *)
        valid (live1 && live2) ≫= fun _ =>
        node' ← at_ (nodes s4) node_index;
        mbr1 ← mbr (entries node');
        sibling ← at_ (nodes s4) new_node_index;
        mbr2 ← mbr (entries sibling);
        (* [root.entries.emplace_back]: [root] dates from before the second *)
        valid live2 ≫= fun _ =>
        let root' :=
          set_entries root
            (entries root ++ [link mbr1 node_index]
                          ++ [link mbr2 new_node_index]) in
        Ok (put s4 (set_node s4 r root'))
      else
        parent_index ← findParent s1 node_index;
        parent ← at_ (nodes s1) parent_index;
        node' ← at_ (nodes s1) node_index;
        es ← relink (entries parent) node_index (entries node');
        let s2 := put s1 (set_node s1 parent_index (set_entries parent es)) in
        let new_node_index := size (nodes s2) in
        let '(s3, live) := push_back s2 new_node in
        sibling ← at_ (nodes s3) new_node_index;
        mbr_new_node ← mbr (entries sibling);
        (* [parent.entries.emplace_back]: [parent] dates from before the call *)
        valid live ≫= fun _ =>
        parent' ← at_ (nodes s3) parent_index;
        let parent'' :=
          set_entries parent'
            (entries parent' ++ [link mbr_new_node new_node_index]) in
        let s4 := put s3 (set_node s3 parent_index parent'') in
        if MAX_ENTRIES <? size (entries parent'')
        then splitNode fuel' s4 parent_index
        else Ok s4
  end.

(** [distributeEntries], a private member function that nothing calls. *)
Definition distributeEntries (group1 group2 : list Entry)
    (seed1 seed2 : Entry) : list Entry * list Entry :=
  (group1 ++ [seed1], group2 ++ [seed2]).

(** *** insert *)

Definition insert (s : Index) (rect : Rectangle) (d : DataT) : result Index :=
  let fuel := length (nodes s) in
  '(t1, leaf_index) ← chooseLeaf fuel s (root_index s) rect;
  leaf ← at_ (nodes t1) leaf_index;
  let leaf' := set_entries leaf (entries leaf ++ [Entry_new rect (Some d)]) in
  let s2 := put s (set_node t1 leaf_index leaf') in
  if MAX_ENTRIES <? size (entries leaf')
  then splitNode fuel s2 leaf_index
  else Ok s2.

(** *** rangeQuery *)

Fixpoint rangeQueryHelper (fuel : nat) (t : RTree) (node_index : N)
    (rect : Rectangle) (results : list DataT) : result (list DataT) :=
  match fuel with
  | O => Err OutOfFuel
  | S fuel' =>
      node ← at_ (nodes t) node_index;
      for_each
        (fun results entry =>
           if overlaps (bounding_box entry) rect then
             if is_leaf node then
               match data entry with
               | Some d => Ok (results ++ [d])
               | None => Err EmptyOptional
               end
             else rangeQueryHelper fuel' t (child_index entry) rect results
           else Ok results)
        (entries node) results
  end.

Definition rangeQuery (t : RTree) (rect : Rectangle) : result (list DataT) :=
  rangeQueryHelper (length (nodes t)) t (root_index t) rect [].

(** *** Sequences of insertions *)

Fixpoint insert_all (s : Index) (ops : list (Rectangle * DataT))
    : result Index :=
  match ops with
  | [] => Ok s
  | (r, d) :: ops' => s' ← insert s r d; insert_all s' ops'
  end.

(** The index built from [RTree()] by the insertions [ops], in order. *)
Definition build (ops : list (Rectangle * DataT)) : result Index :=
  insert_all RTree_new ops.

(** The same after [nodes.reserve(c)]. *)
Definition build_reserved (c : N) (ops : list (Rectangle * DataT))
    : result Index :=
  insert_all (reserve RTree_new c) ops.

(** *** The member functions on stable storage *)

(** What [createNode], [splitNode] and [insert] compute when the storage of
    [nodes] does not move: there every reference is valid, and is as good as
    the handle it was taken from. The functions above are compared with
    these. *)
Definition createNode_stable (t : RTree) (leaf : bool) : RTree * N :=
  let ns := nodes t ++ [mkNode leaf []] in
  (mkRTree ns (root_index t), size ns - 1).

Definition RTree_new_stable : RTree :=
  let '(t, r) := createNode_stable (mkRTree [] 0) true in
  mkRTree (nodes t) r.

Fixpoint splitNode_stable (fuel : nat) (t : RTree) (node_index : N) : result RTree :=
  match fuel with
  | O => Err OutOfFuel
  | S fuel' =>
      node ← at_ (nodes t) node_index;
      let '(seed1, seed2) := pickSeeds (entries node) in
      seed1_entry ← at_ (entries node) seed1;
      seed2_entry ← at_ (entries node) seed2;
      let remaining_entries := remaining_from (entries node) 0 seed1 seed2 in
      '(g1, g2) ← distribute remaining_entries [seed1_entry] [seed2_entry];
      let new_node := mkNode (is_leaf node) g2 in
      let t1 := set_node t node_index (set_entries node g1) in
      if node_index =? root_index t then
        let '(t2, r) := createNode_stable t1 false in
        let t3 := mkRTree (nodes t2) r in
        root ← at_ (nodes t3) r;
        let new_node_index := size (nodes t3) in
        let t4 := mkRTree (nodes t3 ++ [new_node]) r in
        node' ← at_ (nodes t4) node_index;
        mbr1 ← mbr (entries node');
        sibling ← at_ (nodes t4) new_node_index;
        mbr2 ← mbr (entries sibling);
        let root' :=
          set_entries root
            (entries root ++ [link mbr1 node_index]
                          ++ [link mbr2 new_node_index]) in
        Ok (set_node t4 r root')
      else
        parent_index ← findParent t1 node_index;
        parent ← at_ (nodes t1) parent_index;
        node' ← at_ (nodes t1) node_index;
        es ← relink (entries parent) node_index (entries node');
        let t2 := set_node t1 parent_index (set_entries parent es) in
        let new_node_index := size (nodes t2) in
        let t3 := mkRTree (nodes t2 ++ [new_node]) (root_index t2) in
        sibling ← at_ (nodes t3) new_node_index;
        mbr_new_node ← mbr (entries sibling);
        parent' ← at_ (nodes t3) parent_index;
        let parent'' :=
          set_entries parent'
            (entries parent' ++ [link mbr_new_node new_node_index]) in
        let t4 := set_node t3 parent_index parent'' in
        if MAX_ENTRIES <? size (entries parent'')
        then splitNode_stable fuel' t4 parent_index
        else Ok t4
  end.

Definition insert_stable (t : RTree) (rect : Rectangle) (d : DataT) : result RTree :=
  let fuel := length (nodes t) in
  '(t1, leaf_index) ← chooseLeaf fuel t (root_index t) rect;
  leaf ← at_ (nodes t1) leaf_index;
  let leaf' := set_entries leaf (entries leaf ++ [Entry_new rect (Some d)]) in
  let t2 := set_node t1 leaf_index leaf' in
  if MAX_ENTRIES <? size (entries leaf')
  then splitNode_stable fuel t2 leaf_index
  else Ok t2.

Fixpoint insert_all_stable (t : RTree) (ops : list (Rectangle * DataT))
    : result RTree :=
  match ops with
  | [] => Ok t
  | (r, d) :: ops' => t' ← insert_stable t r d; insert_all_stable t' ops'
  end.

(** The index built from [RTree()] by the insertions [ops], in order. *)
Definition build_stable (ops : list (Rectangle * DataT)) : result RTree :=
  insert_all_stable RTree_new_stable ops.

(** ** Vocabulary of the properties *)

(** The seeds are two different entries of a node of [len] entries. *)
Definition seeds_ok (len : N) (st : seeds) : Prop :=
  fst (fst st) < snd (fst st) /\ snd (fst st) < len.

(** The leaf entry that [insert] appends for the pair [op]. *)
Definition leaf_entry (op : Rectangle * DataT) : Entry :=
  Entry_new (fst op) (Some (snd op)).

Definition children_of (n : Node) : list N :=
  if is_leaf n then [] else child_index <$> entries n.

Definition leaf_entries_of (n : Node) : list Entry :=
  if is_leaf n then entries n else [].

(** All child references of the internal nodes, and all entries of the leaf
    nodes, in arena order. *)
Definition all_children (ns : list Node) : list N := ns ≫= children_of.
Definition all_leaf_entries (ns : list Node) : list Entry :=
  ns ≫= leaf_entries_of.

(** The total number of entries held by the leaf nodes of the arena. *)
Definition leaf_entry_count (t : RTree) : N :=
  size (all_leaf_entries (nodes t)).

(** The handles of an arena: [0 .. size - 1]. *)
Definition handles (ns : list Node) : list N :=
  N.of_nat <$> seq 0 (length ns).

Definition entries_at (ns : list Node) (i : N) : list Entry :=
  match ns !! N.to_nat i with Some n => entries n | None => [] end.

Definition children_at (ns : list Node) (i : N) : list N :=
  match ns !! N.to_nat i with Some n => children_of n | None => [] end.

(** The leaf entries below the node [i] of level [h], in traversal order. *)
Fixpoint under (ns : list Node) (h : nat) (i : N) : list Entry :=
  match h with
  | O => entries_at ns i
  | S h' => entries_at ns i ≫= (fun e => under ns h' (child_index e))
  end.

(** The shape of a reachable index. [lvl] gives the level of every node:
    leaves are at level 0, the children of a node one level below it. Every
    handle but the root is referred to by exactly one entry of an internal
    node, and the root by none. *)
Record shape (lvl : N -> nat) (t : RTree) : Prop := mkShape {
  shape_links :
    root_index t :: all_children (nodes t) ≡ₚ handles (nodes t);
  shape_leaf : forall i n,
    at_ (nodes t) i = Ok n -> is_leaf n = true -> lvl i = O;
  shape_inner : forall i n,
    at_ (nodes t) i = Ok n -> is_leaf n = false ->
    entries n <> [] /\
    forall e, e ∈ entries n -> S (lvl (child_index e)) = lvl i;
  shape_top : forall i,
    i < size (nodes t) -> (lvl i <= lvl (root_index t))%nat;
  shape_fuel : (lvl (root_index t) < length (nodes t))%nat
}.

(** Rectangles whose four bounds are numbers. *)
Definition numeric (r : Rectangle) : bool :=
  negb (is_nan (x_min r)) && negb (is_nan (y_min r)) &&
  negb (is_nan (x_max r)) && negb (is_nan (y_max r)).

(** The invariant the callers are assumed to keep: min <= max on each
    axis. *)
Definition legal (r : Rectangle) : bool :=
  fle (x_min r) (x_max r) && fle (y_min r) (y_max r).

(** [outer] contains [inner]. *)
Definition covers (outer inner : Rectangle) : bool :=
  fle (x_min outer) (x_min inner) && fle (y_min outer) (y_min inner) &&
  fle (x_max inner) (x_max outer) && fle (y_max inner) (y_max outer).

(** Every bound stored in the arena is a number. *)
Definition all_numeric (t : RTree) : Prop :=
  forall n e, n ∈ nodes t -> e ∈ entries n ->
    numeric (bounding_box e) = true.

(** The bounding rectangle of every entry of an internal node contains the
    bounding rectangles of the entries of the node it refers to. *)
Definition contained (t : RTree) : Prop :=
  forall i n e c e',
    at_ (nodes t) i = Ok n -> is_leaf n = false -> e ∈ entries n ->
    at_ (nodes t) (child_index e) = Ok c -> e' ∈ entries c ->
    covers (bounding_box e) (bounding_box e') = true.

(** The same, for all the rectangles stored in the subtree. *)
Definition contained_deep (lvl : N -> nat) (t : RTree) : Prop :=
  forall i n e e',
    at_ (nodes t) i = Ok n -> is_leaf n = false -> e ∈ entries n ->
    e' ∈ under (nodes t) (lvl (child_index e)) (child_index e) ->
    covers (bounding_box e) (bounding_box e') = true.

(** The test of the distribution loop for the entry [e], with the seeds
    [s1] (kept by the split node) and [s2] (given to the new node). *)
Definition closer_to_first (s1 s2 e : Entry) : Prop :=
  flt (area_increase (bounding_box s1) e)
      (area_increase (bounding_box s2) e) = true.

#[global] Instance closer_to_first_dec s1 s2 e :
  Decision (closer_to_first s1 s2 e) := bool_eq_dec _ _.



(** When the descent stands at the node [i], the entry that refers to [i]
    has been expanded: it contains the rectangle [r]. *)
Definition pending (t : RTree) (i : N) (r : Rectangle) : Prop :=
  forall p n e,
    at_ (nodes t) p = Ok n -> is_leaf n = false -> e ∈ entries n ->
    child_index e = i -> covers (bounding_box e) r = true.

(** The first part of [splitNode]: the seeds, and the two groups of
    entries. *)
Definition split_groups (es : list Entry) : result (list Entry * list Entry) :=
  let '(seed1, seed2) := pickSeeds es in
  seed1_entry ← at_ es seed1;
  seed2_entry ← at_ es seed2;
  distribute (remaining_from es 0 seed1 seed2) [seed1_entry] [seed2_entry].

(** The arena after the split of the root [k]: the node [k] keeps the group
    [g1], the new root and the new node are allocated in this order. *)
Definition arena_root_split (ns : list Node) (k : N) (node : Node)
    (g1 g2 : list Entry) (m1 m2 : Rectangle) : list Node :=
  <[N.to_nat k := set_entries node g1]> ns ++
  [mkNode false [link m1 k; link m2 (size ns + 1)];
   mkNode (is_leaf node) g2].

(** The arena after the split of the node [k], whose parent is [p]: [es'] is
    what [relink] makes of the entries of the parent. *)
Definition arena_inner_split (ns : list Node) (k : N) (node : Node)
    (g1 g2 : list Entry) (p : N) (parent : Node) (es' : list Entry)
    (m2 : Rectangle) : list Node :=
  <[N.to_nat p := set_entries parent (es' ++ [link m2 (size ns)])]>
    (<[N.to_nat k := set_entries node g1]> ns) ++
  [mkNode (is_leaf node) g2].

(** The levels after a node was allocated at the handle [i], on level
    [h]. *)
Definition relevel (lvl : N -> nat) (i : N) (h : nat) : N -> nat :=
  fun j => if j =? i then h else lvl j.

(** The invariant of the index built by the insertions [ops]. *)
Definition index_inv (t : RTree) (ops : list (Rectangle * DataT)) : Prop :=
  (exists lvl, shape lvl t) /\
  all_leaf_entries (nodes t) ≡ₚ leaf_entry <$> ops /\
  (Forall (fun op => numeric (fst op) = true) ops ->
   all_numeric t /\ contained t).

(** The handles of the nodes of level [h], in arena order. *)
Definition at_level (lvl : N -> nat) (ns : list Node) (h : nat) : list N :=
  filter (fun i => lvl i = h) (handles ns).

(** The values that a query for [q] finds among the entries [es]. *)
Definition hits (q : Rectangle) (es : list Entry) : list DataT :=
  omap data (filter (fun e => overlaps (bounding_box e) q = true) es).

(** The references between nodes: the pairs of the child handle and the
    bounding rectangle of the entries of the internal nodes. *)
Definition links_of (n : Node) : list (N * Rectangle) :=
  if is_leaf n then []
  else (fun e => (child_index e, bounding_box e)) <$> entries n.

Definition links (ns : list Node) : list (N * Rectangle) := ns ≫= links_of.

(** The nodes that a call of [splitNode] for the node [k] splits: the node
    [k], then the parent that [findParent] returns for it when that parent
    holds [MAX_ENTRIES] entries, so that the entry for the new node is one too
    many, and so on upwards; the chain ends at the root. *)
Fixpoint split_chain (fuel : nat) (t : RTree) (k : N) : list N :=
  match fuel with
  | O => []
  | S fuel' =>
      k :: (if k =? root_index t then []
            else match findParent t k with
                 | Ok p =>
                     if MAX_ENTRIES <=? size (entries_at (nodes t) p)
                     then split_chain fuel' t p
                     else []
                 | Err _ => []
                 end)
  end.

(** The nodes that [insert] splits for the rectangle [r]: none when the leaf
    that [chooseLeaf] selects has room, else the chain that starts at that
    leaf. *)
Definition insert_splits (t : RTree) (r : Rectangle) : list N :=
  match chooseLeaf (length (nodes t)) t (root_index t) r with
  | Ok (_, leaf) =>
      if MAX_ENTRIES <=? size (entries_at (nodes t) leaf)
      then split_chain (length (nodes t)) t leaf
      else []
  | Err _ => []
  end.

(** What the loop [relink] does to an entry of the parent of the node [k],
    whose new bounding rectangle is [m]. *)
Definition relinked (k : N) (m : Rectangle) (e e' : Entry) : Prop :=
  e' = e \/ (child_index e = k /\ e' = set_bounding_box e m).

(** What [chooseLeaf] may do to an entry: nothing, or expand its bounding
    rectangle by the rectangle [r]. *)
Definition entry_grown (r : Rectangle) (e e' : Entry) : Prop :=
  e' = e \/ e' = set_bounding_box e (expand (bounding_box e) r).

Definition node_grown (r : Rectangle) (n n' : Node) : Prop :=
  is_leaf n' = is_leaf n /\
  (is_leaf n = true -> n' = n) /\
  Forall2 (entry_grown r) (entries n) (entries n').

Definition grown (r : Rectangle) (t t' : RTree) : Prop :=
  root_index t' = root_index t /\
  Forall2 (node_grown r) (nodes t) (nodes t').

(** The [area_increase] of the loop of [chooseLeaf] for the entry [e]. *)
Definition enlargement (rect : Rectangle) (e : Entry) : float :=
  fsub (area (expand (bounding_box e) rect)) (area (bounding_box e)).

(** The pairs that the seed loops of [splitNode] visit, in the order of the
    visit, each with its [area_diff]. *)
Fixpoint pairs_with (ei : Entry) (i : N) (es : list (Entry)) (j : N)
    : list seeds :=
  match es with
  | [] => []
  | ej :: es' => (i, j, area_diff ei ej) :: pairs_with ei i es' (j + 1)
  end.

Fixpoint pairs_from (es : list (Entry)) (i : N) : list seeds :=
  match es with
  | [] => []
  | ei :: es' => pairs_with ei i es' (i + 1) ++ pairs_from es' (i + 1)
  end.

(** The test and the assignment of the seed loops. *)
Definition pick (st c : seeds) : seeds := if fgt (snd c) (snd st) then c else st.

(** The pair [c] is visited before the pair [c']. *)
Definition before (c c' : seeds) : Prop :=
  fst (fst c) < fst (fst c') \/
  (fst (fst c) = fst (fst c') /\ snd (fst c) < snd (fst c')).

Definition ordered (l : list seeds) : Prop :=
  forall (k' k : nat) c' c,
    l !! k' = Some c' -> l !! k = Some c -> (k' < k)%nat -> before c' c.
(** The leaf entries that [rangeQueryHelper] reaches from the node [i] of
    level [h], in the order of the traversal: the entries whose bounding
    rectangle does not overlap the query are passed over, with all that is
    below them. *)
Fixpoint found (ns : list (Node)) (q : Rectangle) (h : nat) (i : N)
    : list (Entry) :=
  let es :=
    filter (fun e => overlaps (bounding_box e) q = true) (entries_at ns i) in
  match h with
  | O => es
  | S h' => es ≫= (fun e => found ns q h' (child_index e))
  end.

(** The bounding rectangle of an entry that refers to the node [i] is as
    small as can be: every rectangle that contains the bounding rectangles of
    the entries of the node [i] contains it. *)
Definition tight_at (t : RTree) (i : N) : Prop :=
  forall p n e c (b : Rectangle),
    at_ (nodes t) p = Ok n -> is_leaf n = false -> e ∈ entries n ->
    child_index e = i -> at_ (nodes t) i = Ok c ->
    (forall e', e' ∈ entries c -> covers b (bounding_box e') = true) ->
    covers b (bounding_box e) = true.

Definition tight (t : RTree) : Prop := forall i, tight_at t i.

(** The same when the descent stands at the node [i]: the entry that refers
    to [i] has been expanded by the rectangle [r], which the node [i] does not
    hold yet. *)
Definition pending_tight (t : RTree) (i : N) (r : Rectangle) : Prop :=
  forall p n e c (b : Rectangle),
    at_ (nodes t) p = Ok n -> is_leaf n = false -> e ∈ entries n ->
    child_index e = i -> at_ (nodes t) i = Ok c ->
    (forall e', e' ∈ entries c -> covers b (bounding_box e') = true) ->
    covers b r = true ->
    covers b (bounding_box e) = true.

(** What the loop [relink] makes of an entry of the parent of the node
    [k]. *)
Definition relabel (k : N) (m : Rectangle) (e : Entry) : Entry :=
  if child_index e =? k then set_bounding_box e m else e.

(** The distribution loop as the specification words it: an entry goes to
    the group whose current bounding rectangle needs the smaller area increase
    to absorb it, and to the group of the split node when the two increases
    are equal. *)
Fixpoint distribute_claimed (remaining : list Entry) (g1 g2 : list Entry)
    : result (list Entry * list Entry) :=
  match remaining with
  | [] => Ok (g1, g2)
  | entry :: rest =>
      m1 ← mbr g1;
      m2 ← mbr g2;
      if flt (area_increase m2 entry) (area_increase m1 entry)
      then distribute_claimed rest g1 (g2 ++ [entry])
      else distribute_claimed rest (g1 ++ [entry]) g2
  end.

Definition split_groups_claimed (es : list Entry)
    : result (list Entry * list Entry) :=
  let '(seed1, seed2) := pickSeeds es in
  seed1_entry ← at_ es seed1;
  seed2_entry ← at_ es seed2;
  distribute_claimed (remaining_from es 0 seed1 seed2)
    [seed1_entry] [seed2_entry].

End RTree.

Arguments Entry : clear implicits.
Arguments Node : clear implicits.
Arguments RTree : clear implicits.
Arguments Index : clear implicits.

(** ** The test of the source, and sample runs *)

Definition sample4 : list (Rectangle * Z) :=
  [(rect 0 0 5 5, 1%Z); (rect 6 6 10 10, 2%Z);
   (rect 11 11 15 15, 3%Z); (rect 16 16 20 20, 4%Z)].


(** Five insertions that overflow the root leaf with a tie in the
    distribution loop: the entry of value 3 is as far from one seed as from the
    other. *)
Definition tie_ops : list (Rectangle * Z) :=
  [(rect 0 0 1 1, 1%Z); (rect 10 10 11 11, 2%Z); (rect 5 5 6 6, 3%Z);
   (rect 0 0 1 1, 4%Z); (rect 10 10 11 11, 5%Z)].

(** Five insertions of rectangles that overlap so much that every pair has
    an [area_diff] below -1. *)
Definition nested_ops : list (Rectangle * Z) :=
  [(rect 0 0 10 10, 1%Z); (rect 0 0 10 10, 2%Z); (rect 0 0 2 2, 3%Z);
   (rect 0 0 2 2, 4%Z); (rect 0 0 2 2, 5%Z)].

(** Six insertions after which the root is internal and the leaf 0 is
    full. *)
Definition diagonal_ops : list (Rectangle * Z) :=
  [(rect 0 0 1 1, 1%Z); (rect 10 10 11 11, 2%Z); (rect 1 1 2 2, 3%Z);
   (rect 11 11 12 12, 4%Z); (rect 2 2 3 3, 5%Z); (rect 3 3 4 4, 6%Z)].

(** A rectangle whose four bounds are NaN. *)
Definition nan_rect : Rectangle :=
  mkRectangle S754_nan S754_nan S754_nan S754_nan.

(** Five insertions, the last of a rectangle of NaN bounds: it goes to the
    new leaf of the split, behind the second seed. *)
Definition nan_ops : list (Rectangle * Z) :=
  [(rect 0 0 1 1, 1%Z); (rect 10 10 11 11, 2%Z); (rect 0 0 1 1, 3%Z);
   (rect 10 10 11 11, 4%Z); (nan_rect, 5%Z)].


(** Eight insertions, three of them of rectangles of NaN bounds, after which
    the index has three levels. *)
Definition nan_deep_ops : list (Rectangle * Z) :=
  [(rect 0 8 1 9, 1%Z); (nan_rect, 2%Z); (nan_rect, 3%Z); (nan_rect, 4%Z);
   (rect 10 0 11 1, 5%Z); (rect 12 10 13 11, 6%Z); (rect 4 10 5 11, 7%Z);
   (rect 4 10 5 11, 8%Z)].

(** Five insertions in a row: the entry of value 3 joins the first seed, and
    the entry of value 4 is then nearer to the bounding rectangle of the first
    group than to the second seed, and farther from the first seed. *)
Definition drift_ops : list (Rectangle * Z) :=
  [(rect 0 0 1 1, 1%Z); (rect 10 0 11 1, 2%Z); (rect 4 0 5 1, 3%Z);
   (rect 6 0 7 1, 4%Z); (rect 0 0 1 1, 5%Z)].

(** The index that the insertions [ops] build when [nodes] has storage for
    [c] nodes; the new index when they do not build one. *)
Definition index_of (c : N) (ops : list (Rectangle * Z)) : Index Z :=
  match build_reserved c ops with
  | Ok s => s
  | Err _ => RTree_new
  end.

Definition sample4_index : Index Z := Eval vm_compute in index_of 0 sample4.
Definition tie_index : Index Z := Eval vm_compute in index_of 3 tie_ops.
Definition nested_index : Index Z := Eval vm_compute in index_of 3 nested_ops.
Definition nan_index : Index Z := Eval vm_compute in index_of 3 nan_ops.
Definition nan_deep_index : Index Z :=
  Eval vm_compute in index_of 8 nan_deep_ops.

(** The index after the first five of [diagonal_ops], where the leaf 0 has
    room. *)
Definition diagonal5 : Index Z :=
  Eval vm_compute in index_of 4 (take 5 diagonal_ops).

(** The index after all six. *)
Definition diagonal6 : Index Z := Eval vm_compute in index_of 4 diagonal_ops.

(** The index after the six insertions in the opposite order. *)
Definition diagonal6_reversed : Index Z :=
  Eval vm_compute in index_of 4 (reverse diagonal_ops).

(** The first five of [diagonal_ops], and a rectangle of no extent. *)
Definition point_ops : list (Rectangle * Z) :=
  take 5 diagonal_ops ++ [(rect 3 3 3 3, 9%Z)].

Definition point_index : Index Z := Eval vm_compute in index_of 4 point_ops.

(** The index after a seventh insertion, of [4,4,5,5], which splits the
    leaf 0. *)
Definition diagonal7 : Index Z :=
  Eval vm_compute in
    index_of 4 (diagonal_ops ++ [(rect 4 4 5 5, 7%Z)]).




(** ** Tactics *)

(** The head of a sequence of partial operations that returns a result. *)
Ltac bind_head :=
  match goal with
  | |- mbind _ ?m = Ok _ -> _ =>
      let H := fresh "Hb" in
      destruct m as [?|?] eqn:H; simpl; [|done]
  | |- (let '(_, _) := ?m in _) = Ok _ -> _ =>
      destruct m as [? ?]; simpl
  end.

(** The two cases of a comparison of sizes. *)
Ltac case_leb :=
  match goal with
  | |- context [?a <=? ?b] => destruct (N.leb_spec a b)
  end.

(** * Properties *)

(** ** The order of binary32 *)

Section FloatOrder.

Lemma SFcompare_antisym x y :
  SFcompare y x = CompOpp <$> SFcompare x y.
Proof.
  destruct x as [[]|[]| |[] mx ex], y as [[]|[]| |[] my ey]; try reflexivity;
    simpl; rewrite (Z.compare_antisym ex ey);
    destruct (ex ?= ey)%Z; simpl; try reflexivity;
    rewrite (Pos.compare_cont_antisym _ _ Eq); simpl;
    try rewrite CompOpp_involutive; reflexivity.
Qed.

Lemma fge_fle x y : fge x y = fle y x.
Proof.
  unfold fge, fle, SFleb. rewrite (SFcompare_antisym x y).
  destruct (SFcompare x y) as [[]|]; reflexivity.
Qed.

Lemma fgt_flt x y : fgt x y = flt y x.
Proof.
  unfold fgt, flt, SFltb. rewrite (SFcompare_antisym x y).
  destruct (SFcompare x y) as [[]|]; reflexivity.
Qed.

Lemma fle_refl x : is_nan x = false -> fle x x = true.
Proof.
  destruct x as [[]|[]| |[] m e]; try done; intros _;
    unfold fle, SFleb; simpl; rewrite Z.compare_refl;
    change (Pos.compare_cont Eq m m) with (m ?= m)%positive;
    rewrite Pos.compare_refl; reflexivity.
Qed.

Lemma fle_not_nan x y : fle x y = true -> is_nan x = false /\ is_nan y = false.
Proof. destruct x as [?|?| |???], y as [?|?| |???]; done. Qed.

Lemma flt_fle x y : flt x y = true -> fle x y = true.
Proof. unfold flt, fle, SFltb, SFleb. destruct (SFcompare x y) as [[]|]; done. Qed.

Lemma not_flt_fle x y :
  is_nan x = false -> is_nan y = false -> flt x y = false -> fle y x = true.
Proof.
  unfold flt, fle, SFltb, SFleb. rewrite (SFcompare_antisym x y).
  destruct x as [?|?| |???], y as [?|?| |???]; try done;
    destruct (SFcompare _ _) as [[]|] eqn:E; try done.
Qed.

Lemma lexc_spec e1 m1 e2 m2 :
  match lexc e1 m1 e2 m2 with
  | Lt => (e1 < e2)%Z \/ (e1 = e2 /\ (m1 < m2)%positive)
  | Eq => e1 = e2 /\ m1 = m2
  | Gt => (e2 < e1)%Z \/ (e1 = e2 /\ (m2 < m1)%positive)
  end.
Proof.
  unfold lexc. change (Pos.compare_cont Eq) with Pos.compare.
  destruct (Z.compare_spec e1 e2); [|lia..].
  destruct (Pos.compare_spec m1 m2); lia.
Qed.

Lemma lexc_opp e1 m1 e2 m2 :
  match (e1 ?= e2)%Z with
  | Lt => Gt | Gt => Lt | Eq => CompOpp (Pos.compare_cont Eq m1 m2)
  end = CompOpp (lexc e1 m1 e2 m2).
Proof. unfold lexc. by destruct (e1 ?= e2)%Z. Qed.

Lemma fle_trans x y z : fle x y = true -> fle y z = true -> fle x z = true.
Proof.
  unfold fle, SFleb.
  destruct x as [[]|[]| |[] m1 e1], y as [[]|[]| |[] m2 e2], z as [[]|[]| |[] m3 e3];
    simpl; try done;
    rewrite ?lexc_opp;
    fold (lexc e1 m1 e2 m2); fold (lexc e2 m2 e3 m3); fold (lexc e1 m1 e3 m3);
    pose proof (lexc_spec e1 m1 e2 m2) as H12;
    pose proof (lexc_spec e2 m2 e3 m3) as H23;
    pose proof (lexc_spec e1 m1 e3 m3) as H13;
    destruct (lexc e1 m1 e2 m2), (lexc e2 m2 e3 m3), (lexc e1 m1 e3 m3);
    simpl; try done; lia.
Qed.

Lemma fmin_not_nan a b : is_nan a = false -> is_nan b = false -> is_nan (fmin a b) = false.
Proof. unfold fmin. by destruct (flt b a). Qed.
Lemma fmax_not_nan a b : is_nan a = false -> is_nan b = false -> is_nan (fmax a b) = false.
Proof. unfold fmax. by destruct (flt a b). Qed.
Lemma fmin_le_l a b : is_nan a = false -> fle (fmin a b) a = true.
Proof. unfold fmin. intros. destruct (flt b a) eqn:E; [by apply flt_fle | by apply fle_refl]. Qed.
Lemma fmin_le_r a b : is_nan a = false -> is_nan b = false -> fle (fmin a b) b = true.
Proof. unfold fmin. intros. destruct (flt b a) eqn:E; [by apply fle_refl | by apply not_flt_fle]. Qed.
Lemma fmax_ge_l a b : is_nan a = false -> fle a (fmax a b) = true.
Proof. unfold fmax. intros. destruct (flt a b) eqn:E; [by apply flt_fle | by apply fle_refl]. Qed.
Lemma fmax_ge_r a b : is_nan a = false -> is_nan b = false -> fle b (fmax a b) = true.
Proof. unfold fmax. intros. destruct (flt a b) eqn:E; [by apply fle_refl | by apply not_flt_fle]. Qed.
Lemma fmin_glb c a b : fle c a = true -> fle c b = true -> fle c (fmin a b) = true.
Proof. unfold fmin. by destruct (flt b a). Qed.
Lemma fmax_lub c a b : fle a c = true -> fle b c = true -> fle (fmax a b) c = true.
Proof. unfold fmax. by destruct (flt a b). Qed.
Lemma fmin_idem a b : fmin (fmin a b) b = fmin a b.
Proof.
  unfold fmin. destruct (flt b a) eqn:E; [|by rewrite E].
  destruct (flt b b) eqn:E'; done.
Qed.
Lemma fmax_idem a b : fmax (fmax a b) b = fmax a b.
Proof.
  unfold fmax. destruct (flt a b) eqn:E; [|by rewrite E].
  destruct (flt b b) eqn:E'; done.
Qed.

Lemma flt_not_fle x y : flt x y = true -> fle y x = false.
Proof.
  unfold flt, fle, SFltb, SFleb. rewrite (SFcompare_antisym x y).
  by destruct (SFcompare x y) as [[]|].
Qed.

Lemma flt_fle_trans x y z : flt x y = true -> fle y z = true -> flt x z = true.
Proof.
  intros Hxy Hyz.
  destruct (fle_not_nan _ _ Hyz) as [_ Hz].
  destruct (fle_not_nan _ _ (flt_fle _ _ Hxy)) as [Hx _].
  destruct (flt x z) eqn:E; [done|].
  pose proof (not_flt_fle _ _ Hx Hz E) as Hzx.
  pose proof (fle_trans _ _ _ Hyz Hzx) as Hyx.
  by rewrite (flt_not_fle _ _ Hxy) in Hyx.
Qed.

Lemma fle_flt_trans x y z : fle x y = true -> flt y z = true -> flt x z = true.
Proof.
  intros Hxy Hyz.
  destruct (fle_not_nan _ _ Hxy) as [Hx _].
  destruct (fle_not_nan _ _ (flt_fle _ _ Hyz)) as [_ Hz].
  destruct (flt x z) eqn:E; [done|].
  pose proof (not_flt_fle _ _ Hx Hz E) as Hzx.
  pose proof (fle_trans _ _ _ Hzx Hxy) as Hzy.
  by rewrite (flt_not_fle _ _ Hyz) in Hzy.
Qed.

End FloatOrder.

(** ** Rectangles *)

Section Geometry.

Lemma numeric_iff r :
  numeric r = true <->
  is_nan (x_min r) = false /\ is_nan (y_min r) = false /\
  is_nan (x_max r) = false /\ is_nan (y_max r) = false.
Proof.
  unfold numeric. rewrite !andb_true_iff, !negb_true_iff. tauto.
Qed.

Lemma covers_iff o i :
  covers o i = true <->
  fle (x_min o) (x_min i) = true /\ fle (y_min o) (y_min i) = true /\
  fle (x_max i) (x_max o) = true /\ fle (y_max i) (y_max o) = true.
Proof. unfold covers. rewrite !andb_true_iff. tauto. Qed.

Lemma legal_numeric r : legal r = true -> numeric r = true.
Proof.
  unfold legal. rewrite andb_true_iff, numeric_iff.
  intros [[??]%fle_not_nan [??]%fle_not_nan]. done.
Qed.

Lemma covers_numeric o i :
  covers o i = true -> numeric o = true /\ numeric i = true.
Proof.
  rewrite covers_iff, !numeric_iff.
  intros ([??]%fle_not_nan & [??]%fle_not_nan &
          [??]%fle_not_nan & [??]%fle_not_nan). done.
Qed.

Lemma covers_refl r : numeric r = true -> covers r r = true.
Proof.
  rewrite numeric_iff, covers_iff. intros (?&?&?&?).
  repeat split; by apply fle_refl.
Qed.

Lemma covers_trans a b c :
  covers a b = true -> covers b c = true -> covers a c = true.
Proof.
  rewrite !covers_iff. intros (?&?&?&?) (?&?&?&?).
  repeat split; eauto using fle_trans.
Qed.

Lemma expand_numeric a b :
  numeric a = true -> numeric b = true -> numeric (expand a b) = true.
Proof.
  rewrite !numeric_iff. intros (?&?&?&?) (?&?&?&?). simpl.
  repeat split; auto using fmin_not_nan, fmax_not_nan.
Qed.

Lemma expand_covers_l a b : numeric a = true -> covers (expand a b) a = true.
Proof.
  rewrite numeric_iff, covers_iff. intros (?&?&?&?). simpl.
  repeat split; auto using fmin_le_l, fmax_ge_l.
Qed.

Lemma expand_covers_r a b :
  numeric a = true -> numeric b = true -> covers (expand a b) b = true.
Proof.
  rewrite !numeric_iff, covers_iff. intros (?&?&?&?) (?&?&?&?). simpl.
  repeat split; auto using fmin_le_r, fmax_ge_r.
Qed.

Lemma expand_least c a b :
  covers c a = true -> covers c b = true -> covers c (expand a b) = true.
Proof.
  rewrite !covers_iff. intros (?&?&?&?) (?&?&?&?). simpl.
  repeat split; auto using fmin_glb, fmax_lub.
Qed.

Lemma expand_idem a b : expand (expand a b) b = expand a b.
Proof. unfold expand. simpl. by rewrite !fmin_idem, !fmax_idem. Qed.

(** A rectangle that overlaps the query is not pruned by a rectangle that
    contains it. *)
Lemma overlaps_covers o i q :
  covers o i = true -> overlaps i q = true -> overlaps o q = true.
Proof.
  rewrite covers_iff. unfold overlaps.
  rewrite !negb_true_iff, !orb_false_iff, !fge_fle.
  intros (Hx&Hy&HX&HY) (((H1&H2)&H3)&H4). repeat split.
  - destruct (fle (x_max q) (x_min o)) eqn:E; [|done].
    by rewrite (fle_trans _ _ _ E Hx) in H1.
  - destruct (fle (x_max o) (x_min q)) eqn:E; [|done].
    by rewrite (fle_trans _ _ _ HX E) in H2.
  - destruct (fle (y_max q) (y_min o)) eqn:E; [|done].
    by rewrite (fle_trans _ _ _ E Hy) in H3.
  - destruct (fle (y_max o) (y_min q)) eqn:E; [|done].
    by rewrite (fle_trans _ _ _ HY E) in H4.
Qed.

(** A rectangle of positive width and height overlaps every rectangle that
    contains it. *)
Lemma covers_overlaps q r :
  flt (x_min r) (x_max r) = true -> flt (y_min r) (y_max r) = true ->
  covers q r = true -> overlaps r q = true.
Proof.
  rewrite covers_iff. unfold overlaps.
  rewrite !negb_true_iff, !orb_false_iff, !fge_fle.
  intros Hw Hh (Hx&Hy&HX&HY). repeat split.
  - apply flt_not_fle. eauto using flt_fle_trans.
  - apply flt_not_fle. eauto using fle_flt_trans.
  - apply flt_not_fle. eauto using flt_fle_trans.
  - apply flt_not_fle. eauto using fle_flt_trans.
Qed.

End Geometry.

(** ** Vectors and results *)

Section Vectors.

Context {A : Type}.
Implicit Types (l k : list A) (i j : N) (a b : A).

Lemma bind_Ok {B C} (m : result B) (f : B -> result C) (c : C) :
  m ≫= f = Ok c <-> exists x, m = Ok x /\ f x = Ok c.
Proof.
  destruct m as [x|e]; simpl; split.
  - intros H. by exists x.
  - by intros (? & [= <-] & ?).
  - done.
  - by intros (? & ? & ?).
Qed.

Lemma at_Ok l i a : at_ l i = Ok a <-> l !! N.to_nat i = Some a.
Proof. unfold at_. destruct (l !! N.to_nat i); split; congruence. Qed.

Lemma at_lt l i a : at_ l i = Ok a -> i < size l.
Proof.
  rewrite at_Ok. intros H%lookup_lt_Some. unfold size. lia.
Qed.

Lemma at_is_Ok l i : i < size l -> exists a, at_ l i = Ok a.
Proof.
  unfold size. intros H.
  destruct (lookup_lt_is_Some_2 l (N.to_nat i)) as [a Ha]; [lia|].
  exists a. by apply at_Ok.
Qed.

Lemma at_elem l i a : at_ l i = Ok a -> a ∈ l.
Proof. rewrite at_Ok. apply list_elem_of_lookup_2. Qed.

Lemma elem_at l a : a ∈ l -> exists i, at_ l i = Ok a.
Proof.
  intros [n Hn]%list_elem_of_lookup_1. exists (N.of_nat n).
  apply at_Ok. by rewrite Nat2N.id.
Qed.

Lemma at_insert_eq l i a : i < size l -> at_ (<[N.to_nat i := a]> l) i = Ok a.
Proof.
  unfold size. intros H. apply at_Ok, list_lookup_insert_eq. lia.
Qed.

Lemma at_insert_ne l i j a : i <> j -> at_ (<[N.to_nat i := a]> l) j = at_ l j.
Proof.
  intros H. unfold at_. rewrite list_lookup_insert_ne; [done|lia].
Qed.

Lemma at_app_l l k i : i < size l -> at_ (l ++ k) i = at_ l i.
Proof.
  unfold size, at_. intros H. rewrite lookup_app_l; [done|lia].
Qed.

Lemma at_app_size l k a : at_ (l ++ a :: k) (size l) = Ok a.
Proof.
  apply at_Ok. unfold size. rewrite Nat2N.id. by apply list_lookup_middle.
Qed.

Lemma at_app_Ok l a i b :
  at_ (l ++ [a]) i = Ok b -> at_ l i = Ok b \/ (i = size l /\ b = a).
Proof.
  rewrite !at_Ok. unfold size. intros H.
  apply lookup_app_Some in H as [H|[Hl H]]; [by left|right].
  apply list_lookup_singleton_Some in H as [H ->]. split; [lia|done].
Qed.

Lemma size_app l k : size (l ++ k) = size l + size k.
Proof. unfold size. rewrite length_app. lia. Qed.

Lemma size_insert l (n : nat) a : size (<[n := a]> l) = size l.
Proof. unfold size. by rewrite length_insert. Qed.

Lemma size_nil : size (@nil A) = 0.
Proof. done. Qed.

Lemma size_cons a l : size (a :: l) = size l + 1.
Proof. unfold size. simpl. lia. Qed.

(** Replacing one element of a vector, seen through a map into lists. *)
Lemma bind_insert_exchange {X} (f : A -> list X) l (n : nat) a a' :
  l !! n = Some a ->
  (<[n := a']> l ≫= f) ++ f a ≡ₚ (l ≫= f) ++ f a'.
Proof.
  revert n. induction l as [|x l IH]; intros [|n] H; try done.
  - injection H as ->. change (<[0%nat := a']> (a :: l)) with (a' :: l).
    rewrite !bind_cons. solve_Permutation.
  - change (<[S n := a']> (x :: l)) with (x :: <[n := a']> l).
    rewrite !bind_cons, <-!(assoc_L (++)). f_equiv. by apply IH.
Qed.

Lemma bind_insert_perm {X} (f : A -> list X) l (n : nat) a a' :
  l !! n = Some a -> f a' ≡ₚ f a -> <[n := a']> l ≫= f ≡ₚ l ≫= f.
Proof.
  intros H Hf. apply (Permutation_app_inv_r (f a)).
  rewrite (bind_insert_exchange f l n a a' H). by rewrite Hf.
Qed.

End Vectors.

(** ** The loops of chooseLeaf and splitNode *)

Section Loops.

Context {DataT : Type}.
Implicit Types (e s : Entry DataT).
Implicit Types (es g remaining : list (Entry DataT)).
Implicit Types (n : Node DataT) (ns : list (Node DataT)).

Lemma chooseLeaf_scan_range rect es i best m :
  let r := chooseLeaf_scan rect es i best m in
  r = best \/ (i <= r /\ r < i + size es).
Proof.
  revert i best m. induction es as [|e es IH]; intros i best m; simpl; [by left|].
  rewrite size_cons.
  destruct (flt _ m).
  - destruct (IH (i + 1) i (fsub (area (expand (bounding_box e) rect))
                                  (area (bounding_box e)))) as [->|?]; right; lia.
  - destruct (IH (i + 1) best m) as [->|?]; [by left|right; lia].
Qed.

Lemma chooseLeaf_scan_lt rect es :
  es <> [] -> chooseLeaf_scan rect es 0 0 FLT_MAX < size es.
Proof.
  intros Hes. destruct (chooseLeaf_scan_range rect es 0 0 FLT_MAX) as [->|?];
    [|lia].
  destruct es; [done|]. rewrite size_cons. lia.
Qed.

Lemma pickSeeds_inner_ok ei i es j st len :
  i < j -> j + size es <= len -> seeds_ok len st ->
  seeds_ok len (pickSeeds_inner ei i es j st).
Proof.
  revert j st. induction es as [|e es IH]; intros j st Hij Hlen Hst; [done|].
  simpl. rewrite size_cons in Hlen. apply IH; [lia..|].
  destruct (fgt _ _); [|done]. split; simpl; lia.
Qed.

Lemma pickSeeds_outer_ok es i st len :
  i + size es <= len -> seeds_ok len st ->
  seeds_ok len (pickSeeds_outer es i st).
Proof.
  revert i st. induction es as [|e es IH]; intros i st Hlen Hst; [done|].
  simpl. rewrite size_cons in Hlen. apply IH; [lia|].
  apply pickSeeds_inner_ok; [lia..|done].
Qed.

Lemma pickSeeds_ok es seed1 seed2 :
  2 <= size es -> pickSeeds es = (seed1, seed2) ->
  seed1 < seed2 /\ seed2 < size es.
Proof.
  intros Hlen Hp. unfold pickSeeds in Hp.
  pose proof (pickSeeds_outer_ok es 0 (0, 1, minus_one) (size es)) as H.
  unfold seeds_ok in H. rewrite Hp in H. apply H; [lia|]. split; simpl; lia.
Qed.

(** When no pair has an [area_diff] above the state of the loops, the loops
    leave the seeds as they are. *)
Lemma pickSeeds_inner_below ei i es j st :
  (forall ej, ej ∈ es -> fgt (area_diff ei ej) (snd st) = false) ->
  pickSeeds_inner ei i es j st = st.
Proof.
  revert j. induction es as [|e es IH]; intros j H; [done|]. simpl.
  rewrite H by left. apply IH. intros. apply H. by right.
Qed.

Lemma pickSeeds_outer_below es i st :
  (forall ei ej, ei ∈ es -> ej ∈ es ->
     fgt (area_diff ei ej) (snd st) = false) ->
  pickSeeds_outer es i st = st.
Proof.
  revert i. induction es as [|e es IH]; intros i H; [done|]. simpl.
  rewrite pickSeeds_inner_below.
  - apply IH. intros. apply H; by right.
  - intros. apply H; [left|by right].
Qed.

Lemma pickSeeds_below es :
  (forall ei ej, ei ∈ es -> ej ∈ es ->
     fgt (area_diff ei ej) minus_one = false) ->
  pickSeeds es = (0, 1).
Proof. intros H. unfold pickSeeds. by rewrite pickSeeds_outer_below. Qed.

Lemma remaining_from_none es i seed1 seed2 :
  seed1 < i -> seed2 < i -> remaining_from es i seed1 seed2 = es.
Proof.
  revert i. induction es as [|e es IH]; intros i H1 H2; [done|]. simpl.
  destruct (N.eqb_spec i seed1), (N.eqb_spec i seed2); try lia. simpl.
  f_equal. apply IH; lia.
Qed.

Lemma remaining_from_one es i seed1 seed2 e2 :
  seed1 < i -> i <= seed2 -> at_ es (seed2 - i) = Ok e2 ->
  e2 :: remaining_from es i seed1 seed2 ≡ₚ es.
Proof.
  revert i. induction es as [|e es IH]; intros i H1 H2 Hat.
  { by apply at_Ok in Hat. }
  simpl. apply at_Ok in Hat.
  destruct (N.eqb_spec i seed1), (N.eqb_spec i seed2); try lia; simpl.
  - subst i. replace (N.to_nat (seed2 - seed2)) with 0%nat in Hat by lia.
    injection Hat as ->. rewrite remaining_from_none; [done|lia..].
  - rewrite Permutation_swap. f_equiv. apply IH; [lia..|].
    apply at_Ok. replace (N.to_nat (seed2 - i)) with (S (N.to_nat (seed2 - (i + 1))))
      in Hat by lia. done.
Qed.

Lemma remaining_from_two es i seed1 seed2 e1 e2 :
  i <= seed1 -> seed1 < seed2 ->
  at_ es (seed1 - i) = Ok e1 -> at_ es (seed2 - i) = Ok e2 ->
  e1 :: e2 :: remaining_from es i seed1 seed2 ≡ₚ es.
Proof.
  revert i. induction es as [|e es IH]; intros i H1 H2 Hat1 Hat2.
  { by apply at_Ok in Hat1. }
  simpl. apply at_Ok in Hat1. apply at_Ok in Hat2.
  replace (N.to_nat (seed2 - i)) with (S (N.to_nat (seed2 - (i + 1))))
    in Hat2 by lia. simpl in Hat2.
  destruct (N.eqb_spec i seed1), (N.eqb_spec i seed2); try lia; simpl.
  - subst i. replace (N.to_nat (seed1 - seed1)) with 0%nat in Hat1 by lia.
    injection Hat1 as ->. f_equiv.
    apply remaining_from_one; [lia..|]. by apply at_Ok.
  - replace (N.to_nat (seed1 - i)) with (S (N.to_nat (seed1 - (i + 1))))
      in Hat1 by lia. simpl in Hat1.
    transitivity (e :: e1 :: e2 :: remaining_from es (i + 1) seed1 seed2).
    { solve_Permutation. }
    f_equiv. apply IH; [lia..| |]; by apply at_Ok.
Qed.

(** The distribution loop: each remaining entry, in storage order, is
    appended to the split node when the test of the loop holds, and to the new
    node otherwise. *)
Lemma distribute_spec remaining s1 g1 s2 g2 :
  distribute remaining (s1 :: g1) (s2 :: g2) =
  Ok (s1 :: g1 ++ filter (closer_to_first s1 s2) remaining,
      s2 :: g2 ++ filter (fun e => ~ closer_to_first s1 s2 e) remaining).
Proof.
  revert g1 g2. induction remaining as [|e rest IH]; intros g1 g2.
  { simpl. by rewrite !app_nil_r. }
  cbn [distribute]. change (at_ (s1 :: g1) 0) with (Ok (A:=Entry DataT) s1).
  change (at_ (s2 :: g2) 0) with (Ok (A:=Entry DataT) s2). simpl.
  rewrite !filter_cons.
  destruct (decide (closer_to_first s1 s2 e)) as [Hc|Hc].
  - rewrite decide_False by tauto. unfold closer_to_first in Hc. rewrite Hc.
    rewrite (IH (g1 ++ [e]) g2), <-(assoc_L (++)). done.
  - rewrite decide_True by done. unfold closer_to_first in Hc.
    apply not_true_is_false in Hc. rewrite Hc.
    rewrite (IH g1 (g2 ++ [e])), <-(assoc_L (++)). done.
Qed.

Lemma distribute_perm remaining s1 s2 g1 g2 :
  distribute remaining [s1] [s2] = Ok (g1, g2) ->
  g1 ++ g2 ≡ₚ s1 :: s2 :: remaining /\ g1 <> [] /\ g2 <> [].
Proof.
  rewrite distribute_spec. intros [= <- <-]. split; [|done]. simpl.
  rewrite <-(filter_app_complement (closer_to_first s1 s2) remaining) at 3.
  solve_Permutation.
Qed.

Lemma fold_expand_numeric es r :
  numeric r = true ->
  (forall e, e ∈ es -> numeric (bounding_box e) = true) ->
  let m := fold_left (fun m e => expand m (bounding_box e)) es r in
  numeric m = true /\ covers m r = true /\
  forall e, e ∈ es -> covers m (bounding_box e) = true.
Proof.
  revert r. induction es as [|e es IH]; intros r Hr Hes; simpl.
  { split; [done|]. split; [by apply covers_refl|]. by intros ? ?%elem_of_nil. }
  assert (numeric (bounding_box e) = true) as He by (apply Hes; left).
  destruct (IH (expand r (bounding_box e))) as (Hm & Hc & Hall).
  { by apply expand_numeric. }
  { intros. apply Hes. by right. }
  split; [done|]. split.
  { eapply covers_trans; [done|]. by apply expand_covers_l. }
  intros e' [->|He']%elem_of_cons; [|by apply Hall].
  eapply covers_trans; [done|]. by apply expand_covers_r.
Qed.

Lemma fold_expand_least es r c :
  covers c r = true ->
  (forall e, e ∈ es -> covers c (bounding_box e) = true) ->
  covers c (fold_left (fun m e => expand m (bounding_box e)) es r) = true.
Proof.
  revert r. induction es as [|e es IH]; intros r Hr Hes; simpl; [done|].
  apply IH.
  - apply expand_least; [done|]. apply Hes. left.
  - intros. apply Hes. by right.
Qed.

Lemma mbr_is_Ok es : es <> [] -> exists m, mbr es = Ok m.
Proof. destruct es; [done|]. intros _. by eexists. Qed.

Lemma mbr_covers es m :
  mbr es = Ok m ->
  (forall e, e ∈ es -> numeric (bounding_box e) = true) ->
  numeric m = true /\ forall e, e ∈ es -> covers m (bounding_box e) = true.
Proof.
  destruct es as [|e0 es]; [done|]. intros [= <-] Hes.
  change (drop 1 (e0 :: es)) with es.
  destruct (fold_expand_numeric es (bounding_box e0)) as (Hm & Hc & Hall).
  { apply Hes. left. }
  { intros. apply Hes. by right. }
  split; [done|]. intros e [->|He]%elem_of_cons; auto.
Qed.

Lemma mbr_least es m c :
  mbr es = Ok m ->
  (forall e, e ∈ es -> covers c (bounding_box e) = true) ->
  covers c m = true.
Proof.
  destruct es as [|e0 es]; [done|]. intros [= <-] Hes.
  change (drop 1 (e0 :: es)) with es. apply fold_expand_least.
  - apply Hes. left.
  - intros. apply Hes. by right.
Qed.

End Loops.

(** ** Consequences of the shape invariant *)

Section Shape.

Context {DataT : Type}.
Implicit Types (e : Entry DataT) (es : list (Entry DataT)).
Implicit Types (n : Node DataT) (ns : list (Node DataT)).
Implicit Types (t : RTree DataT) (lvl : N -> nat).

Lemma elem_handles ns c : c ∈ handles ns <-> c < size ns.
Proof.
  unfold handles, size. rewrite list_elem_of_fmap. split.
  - intros (x & -> & Hx%elem_of_seq). lia.
  - intros H. exists (N.to_nat c). split; [lia|]. apply elem_of_seq. lia.
Qed.

Lemma handles_app ns n : handles (ns ++ [n]) = handles ns ++ [size ns].
Proof.
  unfold handles, size. rewrite length_app. simpl.
  by rewrite seq_app, fmap_app.
Qed.

Lemma handles_insert ns (i : nat) n : handles (<[i := n]> ns) = handles ns.
Proof. unfold handles. by rewrite length_insert. Qed.

Lemma NoDup_handles ns : NoDup (handles ns).
Proof.
  unfold handles. apply NoDup_fmap_2; [|apply NoDup_seq].
  intros x y. lia.
Qed.

Lemma all_children_elem ns i n e :
  at_ ns i = Ok n -> is_leaf n = false -> e ∈ entries n ->
  child_index e ∈ all_children ns.
Proof.
  intros Hn Hl He. apply list_elem_of_bind. exists n. split.
  - unfold children_of. rewrite Hl. by apply list_elem_of_fmap_2.
  - by eapply at_elem.
Qed.

Lemma all_children_inv ns c :
  c ∈ all_children ns ->
  exists i n e, at_ ns i = Ok n /\ is_leaf n = false /\ e ∈ entries n /\
                child_index e = c.
Proof.
  intros (n & Hc & Hn)%list_elem_of_bind. unfold children_of in Hc.
  destruct (is_leaf n) eqn:Hl; [by apply elem_of_nil in Hc|].
  apply list_elem_of_fmap in Hc as (e & -> & He).
  apply elem_at in Hn as [i Hi]. by exists i, n, e.
Qed.

Lemma NoDup_bind_inv {A B} (f : A -> list B) (l : list A) :
  NoDup (l ≫= f) ->
  (forall x, x ∈ l -> NoDup (f x)) /\
  (forall (i j : nat) x y b,
     l !! i = Some x -> l !! j = Some y -> b ∈ f x -> b ∈ f y -> i = j).
Proof.
  induction l as [|a l IH].
  { intros _. split; [by intros ? ?%elem_of_nil|by intros ??????]. }
  intros H. rewrite bind_cons in H. apply NoDup_app in H as (Ha & Hdisj & Hl).
  destruct (IH Hl) as [IH1 IH2]. split.
  { intros x [->|?]%elem_of_cons; auto. }
  intros [|i] [|j] x y b Hx Hy Hbx Hby; simplify_eq/=; [done| | |].
  - exfalso. eapply Hdisj; [done|]. apply list_elem_of_bind.
    eauto using list_elem_of_lookup_2.
  - exfalso. eapply Hdisj; [done|]. apply list_elem_of_bind.
    eauto using list_elem_of_lookup_2.
  - f_equal. eauto.
Qed.

Lemma shape_NoDup lvl t : shape lvl t -> NoDup (all_children (nodes t)).
Proof.
  intros Hs. pose proof (NoDup_handles (nodes t)) as H.
  rewrite <-(shape_links _ _ Hs) in H. by apply NoDup_cons in H as [_ ?].
Qed.

Lemma shape_root_orphan lvl t :
  shape lvl t -> root_index t ∉ all_children (nodes t).
Proof.
  intros Hs. pose proof (NoDup_handles (nodes t)) as H.
  rewrite <-(shape_links _ _ Hs) in H. by apply NoDup_cons in H as [? _].
Qed.

Lemma shape_root_lt lvl t : shape lvl t -> root_index t < size (nodes t).
Proof.
  intros Hs. apply elem_handles. rewrite <-(shape_links _ _ Hs). left.
Qed.

Lemma shape_child_lt lvl t i n e :
  shape lvl t -> at_ (nodes t) i = Ok n -> is_leaf n = false ->
  e ∈ entries n -> child_index e < size (nodes t).
Proof.
  intros Hs Hn Hl He. apply elem_handles. rewrite <-(shape_links _ _ Hs).
  right. by eapply all_children_elem.
Qed.

Lemma shape_child_lvl lvl t i n e :
  shape lvl t -> at_ (nodes t) i = Ok n -> is_leaf n = false ->
  e ∈ entries n -> S (lvl (child_index e)) = lvl i.
Proof. intros Hs Hn Hl He. by apply (shape_inner _ _ Hs i n Hn Hl). Qed.

Lemma shape_has_parent lvl t k :
  shape lvl t -> k < size (nodes t) -> k <> root_index t ->
  k ∈ all_children (nodes t).
Proof.
  intros Hs Hk Hr. apply elem_handles in Hk.
  rewrite <-(shape_links _ _ Hs) in Hk.
  by apply elem_of_cons in Hk as [?|?].
Qed.

(** A handle is referred to by one entry only. *)
Lemma shape_unique_ref lvl t i n j e i' n' j' e' :
  shape lvl t ->
  at_ (nodes t) i = Ok n -> is_leaf n = false -> at_ (entries n) j = Ok e ->
  at_ (nodes t) i' = Ok n' -> is_leaf n' = false ->
  at_ (entries n') j' = Ok e' ->
  child_index e = child_index e' -> i = i' /\ j = j'.
Proof.
  intros Hs Hn Hl He Hn' Hl' He' Hc.
  destruct (NoDup_bind_inv _ _ (shape_NoDup _ _ Hs)) as [Hin Hout].
  apply at_Ok in Hn, Hn'.
  assert (N.to_nat i = N.to_nat i') as Hi.
  { apply (Hout _ _ n n' (child_index e) Hn Hn').
    - unfold children_of. rewrite Hl. apply list_elem_of_fmap_2.
      by eapply at_elem.
    - unfold children_of. rewrite Hl', Hc. apply list_elem_of_fmap_2.
      by eapply at_elem. }
  assert (i = i') as <- by lia. split; [done|].
  assert (n' = n) as -> by congruence.
  specialize (Hin n (list_elem_of_lookup_2 _ _ _ Hn)).
  unfold children_of in Hin. rewrite Hl in Hin.
  apply at_Ok in He, He'.
  assert (N.to_nat j = N.to_nat j'); [|lia].
  apply (NoDup_lookup _ _ _ (child_index e) Hin).
  - by rewrite list_lookup_fmap, He.
  - by rewrite list_lookup_fmap, He', Hc.
Qed.

End Shape.

(** ** findParent, relink, and the descent of chooseLeaf *)

Section Descent.

Context {DataT : Type}.
Implicit Types (e : Entry DataT) (es : list (Entry DataT)).
Implicit Types (n : Node DataT) (ns : list (Node DataT)).
Implicit Types (t : RTree DataT) (lvl : N -> nat) (r : Rectangle).

Lemma refers_to es c :
  existsb (fun e => child_index e =? c) es = true <->
  exists e, e ∈ es /\ child_index e = c.
Proof.
  rewrite existsb_exists. split.
  - intros (e & He%list_elem_of_In & Hc%N.eqb_eq). eauto.
  - intros (e & He%list_elem_of_In & Hc%N.eqb_eq). eauto.
Qed.

Lemma findParent_from_Ok ns i c :
  c ∈ all_children ns -> exists p, findParent_from ns i c = Ok p.
Proof.
  revert i. induction ns as [|n ns IH]; intros i Hc.
  { by apply elem_of_nil in Hc. }
  simpl. unfold all_children in Hc. rewrite bind_cons in Hc.
  destruct (negb (is_leaf n) && existsb _ (entries n)) eqn:E; [by eexists|].
  apply elem_of_app in Hc as [Hc|Hc]; [|by apply IH].
  exfalso. unfold children_of in Hc.
  destruct (is_leaf n); [by apply elem_of_nil in Hc|]. simpl in E.
  apply list_elem_of_fmap in Hc as (e & -> & He).
  apply not_true_iff_false in E. apply E, refers_to. eauto.
Qed.

Lemma findParent_from_inv ns i c p :
  findParent_from ns i c = Ok p ->
  i <= p /\
  exists n e, at_ ns (p - i) = Ok n /\ is_leaf n = false /\ e ∈ entries n /\
              child_index e = c.
Proof.
  revert i. induction ns as [|n ns IH]; intros i; [done|]. simpl.
  destruct (negb (is_leaf n) && existsb _ (entries n)) eqn:E.
  - intros [= <-]. split; [lia|].
    apply andb_true_iff in E as [Hl%negb_true_iff (e & ? & ?)%refers_to].
    exists n, e. split; [|done]. apply at_Ok.
    by replace (N.to_nat (i - i)) with 0%nat by lia.
  - intros (Hle & n' & e & Hat & ?)%IH. split; [lia|].
    exists n', e. split; [|done]. apply at_Ok. apply at_Ok in Hat.
    by replace (N.to_nat (p - i)) with (S (N.to_nat (p - (i + 1)))) by lia.
Qed.

Lemma findParent_inv t c p :
  findParent t c = Ok p ->
  exists n e, at_ (nodes t) p = Ok n /\ is_leaf n = false /\ e ∈ entries n /\
              child_index e = c.
Proof.
  intros (_ & n & e & H & ?)%findParent_from_inv.
  rewrite N.sub_0_r in H. eauto.
Qed.

Lemma relink_Ok es k nes m :
  mbr nes = Ok m ->
  exists es', relink es k nes = Ok es' /\ Forall2 (relinked k m) es es'.
Proof.
  intros Hm. induction es as [|e es (es' & IH & HF)]; simpl.
  { exists []. by split. }
  destruct (N.eqb_spec (child_index e) k) as [Hk|Hk].
  - rewrite Hm. simpl. eexists. split; [done|]. constructor.
    + by right.
    + apply Forall_Forall2_diag, Forall_forall. by left.
  - rewrite IH. simpl. eexists. split; [done|]. constructor; [by left|done].
Qed.

Lemma relinked_child k m e e' :
  relinked k m e e' -> child_index e' = child_index e.
Proof. by intros [-> | [_ ->]]. Qed.

Lemma relinked_children k m es es' :
  Forall2 (relinked k m) es es' -> child_index <$> es' = child_index <$> es.
Proof.
  induction 1 as [|e e' es es' He _ IH]; [done|]. rewrite !fmap_cons.
  by rewrite IH, (relinked_child _ _ _ _ He).
Qed.

(** *** The relation [grown] *)

Lemma entry_grown_refl r e : entry_grown r e e.
Proof. by left. Qed.

Lemma entry_grown_trans r e1 e2 e3 :
  entry_grown r e1 e2 -> entry_grown r e2 e3 -> entry_grown r e1 e3.
Proof.
  intros [-> | ->] [-> | ->]; [by left|by right|by right|].
  right. unfold set_bounding_box. simpl. by rewrite expand_idem.
Qed.

Lemma entry_grown_child r e e' :
  entry_grown r e e' -> child_index e' = child_index e.
Proof. by intros [-> | ->]. Qed.

Lemma node_grown_refl r n : node_grown r n n.
Proof.
  split; [done|]. split; [done|].
  apply Forall_Forall2_diag, Forall_forall. intros. apply entry_grown_refl.
Qed.

Lemma node_grown_trans r n1 n2 n3 :
  node_grown r n1 n2 -> node_grown r n2 n3 -> node_grown r n1 n3.
Proof.
  intros (Hl1 & He1 & HF1) (Hl2 & He2 & HF2). split; [congruence|]. split.
  - intros Hl. rewrite He2, He1; [done..|]. by rewrite He1.
  - eapply Forall2_trans; [|done..]. apply entry_grown_trans.
Qed.

Lemma grown_refl r t : grown r t t.
Proof.
  split; [done|]. apply Forall_Forall2_diag, Forall_forall.
  intros. apply node_grown_refl.
Qed.

Lemma grown_trans r t1 t2 t3 :
  grown r t1 t2 -> grown r t2 t3 -> grown r t1 t3.
Proof.
  intros [Hr1 HF1] [Hr2 HF2]. split; [congruence|].
  eapply Forall2_trans; [|done..]. apply node_grown_trans.
Qed.

Lemma node_grown_children r n n' :
  node_grown r n n' -> children_of n' = children_of n.
Proof.
  intros (Hl & _ & HF). unfold children_of. rewrite Hl.
  destruct (is_leaf n); [done|].
  induction HF as [|e e' es es' He _ IH]; [done|]. rewrite !fmap_cons.
  by rewrite IH, (entry_grown_child _ _ _ He).
Qed.

Lemma node_grown_leaf_entries r n n' :
  node_grown r n n' -> leaf_entries_of n' = leaf_entries_of n.
Proof.
  intros (Hl & He & _). unfold leaf_entries_of. rewrite Hl.
  destruct (is_leaf n); [|done]. by rewrite He.
Qed.

Lemma grown_length r t t' : grown r t t' -> length (nodes t') = length (nodes t).
Proof. intros [_ HF]. symmetry. by eapply Forall2_length. Qed.

Lemma grown_all_children r t t' :
  grown r t t' -> all_children (nodes t') = all_children (nodes t).
Proof.
  intros [_ HF]. unfold all_children.
  induction HF as [|n n' ns ns' Hn _ IH]; [done|].
  by rewrite !bind_cons, IH, (node_grown_children _ _ _ Hn).
Qed.

Lemma grown_all_leaf_entries r t t' :
  grown r t t' -> all_leaf_entries (nodes t') = all_leaf_entries (nodes t).
Proof.
  intros [_ HF]. unfold all_leaf_entries.
  induction HF as [|n n' ns ns' Hn _ IH]; [done|].
  by rewrite !bind_cons, IH, (node_grown_leaf_entries _ _ _ Hn).
Qed.

Lemma grown_at r t t' i n' :
  grown r t t' -> at_ (nodes t') i = Ok n' ->
  exists n, at_ (nodes t) i = Ok n /\ node_grown r n n'.
Proof.
  intros [_ HF] Hn'%at_Ok.
  destruct (Forall2_lookup_r _ _ _ _ _ HF Hn') as (n & Hn & Hg).
  exists n. split; [by apply at_Ok|done].
Qed.

Lemma grown_at_l r t t' i n :
  grown r t t' -> at_ (nodes t) i = Ok n ->
  exists n', at_ (nodes t') i = Ok n' /\ node_grown r n n'.
Proof.
  intros [_ HF] Hn%at_Ok.
  destruct (Forall2_lookup_l _ _ _ _ _ HF Hn) as (n' & Hn' & Hg).
  exists n'. split; [by apply at_Ok|done].
Qed.

Lemma node_grown_elem r n n' e' :
  node_grown r n n' -> e' ∈ entries n' ->
  exists e, e ∈ entries n /\ entry_grown r e e'.
Proof.
  intros (_ & _ & HF) [j Hj]%list_elem_of_lookup_1.
  destruct (Forall2_lookup_r _ _ _ _ _ HF Hj) as (e & He & Hg).
  exists e. split; [by eapply list_elem_of_lookup_2|done].
Qed.

Lemma grown_shape r lvl t t' : grown r t t' -> shape lvl t -> shape lvl t'.
Proof.
  intros Hg Hs. pose proof Hg as [Hr HF]. split.
  - rewrite Hr, (grown_all_children _ _ _ Hg). unfold handles.
    rewrite (grown_length _ _ _ Hg). apply (shape_links _ _ Hs).
  - intros i n' Hn' Hl. destruct (grown_at _ _ _ _ _ Hg Hn') as (n & Hn & Hl' & _).
    apply (shape_leaf _ _ Hs i n Hn). congruence.
  - intros i n' Hn' Hl.
    destruct (grown_at _ _ _ _ _ Hg Hn') as (n & Hn & Hgn).
    pose proof Hgn as (Hl' & _ & HFe).
    destruct (shape_inner _ _ Hs i n Hn) as [Hne Hlv]; [congruence|]. split.
    + intros Hnil. rewrite Hnil in HFe. apply Forall2_nil_inv_r in HFe. done.
    + intros e' He'. destruct (node_grown_elem _ _ _ _ Hgn He') as (e & He & Hge).
      rewrite (entry_grown_child _ _ _ Hge). by apply Hlv.
  - intros i Hi. rewrite Hr. apply (shape_top _ _ Hs).
    unfold size in *. by rewrite <-(grown_length _ _ _ Hg).
  - rewrite Hr, (grown_length _ _ _ Hg). apply (shape_fuel _ _ Hs).
Qed.

End Descent.

(** ** chooseLeaf *)

Section ChooseLeaf.

Context {DataT : Type}.
Implicit Types (e : Entry DataT) (es : list (Entry DataT)).
Implicit Types (n : Node DataT) (ns : list (Node DataT)).
Implicit Types (t : RTree DataT) (lvl : N -> nat) (r : Rectangle).

Lemma chooseLeaf_S fuel t i r :
  chooseLeaf (S fuel) t i r =
  node ← at_ (nodes t) i;
  if is_leaf node then Ok (t, i)
  else
    let best_index := chooseLeaf_scan r (entries node) 0 0 FLT_MAX in
    e ← at_ (entries node) best_index;
    let e' := set_bounding_box e (expand (bounding_box e) r) in
    let node' :=
      set_entries node (<[N.to_nat best_index := e']> (entries node)) in
    chooseLeaf fuel (set_node t i node') (child_index e) r.
Proof. done. Qed.

(** One step of the descent. *)
Lemma expand_entry_grown r t i node b e :
  at_ (nodes t) i = Ok node -> is_leaf node = false ->
  at_ (entries node) b = Ok e ->
  grown r t
    (set_node t i
       (set_entries node
          (<[N.to_nat b := set_bounding_box e (expand (bounding_box e) r)]>
             (entries node)))).
Proof.
  intros Hn Hl He. split; [done|]. simpl.
  apply at_Ok in Hn. apply at_Ok in He.
  rewrite <-(list_insert_id _ _ _ Hn) at 1.
  apply Forall2_insert.
  { apply Forall_Forall2_diag, Forall_forall. intros. apply node_grown_refl. }
  split; [done|]. split; [congruence|]. simpl.
  rewrite <-(list_insert_id _ _ _ He) at 1.
  apply Forall2_insert; [|by right].
  apply Forall_Forall2_diag, Forall_forall. intros. apply entry_grown_refl.
Qed.

Lemma chooseLeaf_spec lvl r fuel t i :
  shape lvl t -> i < size (nodes t) -> (lvl i < fuel)%nat ->
  exists t1 leaf n,
    chooseLeaf fuel t i r = Ok (t1, leaf) /\ grown r t t1 /\
    at_ (nodes t1) leaf = Ok n /\ is_leaf n = true.
Proof.
  revert t i. induction fuel as [|fuel IH]; intros t i Hs Hi Hf; [lia|].
  rewrite chooseLeaf_S.
  destruct (at_is_Ok _ _ Hi) as [node Hn]. rewrite Hn. simpl.
  destruct (is_leaf node) eqn:Hl.
  { exists t, i, node. split; [done|]. split; [apply grown_refl|done]. }
  destruct (shape_inner _ _ Hs i node Hn Hl) as [Hne Hlv].
  destruct (at_is_Ok _ _ (chooseLeaf_scan_lt r _ Hne)) as [e He].
  rewrite He. simpl.
  pose proof (expand_entry_grown r t i node _ e Hn Hl He) as Hg.
  pose proof (at_elem _ _ _ He) as Hin.
  destruct (IH _ (child_index e) (grown_shape _ _ _ _ Hg Hs)) as
    (t1 & leaf & n & Hc & Hg1 & Hn1 & Hl1).
  - simpl. rewrite size_insert. by eapply shape_child_lt.
  - specialize (Hlv e Hin). lia.
  - exists t1, leaf, n. split; [done|]. split; [|done].
    by eapply grown_trans.
Qed.

Lemma chooseLeaf_contained lvl r fuel t i t1 leaf :
  numeric r = true ->
  shape lvl t -> all_numeric t -> contained t -> pending t i r ->
  chooseLeaf fuel t i r = Ok (t1, leaf) ->
  all_numeric t1 /\ contained t1 /\ pending t1 leaf r.
Proof.
  intros Hr. revert t i.
  induction fuel as [|fuel IH]; intros t i Hs Hnum Hcon Hp; [done|].
  rewrite chooseLeaf_S. intros (node & Hn & H)%bind_Ok.
  destruct (is_leaf node) eqn:Hl; [by injection H as <- <-|].
  simpl in H. apply bind_Ok in H as (e & He & H).
  pose proof (expand_entry_grown r t i node _ e Hn Hl He) as Hg.
  pose proof (at_elem _ _ _ He) as Hin.
  pose proof (at_elem _ _ _ Hn) as Hnin.
  pose proof (at_lt _ _ _ Hn) as Hi.
  assert (numeric (bounding_box e) = true) as Hnume by eauto.
  set (b := chooseLeaf_scan r (entries node) 0 0 FLT_MAX) in *.
  set (e' := set_bounding_box e (expand (bounding_box e) r)) in *.
  set (node' := set_entries node (<[N.to_nat b := e']> (entries node))) in *.
  (* the entries of the node after the step *)
  assert (forall x, x ∈ entries node' ->
            x = e' \/ (x ∈ entries node)) as Hentries.
  { intros x [j Hj]%list_elem_of_lookup_1. simpl in Hj.
    apply list_lookup_insert_Some in Hj as [(_ & <- & _)|[_ Hj]]; [by left|].
    right. by eapply list_elem_of_lookup_2. }
  assert (forall p n, at_ (nodes (set_node t i node')) p = Ok n ->
            (p = i /\ n = node') \/ (p <> i /\ at_ (nodes t) p = Ok n)) as Hat.
  { intros p n Hpn. simpl in Hpn. destruct (decide (p = i)) as [->|Hne].
    - rewrite at_insert_eq in Hpn by done. left. by injection Hpn as <-.
    - rewrite at_insert_ne in Hpn by done. by right. }
  apply (IH _ _ (grown_shape _ _ _ _ Hg Hs)) in H; [done| | |].
  - (* all_numeric *)
    intros n x [p Hpn]%elem_at Hx.
    apply Hat in Hpn as [[-> ->]|[_ Hpn]]; [|by eauto using at_elem].
    apply Hentries in Hx as [->|Hx]; [|by eauto].
    by apply expand_numeric.
  - (* contained *)
    intros p n x c x' Hpn Hnl Hx Hc Hx'.
    assert (forall y, y ∈ entries node -> child_index y <> i) as Hlvl.
    { intros y Hy Heq. pose proof (shape_child_lvl _ _ _ _ _ Hs Hn Hl Hy).
      rewrite Heq in *. lia. }
    apply Hat in Hpn as [[-> ->]|[Hpi Hpn]].
    + assert (child_index x <> i) as Hxi.
      { apply Hentries in Hx as [->|Hx]; [apply (Hlvl e Hin)|by apply Hlvl]. }
      apply Hat in Hc as [[? _]|[_ Hc]]; [done|].
      apply Hentries in Hx as [->|Hx]; [|by eauto].
      eapply covers_trans; [by apply expand_covers_l|]. by eauto.
    + apply Hat in Hc as [[Hci ->]|[_ Hc]]; [|by eauto].
      rewrite <-Hci in Hn.
      apply Hentries in Hx' as [->|Hx']; [|by eauto].
      apply expand_least; by eauto.
  - (* pending *)
    intros p n x Hpn Hnl Hx Hc.
    apply elem_at in Hx as [j Hj].
    apply Hat in Hpn as [[-> ->]|[Hpi Hpn]].
    + simpl in Hj. apply at_Ok, list_lookup_insert_Some in Hj
        as [(_ & <- & _)|[Hjb Hj]].
      { by apply expand_covers_r. }
      apply at_Ok in Hj.
      destruct (shape_unique_ref _ _ _ _ _ _ _ _ _ _ Hs Hn Hl Hj Hn Hl He Hc).
      lia.
    + destruct (shape_unique_ref _ _ _ _ _ _ _ _ _ _ Hs Hpn Hnl Hj Hn Hl He Hc).
      done.
Qed.

End ChooseLeaf.

(** ** splitNode: what it computes *)

Section SplitNode.

Context {DataT : Type}.
Implicit Types (e : Entry DataT) (es g : list (Entry DataT)).
Implicit Types (n node parent : Node DataT) (ns : list (Node DataT)).
Implicit Types (t : RTree DataT) (lvl : N -> nat) (r : Rectangle).

Lemma split_groups_Ok es :
  2 <= size es ->
  exists g1 g2, split_groups es = Ok (g1, g2) /\
    g1 ++ g2 ≡ₚ es /\ g1 <> [] /\ g2 <> [].
Proof.
  intros Hlen. unfold split_groups.
  destruct (pickSeeds es) as [seed1 seed2] eqn:Hp.
  destruct (pickSeeds_ok es seed1 seed2 Hlen Hp) as [H12 H2].
  destruct (at_is_Ok es seed1) as [e1 He1]; [lia|].
  destruct (at_is_Ok es seed2) as [e2 He2]; [lia|].
  rewrite He1, He2. simpl.
  rewrite distribute_spec. eexists _, _. split; [done|].
  destruct (distribute_perm (remaining_from es 0 seed1 seed2) e1 e2 _ _
              (distribute_spec _ _ _ _ _)) as (Hperm & ? & ?).
  split; [|done]. rewrite Hperm.
  apply remaining_from_two; [lia|done|by rewrite N.sub_0_r..].
Qed.

Lemma splitNode_S fuel t k :
  splitNode_stable (S fuel) t k =
  node ← at_ (nodes t) k;
  '(g1, g2) ← split_groups (entries node);
  let new_node := mkNode (is_leaf node) g2 in
  let t1 := set_node t k (set_entries node g1) in
  if k =? root_index t then
    let '(t2, r) := createNode_stable t1 false in
    let t3 := mkRTree (nodes t2) r in
    root ← at_ (nodes t3) r;
    let new_node_index := size (nodes t3) in
    let t4 := mkRTree (nodes t3 ++ [new_node]) r in
    node' ← at_ (nodes t4) k;
    mbr1 ← mbr (entries node');
    sibling ← at_ (nodes t4) new_node_index;
    mbr2 ← mbr (entries sibling);
    let root' :=
      set_entries root
        (entries root ++ [link mbr1 k] ++ [link mbr2 new_node_index]) in
    Ok (set_node t4 r root')
  else
    parent_index ← findParent t1 k;
    parent ← at_ (nodes t1) parent_index;
    node' ← at_ (nodes t1) k;
    es ← relink (entries parent) k (entries node');
    let t2 := set_node t1 parent_index (set_entries parent es) in
    let new_node_index := size (nodes t2) in
    let t3 := mkRTree (nodes t2 ++ [new_node]) (root_index t2) in
    sibling ← at_ (nodes t3) new_node_index;
    mbr_new_node ← mbr (entries sibling);
    parent' ← at_ (nodes t3) parent_index;
    let parent'' :=
      set_entries parent'
        (entries parent' ++ [link mbr_new_node new_node_index]) in
    let t4 := set_node t3 parent_index parent'' in
    if MAX_ENTRIES <? size (entries parent'')
    then splitNode_stable fuel t4 parent_index
    else Ok t4.
Proof.
  cbn [splitNode_stable]. destruct (at_ (nodes t) k) as [node|]; [|done]. simpl.
  unfold split_groups. destruct (pickSeeds (entries node)) as [seed1 seed2].
  destruct (at_ (entries node) seed1); [|done]. simpl.
  destruct (at_ (entries node) seed2); done.
Qed.

Lemma splitNode_root fuel t k node g1 g2 :
  at_ (nodes t) k = Ok node ->
  split_groups (entries node) = Ok (g1, g2) -> g1 <> [] -> g2 <> [] ->
  k = root_index t ->
  exists m1 m2, mbr g1 = Ok m1 /\ mbr g2 = Ok m2 /\
    splitNode_stable (S fuel) t k =
    Ok (mkRTree (arena_root_split (nodes t) k node g1 g2 m1 m2)
                (size (nodes t))).
Proof.
  intros Hn Hg Hg1 Hg2 Hk.
  destruct (mbr_is_Ok g1 Hg1) as [m1 Hm1].
  destruct (mbr_is_Ok g2 Hg2) as [m2 Hm2].
  exists m1, m2. split; [done|]. split; [done|].
  rewrite splitNode_S, Hn. simpl. rewrite Hg. simpl.
  rewrite <-Hk, N.eqb_refl.
  pose proof (at_lt _ _ _ Hn) as Hlt.
  set (ns1 := <[N.to_nat k := set_entries node g1]> (nodes t)).
  assert (size ns1 = size (nodes t)) as Hsz by apply size_insert.
  unfold createNode_stable. cbn [nodes root_index fst snd].
  replace (size (ns1 ++ [mkNode false []]) - 1) with (size ns1)
    by (rewrite size_app, size_cons, size_nil; lia).
  rewrite !at_app_size. simpl.
  rewrite !at_app_l by (rewrite ?size_app, ?size_cons, ?size_nil; lia).
  assert (at_ ns1 k = Ok (set_entries node g1)) as -> by by apply at_insert_eq.
  simpl. rewrite Hm1. simpl. rewrite Hm2. simpl.
  f_equal. unfold set_node, arena_root_split. cbn [nodes root_index]. f_equal.
  fold ns1. rewrite <-(assoc_L (++)). simpl.
  unfold size at 1. rewrite Nat2N.id.
  rewrite insert_app_r_alt, Nat.sub_diag by done. simpl.
  rewrite size_app, size_cons, size_nil, Hsz. done.
  exact Hsz.
Qed.

(** The step of [splitNode] on a node that is not the root. *)
Lemma splitNode_inner_eq fuel t k node g1 g2 p parent es' m2 :
  at_ (nodes t) k = Ok node ->
  split_groups (entries node) = Ok (g1, g2) ->
  k <> root_index t ->
  findParent (set_node t k (set_entries node g1)) k = Ok p -> p <> k ->
  at_ (nodes t) p = Ok parent ->
  relink (entries parent) k g1 = Ok es' -> mbr g2 = Ok m2 ->
  splitNode_stable (S fuel) t k =
  let t4 :=
    mkRTree (arena_inner_split (nodes t) k node g1 g2 p parent es' m2)
            (root_index t) in
  if MAX_ENTRIES <? size (es' ++ [link (DataT:=DataT) m2 (size (nodes t))])
  then splitNode_stable fuel t4 p
  else Ok t4.
Proof.
  intros Hn Hg Hk Hfp Hpk Hp Hrel Hm2.
  rewrite splitNode_S, Hn. simpl. rewrite Hg. simpl.
  destruct (N.eqb_spec k (root_index t)) as [|_]; [done|].
  rewrite Hfp. simpl.
  pose proof (at_lt _ _ _ Hn) as Hlt.
  pose proof (at_lt _ _ _ Hp) as Hplt.
  set (ns1 := <[N.to_nat k := set_entries node g1]> (nodes t)).
  assert (size ns1 = size (nodes t)) as Hsz by apply size_insert.
  assert (at_ ns1 k = Ok (set_entries node g1)) as -> by by apply at_insert_eq.
  assert (at_ ns1 p = Ok parent) as ->.
  { unfold ns1. by rewrite at_insert_ne. }
  simpl. rewrite Hrel. simpl.
  set (ns2 := <[N.to_nat p := set_entries parent es']> ns1).
  assert (size ns2 = size (nodes t)) as Hsz2.
  { unfold ns2. by rewrite size_insert. }
  rewrite at_app_size. simpl. rewrite Hm2. simpl.
  rewrite at_app_l by lia.
  assert (at_ ns2 p = Ok (set_entries parent es')) as ->.
  { apply at_insert_eq. lia. }
  simpl.
  unfold arena_inner_split. fold ns1. rewrite Hsz2.
  assert (set_node
            (mkRTree (ns2 ++ [mkNode (is_leaf node) g2]) (root_index t)) p
            (set_entries (set_entries parent es')
               (es' ++ [link m2 (size (nodes t))])) =
          mkRTree
            (<[N.to_nat p := set_entries parent
                               (es' ++ [link m2 (size (nodes t))])]> ns1 ++
             [mkNode (is_leaf node) g2]) (root_index t)) as ->; [|done].
  unfold set_node. cbn [nodes root_index]. f_equal.
  rewrite insert_app_l by (unfold size in *; lia).
  unfold ns2. by rewrite list_insert_insert_eq.
Qed.

Lemma splitNode_inner fuel t k node g1 g2 p parent :
  at_ (nodes t) k = Ok node ->
  split_groups (entries node) = Ok (g1, g2) -> g1 <> [] -> g2 <> [] ->
  k <> root_index t ->
  findParent (set_node t k (set_entries node g1)) k = Ok p -> p <> k ->
  at_ (nodes t) p = Ok parent ->
  exists m1 m2 es', mbr g1 = Ok m1 /\ mbr g2 = Ok m2 /\
    Forall2 (relinked k m1) (entries parent) es' /\
    splitNode_stable (S fuel) t k =
    let t4 :=
      mkRTree (arena_inner_split (nodes t) k node g1 g2 p parent es' m2)
              (root_index t) in
    if MAX_ENTRIES <? size (es' ++ [link (DataT:=DataT) m2 (size (nodes t))])
    then splitNode_stable fuel t4 p
    else Ok t4.
Proof.
  intros Hn Hg Hg1 Hg2 Hk Hfp Hpk Hp.
  destruct (mbr_is_Ok g1 Hg1) as [m1 Hm1].
  destruct (mbr_is_Ok g2 Hg2) as [m2 Hm2].
  destruct (relink_Ok (entries parent) k g1 m1 Hm1) as (es' & Hrel & HF).
  exists m1, m2, es'. split; [done|]. split; [done|]. split; [done|].
  by apply splitNode_inner_eq.
Qed.

End SplitNode.

(** ** splitNode: the arena after a split *)

Section SplitArena.

Context {DataT : Type}.
Implicit Types (e : Entry DataT) (es g : list (Entry DataT)).
Implicit Types (n node parent : Node DataT) (ns : list (Node DataT)).
Implicit Types (t : RTree DataT) (lvl : N -> nat) (r m : Rectangle).

Lemma relevel_eq lvl i h : relevel lvl i h i = h.
Proof. unfold relevel. by rewrite N.eqb_refl. Qed.

Lemma relevel_ne lvl i h j : j <> i -> relevel lvl i h j = lvl j.
Proof. unfold relevel. by destruct (N.eqb_spec j i). Qed.

Lemma entries_at_Ok ns i n : at_ ns i = Ok n -> entries_at ns i = entries n.
Proof. intros H%at_Ok. unfold entries_at. by rewrite H. Qed.

Lemma at_root_split ns k node g1 g2 m1 m2 i n :
  k < size ns ->
  at_ (arena_root_split ns k node g1 g2 m1 m2) i = Ok n ->
  (i = k /\ n = set_entries node g1) \/
  (i <> k /\ at_ ns i = Ok n) \/
  (i = size ns /\ n = mkNode false [link m1 k; link m2 (size ns + 1)]) \/
  (i = size ns + 1 /\ n = mkNode (is_leaf node) g2).
Proof.
  intros Hk. unfold arena_root_split. rewrite at_Ok. unfold size in *.
  intros [H|[Hlen H]]%lookup_app_Some.
  - apply list_lookup_insert_Some in H as [(? & <- & _)|[? H]].
    + left. split; [lia|done].
    + right. left. split; [lia|]. by apply at_Ok.
  - rewrite length_insert in Hlen, H. right. right.
    destruct (N.to_nat i - length ns)%nat as [|[|j]] eqn:E; simplify_eq/=.
    + left. split; [lia|done].
    + right. split; [lia|done].
Qed.

Lemma at_inner_split ns k node g1 g2 p parent es' m2 i n :
  k < size ns -> p < size ns -> p <> k ->
  at_ (arena_inner_split ns k node g1 g2 p parent es' m2) i = Ok n ->
  (i = p /\ n = set_entries parent (es' ++ [link m2 (size ns)])) \/
  (i = k /\ n = set_entries node g1) \/
  (i <> p /\ i <> k /\ at_ ns i = Ok n) \/
  (i = size ns /\ n = mkNode (is_leaf node) g2).
Proof.
  intros Hk Hp Hpk. unfold arena_inner_split. rewrite at_Ok. unfold size in *.
  intros [H|[Hlen H]]%lookup_app_Some.
  - apply list_lookup_insert_Some in H as [(? & <- & _)|[? H]].
    { left. split; [lia|done]. }
    apply list_lookup_insert_Some in H as [(? & <- & _)|[? H]].
    { right. left. split; [lia|done]. }
    right. right. left. split; [lia|]. split; [lia|]. by apply at_Ok.
  - rewrite !length_insert in Hlen, H. right. right. right.
    destruct (N.to_nat i - length ns)%nat as [|j] eqn:E; simplify_eq/=.
    split; [lia|done].
Qed.

Lemma size_root_split ns k node g1 g2 m1 m2 :
  size (arena_root_split ns k node g1 g2 m1 m2) = size ns + 2.
Proof.
  unfold arena_root_split, size. rewrite length_app, length_insert. simpl. lia.
Qed.

Lemma size_inner_split ns k node g1 g2 p parent es' m2 :
  size (arena_inner_split ns k node g1 g2 p parent es' m2) = size ns + 1.
Proof.
  unfold arena_inner_split, size. rewrite length_app, !length_insert. simpl.
  lia.
Qed.

Lemma handles_root_split ns k node g1 g2 m1 m2 :
  handles (arena_root_split ns k node g1 g2 m1 m2) =
  handles ns ++ [size ns; size ns + 1].
Proof.
  unfold arena_root_split.
  change [mkNode false [link m1 k; link m2 (size ns + 1)];
          mkNode (is_leaf node) g2]
    with ([mkNode false [link m1 k; link m2 (size ns + 1)]] ++
          [mkNode (is_leaf node) g2]).
  rewrite (assoc_L (++)), !handles_app, handles_insert, <-(assoc_L (++)).
  rewrite size_app, size_cons, size_nil, size_insert. done.
Qed.

Lemma handles_inner_split ns k node g1 g2 p parent es' m2 :
  handles (arena_inner_split ns k node g1 g2 p parent es' m2) =
  handles ns ++ [size ns].
Proof.
  unfold arena_inner_split.
  by rewrite handles_app, !handles_insert, !size_insert.
Qed.

(** The arenas after a split, seen through a map into lists. *)
Lemma bind_root_split {X} (f : Node DataT -> list X) ns k node g1 g2 m1 m2 :
  at_ ns k = Ok node ->
  f (set_entries node g1) ++ f (mkNode (is_leaf node) g2) ≡ₚ f node ->
  arena_root_split ns k node g1 g2 m1 m2 ≫= f ≡ₚ
  (ns ≫= f) ++ f (mkNode false [link m1 k; link m2 (size ns + 1)]).
Proof.
  intros Hn%at_Ok Hf. unfold arena_root_split.
  rewrite bind_app, !bind_cons. change ([] ≫= f) with (@nil X).
  rewrite app_nil_r.
  pose proof (bind_insert_exchange f ns _ node (set_entries node g1) Hn) as He.
  apply (Permutation_app_inv_r (f node)).
  set (R := mkNode false [link m1 k; link m2 (size ns + 1)]).
  set (ns1 := <[N.to_nat k := set_entries node g1]> ns) in *.
  transitivity (((ns1 ≫= f) ++ f node) ++ f R ++ f (mkNode (is_leaf node) g2)).
  { solve_Permutation. }
  rewrite He, <-Hf. solve_Permutation.
Qed.

Lemma bind_inner_split {X} (f : Node DataT -> list X)
    ns k node g1 g2 p parent es' m2 extra :
  at_ ns k = Ok node -> at_ ns p = Ok parent -> p <> k ->
  f (set_entries node g1) ++ f (mkNode (is_leaf node) g2) ≡ₚ f node ->
  f (set_entries parent (es' ++ [link m2 (size ns)])) ≡ₚ f parent ++ extra ->
  arena_inner_split ns k node g1 g2 p parent es' m2 ≫= f ≡ₚ
  (ns ≫= f) ++ extra.
Proof.
  intros Hn%at_Ok Hp%at_Ok Hpk Hf Hfp. unfold arena_inner_split.
  rewrite bind_app, bind_cons. change ([] ≫= f) with (@nil X).
  rewrite app_nil_r.
  set (ns1 := <[N.to_nat k := set_entries node g1]> ns).
  assert (ns1 !! N.to_nat p = Some parent) as Hp1.
  { unfold ns1. rewrite list_lookup_insert_ne; [done|lia]. }
  pose proof (bind_insert_exchange f ns _ node (set_entries node g1) Hn) as He.
  pose proof (bind_insert_exchange f ns1 _ parent
                (set_entries parent (es' ++ [link m2 (size ns)])) Hp1) as He1.
  fold ns1 in He.
  set (P' := set_entries parent (es' ++ [link m2 (size ns)])) in *.
  set (ns2 := <[N.to_nat p := P']> ns1) in *.
  apply (Permutation_app_inv_r (f parent ++ f node)).
  transitivity (((ns2 ≫= f) ++ f parent) ++ f node ++
                f (mkNode (is_leaf node) g2)).
  { solve_Permutation. }
  rewrite He1.
  transitivity (((ns1 ≫= f) ++ f node) ++ f P' ++
                f (mkNode (is_leaf node) g2)).
  { solve_Permutation. }
  rewrite He, Hfp, <-Hf. solve_Permutation.
Qed.

End SplitArena.

(** ** splitNode keeps the shape *)

Section SplitShape.

Context {DataT : Type}.
Implicit Types (e : Entry DataT) (es g : list (Entry DataT)).
Implicit Types (n node parent : Node DataT) (ns : list (Node DataT)).
Implicit Types (t : RTree DataT) (lvl : N -> nat) (r m : Rectangle).

Lemma children_split node g1 g2 :
  g1 ++ g2 ≡ₚ entries node ->
  children_of (set_entries node g1) ++ children_of (mkNode (is_leaf node) g2)
  ≡ₚ children_of node.
Proof.
  intros H. unfold children_of. simpl. destruct (is_leaf node); [done|].
  by rewrite <-fmap_app, H.
Qed.

Lemma leaf_entries_split node g1 g2 :
  g1 ++ g2 ≡ₚ entries node ->
  leaf_entries_of (set_entries node g1) ++
  leaf_entries_of (mkNode (is_leaf node) g2) ≡ₚ leaf_entries_of node.
Proof.
  intros H. unfold leaf_entries_of. simpl. by destruct (is_leaf node).
Qed.

Lemma group_l g1 g2 (es : list (Entry DataT)) e :
  g1 ++ g2 ≡ₚ es -> e ∈ g1 -> e ∈ es.
Proof. intros <- ?. apply elem_of_app. by left. Qed.

Lemma group_r g1 g2 (es : list (Entry DataT)) e :
  g1 ++ g2 ≡ₚ es -> e ∈ g2 -> e ∈ es.
Proof. intros <- ?. apply elem_of_app. by right. Qed.

Lemma root_split_shape lvl t k node g1 g2 m1 m2 :
  shape lvl t -> k = root_index t -> at_ (nodes t) k = Ok node ->
  g1 ++ g2 ≡ₚ entries node -> g1 <> [] -> g2 <> [] ->
  shape (relevel (relevel lvl (size (nodes t)) (S (lvl k)))
                 (size (nodes t) + 1) (lvl k))
        (mkRTree (arena_root_split (nodes t) k node g1 g2 m1 m2)
                 (size (nodes t))).
Proof.
  intros Hs Hk Hn Hg Hg1 Hg2.
  pose proof (at_lt _ _ _ Hn) as Hlt.
  set (s := size (nodes t)) in *.
  assert (forall i, i < s ->
            relevel (relevel lvl s (S (lvl k))) (s + 1) (lvl k) i = lvl i)
    as Hold.
  { intros i Hi. rewrite !relevel_ne by lia. done. }
  assert (forall e, e ∈ entries node -> is_leaf node = false ->
            S (relevel (relevel lvl s (S (lvl k))) (s + 1) (lvl k)
                 (child_index e)) = lvl k) as Hsub.
  { intros e He Hl. rewrite Hold by (by eapply shape_child_lt).
    by eapply shape_child_lvl. }
  split; cbn [nodes root_index].
  - rewrite handles_root_split. unfold all_children at 1.
    rewrite (bind_root_split children_of _ _ _ _ _ _ _ Hn
               (children_split _ _ _ Hg)).
    rewrite <-(shape_links _ _ Hs), <-Hk. unfold children_of at 2. simpl.
    fold (all_children (nodes t)). unfold s. solve_Permutation.
  - intros i n Hat Hl.
    apply at_root_split in Hat as
      [[-> ->]|[[Hik Hat]|[[-> ->]|[-> ->]]]]; [..|done]; try done.
    + rewrite Hold by done. by apply (shape_leaf _ _ Hs k node).
    + rewrite Hold by (by eapply at_lt). by apply (shape_leaf _ _ Hs i n).
    + rewrite relevel_eq. by apply (shape_leaf _ _ Hs k node).
  - intros i n Hat Hl.
    apply at_root_split in Hat as
      [[-> ->]|[[Hik Hat]|[[-> ->]|[-> ->]]]]; [..|done]; simpl in *.
    + split; [done|]. intros e He. rewrite (Hold k) by done.
      apply Hsub; [|done]. by eapply group_l.
    + destruct (shape_inner _ _ Hs i n Hat Hl) as [Hne Hlv].
      split; [done|]. intros e He.
      rewrite (Hold i) by (by eapply at_lt).
      rewrite Hold by (by eapply shape_child_lt). by apply Hlv.
    + split; [done|]. intros e He. rewrite (relevel_ne _ _ _ s) by lia.
      rewrite relevel_eq.
      apply elem_of_cons in He as [->|He]; simpl.
      { rewrite Hold by done. done. }
      apply list_elem_of_singleton in He as ->. simpl.
      by rewrite relevel_eq.
    + split; [done|]. intros e He. rewrite relevel_eq.
      apply Hsub; [|done]. by eapply group_r.
  - intros i Hi. rewrite size_root_split in Hi.
    rewrite (relevel_ne _ _ _ s) by lia. rewrite relevel_eq.
    destruct (decide (i = s + 1)) as [->|?]; [rewrite relevel_eq; lia|].
    rewrite relevel_ne by done.
    destruct (decide (i = s)) as [->|?]; [rewrite relevel_eq; lia|].
    rewrite relevel_ne by done.
    assert (i < s) as Hi' by (unfold s in *; lia).
    pose proof (shape_top _ _ Hs i Hi'). rewrite <-Hk in *. lia.
  - rewrite (relevel_ne _ _ _ s) by lia. rewrite relevel_eq.
    pose proof (shape_fuel _ _ Hs). rewrite <-Hk in *.
    pose proof (size_root_split (nodes t) k node g1 g2 m1 m2) as Hsz.
    unfold size in Hsz. lia.
Qed.

Lemma relinked_elem k m es es' e' :
  Forall2 (relinked k m) es es' -> e' ∈ es' ->
  exists e, e ∈ es /\ relinked k m e e'.
Proof.
  intros HF [j Hj]%list_elem_of_lookup_1.
  destruct (Forall2_lookup_r _ _ _ _ _ HF Hj) as (e & He & Hr).
  exists e. split; [by eapply list_elem_of_lookup_2|done].
Qed.

Lemma inner_split_shape lvl t k node g1 g2 p parent es' m1 m2 e0 :
  shape lvl t -> at_ (nodes t) k = Ok node ->
  at_ (nodes t) p = Ok parent -> is_leaf parent = false ->
  e0 ∈ entries parent -> child_index e0 = k ->
  Forall2 (relinked k m1) (entries parent) es' ->
  g1 ++ g2 ≡ₚ entries node -> g1 <> [] -> g2 <> [] ->
  shape (relevel lvl (size (nodes t)) (lvl k))
        (mkRTree (arena_inner_split (nodes t) k node g1 g2 p parent es' m2)
                 (root_index t)).
Proof.
  intros Hs Hn Hp Hpl He0 Hc0 HF Hg Hg1 Hg2.
  pose proof (at_lt _ _ _ Hn) as Hlt.
  pose proof (at_lt _ _ _ Hp) as Hplt.
  pose proof (shape_child_lvl _ _ _ _ _ Hs Hp Hpl He0) as Hlvp.
  rewrite Hc0 in Hlvp.
  assert (p <> k) as Hpk by (intros ->; lia).
  set (s := size (nodes t)) in *.
  assert (forall i, i < s -> relevel lvl s (lvl k) i = lvl i) as Hold.
  { intros i Hi. rewrite !relevel_ne by lia. done. }
  assert (forall e, e ∈ entries node -> is_leaf node = false ->
            S (relevel lvl s (lvl k) (child_index e)) = lvl k) as Hsub.
  { intros e He Hl. rewrite Hold by apply (shape_child_lt _ _ _ _ _ Hs Hn Hl He).
    apply (shape_child_lvl _ _ _ _ _ Hs Hn Hl He). }
  split; cbn [nodes root_index].
  - rewrite handles_inner_split. unfold all_children at 1.
    rewrite (bind_inner_split children_of _ _ _ _ _ _ _ _ _ [s] Hn Hp Hpk
               (children_split _ _ _ Hg)).
    + fold (all_children (nodes t)). rewrite <-(shape_links _ _ Hs). done.
    + unfold children_of. simpl. rewrite Hpl, fmap_app.
      by rewrite (relinked_children _ _ _ _ HF).
  - intros i n Hat Hl.
    apply at_inner_split in Hat as
      [[-> ->]|[[-> ->]|[(? & ? & Hat)|[-> ->]]]]; [..|done|done|done];
      simpl in *.
    + congruence.
    + rewrite Hold by done. by apply (shape_leaf _ _ Hs k node).
    + rewrite Hold by apply (at_lt _ _ _ Hat).
      by apply (shape_leaf _ _ Hs i n).
    + rewrite relevel_eq. by apply (shape_leaf _ _ Hs k node).
  - intros i n Hat Hl.
    apply at_inner_split in Hat as
      [[-> ->]|[[-> ->]|[(? & ? & Hat)|[-> ->]]]]; [..|done|done|done];
      simpl in *.
    + split; [by destruct es'|]. intros e He. rewrite (Hold p) by done.
      apply elem_of_app in He as [He| ->%list_elem_of_singleton].
      * destruct (relinked_elem _ _ _ _ _ HF He) as (e1 & He1 & Hr).
        rewrite (relinked_child _ _ _ _ Hr).
        rewrite Hold by apply (shape_child_lt _ _ _ _ _ Hs Hp Hpl He1).
        apply (shape_child_lvl _ _ _ _ _ Hs Hp Hpl He1).
      * simpl. by rewrite relevel_eq.
    + split; [done|]. intros e He. rewrite (Hold k) by done.
      apply Hsub; [|done]. by eapply group_l.
    + destruct (shape_inner _ _ Hs i n Hat Hl) as [Hne Hlv].
      split; [done|]. intros e He.
      rewrite (Hold i) by apply (at_lt _ _ _ Hat).
      rewrite Hold by apply (shape_child_lt _ _ _ _ _ Hs Hat Hl He).
      by apply Hlv.
    + split; [done|]. intros e He. rewrite relevel_eq.
      apply Hsub; [|done]. by eapply group_r.
  - intros i Hi. rewrite size_inner_split in Hi.
    rewrite (Hold (root_index t)) by (by eapply shape_root_lt).
    destruct (decide (i = s)) as [->|?].
    + rewrite relevel_eq. by apply (shape_top _ _ Hs).
    + rewrite relevel_ne by done. apply (shape_top _ _ Hs).
      unfold s in *. lia.
  - rewrite (Hold (root_index t)) by (by eapply shape_root_lt).
    pose proof (shape_fuel _ _ Hs).
    pose proof (size_inner_split (nodes t) k node g1 g2 p parent es' m2) as Hsz.
    unfold size in Hsz. lia.
Qed.

End SplitShape.

(** ** splitNode keeps the leaf entries and the containment *)

Section SplitBoxes.

Context {DataT : Type}.
Implicit Types (e : Entry DataT) (es g : list (Entry DataT)).
Implicit Types (n node parent : Node DataT) (ns : list (Node DataT)).
Implicit Types (t : RTree DataT) (lvl : N -> nat) (r m : Rectangle).

Lemma root_split_leaf_entries ns k node g1 g2 m1 m2 :
  at_ ns k = Ok node -> g1 ++ g2 ≡ₚ entries node ->
  all_leaf_entries (arena_root_split ns k node g1 g2 m1 m2) ≡ₚ
  all_leaf_entries ns.
Proof.
  intros Hn Hg. unfold all_leaf_entries.
  rewrite (bind_root_split leaf_entries_of _ _ _ _ _ _ _ Hn
             (leaf_entries_split _ _ _ Hg)).
  unfold leaf_entries_of at 2. simpl. by rewrite app_nil_r.
Qed.

Lemma inner_split_leaf_entries ns k node g1 g2 p parent es' m2 :
  at_ ns k = Ok node -> at_ ns p = Ok parent -> p <> k ->
  is_leaf parent = false -> g1 ++ g2 ≡ₚ entries node ->
  all_leaf_entries (arena_inner_split ns k node g1 g2 p parent es' m2) ≡ₚ
  all_leaf_entries ns.
Proof.
  intros Hn Hp Hpk Hl Hg. unfold all_leaf_entries.
  rewrite (bind_inner_split leaf_entries_of _ _ _ _ _ _ _ _ _ [] Hn Hp Hpk
             (leaf_entries_split _ _ _ Hg)).
  - by rewrite app_nil_r.
  - unfold leaf_entries_of. simpl. by rewrite Hl.
Qed.

Lemma group_numeric t k node g :
  all_numeric t -> at_ (nodes t) k = Ok node ->
  (forall e, e ∈ g -> e ∈ entries node) ->
  forall e, e ∈ g -> numeric (bounding_box e) = true.
Proof. intros Hnum Hn Hsub e He. eauto using at_elem. Qed.

Lemma root_split_boxed lvl t k node g1 g2 m1 m2 :
  shape lvl t -> all_numeric t -> contained t ->
  at_ (nodes t) k = Ok node -> g1 ++ g2 ≡ₚ entries node ->
  mbr g1 = Ok m1 -> mbr g2 = Ok m2 ->
  let t' := mkRTree (arena_root_split (nodes t) k node g1 g2 m1 m2)
                    (size (nodes t)) in
  all_numeric t' /\ contained t'.
Proof.
  intros Hs Hnum Hcon Hn Hg Hm1 Hm2 t'.
  pose proof (at_lt _ _ _ Hn) as Hlt.
  destruct (mbr_covers g1 m1 Hm1) as [Hn1 Hc1].
  { apply (group_numeric t k node g1 Hnum Hn). intros. by eapply group_l. }
  destruct (mbr_covers g2 m2 Hm2) as [Hn2 Hc2].
  { apply (group_numeric t k node g2 Hnum Hn). intros. by eapply group_r. }
  (* entries that were in the arena before the split *)
  assert (forall i n e c e',
            at_ (nodes t) i = Ok n -> is_leaf n = false -> e ∈ entries n ->
            at_ (nodes t') (child_index e) = Ok c -> e' ∈ entries c ->
            covers (bounding_box e) (bounding_box e') = true) as Hold.
  { intros i n e c e' Hi Hl He Hc He'.
    pose proof (shape_child_lt _ _ _ _ _ Hs Hi Hl He) as Hclt.
    apply at_root_split in Hc as
      [[Hck ->]|[[_ Hc]|[[? _]|[? _]]]]; [| |lia|lia|done].
    - rewrite <-Hck in Hn. simpl in He'.
      apply (Hcon i n e node e' Hi Hl He Hn). by eapply group_l.
    - apply (Hcon i n e c e' Hi Hl He Hc He'). }
  split.
  - intros n e [i Hi]%elem_at He.
    apply at_root_split in Hi as
      [[-> ->]|[[_ Hi]|[[-> ->]|[-> ->]]]]; [..|done]; simpl in He.
    + eapply Hnum; [by eapply at_elem|]. by eapply group_l.
    + eapply Hnum; [by eapply at_elem|done].
    + apply elem_of_cons in He as [-> | ->%list_elem_of_singleton]; done.
    + eapply Hnum; [by eapply at_elem|]. by eapply group_r.
  - intros i n e c e' Hi Hl He Hc He'.
    apply at_root_split in Hi as
      [[-> ->]|[[_ Hi]|[[-> ->]|[-> ->]]]]; [..|done]; simpl in He, Hl.
    + eapply (Hold k node); [done..| |done|done]. by eapply group_l.
    + by eapply (Hold i n).
    + apply elem_of_cons in He as [-> | ->%list_elem_of_singleton];
        simpl in Hc.
      * apply at_root_split in Hc as
          [[_ ->]|[[? _]|[[? _]|[? _]]]]; [|done|lia|lia|done].
        by apply Hc1.
      * apply at_root_split in Hc as
          [[? _]|[[_ Hc]|[[? _]|[_ ->]]]]; [lia| |lia| |done].
        { apply at_lt in Hc. lia. }
        by apply Hc2.
    + eapply (Hold k node); [done..| |done|done]. by eapply group_r.
Qed.

Lemma inner_split_boxed lvl t k node g1 g2 p parent es' m1 m2 e0 :
  shape lvl t -> all_numeric t -> contained t ->
  at_ (nodes t) k = Ok node -> at_ (nodes t) p = Ok parent -> p <> k ->
  is_leaf parent = false -> e0 ∈ entries parent -> child_index e0 = k ->
  Forall2 (relinked k m1) (entries parent) es' ->
  g1 ++ g2 ≡ₚ entries node -> mbr g1 = Ok m1 -> mbr g2 = Ok m2 ->
  let t' := mkRTree (arena_inner_split (nodes t) k node g1 g2 p parent es' m2)
                    (root_index t) in
  all_numeric t' /\ contained t'.
Proof.
  intros Hs Hnum Hcon Hn Hp Hpk Hpl He0 Hc0 HF Hg Hm1 Hm2 t'.
  pose proof (at_lt _ _ _ Hn) as Hlt.
  pose proof (at_lt _ _ _ Hp) as Hplt.
  destruct (mbr_covers g1 m1 Hm1) as [Hn1 Hc1].
  { apply (group_numeric t k node g1 Hnum Hn). intros. by eapply group_l. }
  destruct (mbr_covers g2 m2 Hm2) as [Hn2 Hc2].
  { apply (group_numeric t k node g2 Hnum Hn). intros. by eapply group_r. }
  (* what contains the entry that refers to [k] contains both groups *)
  assert (forall b x, covers b (bounding_box e0) = true ->
            x ∈ entries node ->
            covers b (bounding_box x) = true) as Hdeep.
  { intros b x Hb Hx. eapply covers_trans; [done|].
    rewrite <-Hc0 in Hn. apply (Hcon p parent e0 node x Hp Hpl He0 Hn Hx). }
  (* entries that were in the arena before the split *)
  assert (forall i n e c e',
            at_ (nodes t) i = Ok n -> is_leaf n = false -> e ∈ entries n ->
            at_ (nodes t') (child_index e) = Ok c -> e' ∈ entries c ->
            covers (bounding_box e) (bounding_box e') = true) as Hold.
  { intros i n e c e' Hi Hl He Hc He'.
    pose proof (shape_child_lt _ _ _ _ _ Hs Hi Hl He) as Hclt.
    apply at_inner_split in Hc as
      [[Hcp ->]|[[Hck ->]|[(_ & _ & Hc)|[? _]]]]; [| | |lia|done..].
    - rewrite <-Hcp in Hp. simpl in He'.
      assert (covers (bounding_box e) (bounding_box e0) = true) as Hee0
        by apply (Hcon i n e parent e0 Hi Hl He Hp He0).
      apply elem_of_app in He' as [He'| ->%list_elem_of_singleton].
      + destruct (relinked_elem _ _ _ _ _ HF He') as (e1 & He1 & [-> | [_ ->]]).
        { apply (Hcon i n e parent e1 Hi Hl He Hp He1). }
        simpl. eapply mbr_least; [done|]. intros x Hx.
        apply Hdeep; [done|]. by eapply group_l.
      + simpl. eapply mbr_least; [done|]. intros x Hx.
        apply Hdeep; [done|]. by eapply group_r.
    - rewrite <-Hck in Hn. simpl in He'.
      apply (Hcon i n e node e' Hi Hl He Hn). by eapply group_l.
    - apply (Hcon i n e c e' Hi Hl He Hc He'). }
  split.
  - intros n e [i Hi]%elem_at He.
    apply at_inner_split in Hi as
      [[-> ->]|[[-> ->]|[(_ & _ & Hi)|[-> ->]]]]; [..|done|done|done];
      simpl in He.
    + apply elem_of_app in He as [He| ->%list_elem_of_singleton]; [|done].
      destruct (relinked_elem _ _ _ _ _ HF He) as (e1 & He1 & [-> | [_ ->]]);
        [|done].
      apply (Hnum parent _ (at_elem _ _ _ Hp) He1).
    + apply (Hnum node _ (at_elem _ _ _ Hn)). by eapply group_l.
    + apply (Hnum n _ (at_elem _ _ _ Hi) He).
    + apply (Hnum node _ (at_elem _ _ _ Hn)). by eapply group_r.
  - intros i n e c e' Hi Hl He Hc He'.
    apply at_inner_split in Hi as
      [[-> ->]|[[-> ->]|[(_ & _ & Hi)|[-> ->]]]]; [..|done|done|done];
      simpl in He, Hl.
    + apply elem_of_app in He as [He| ->%list_elem_of_singleton].
      * destruct (relinked_elem _ _ _ _ _ HF He) as (e1 & He1 & [-> | [Hk1 ->]]).
        { by eapply (Hold p parent). }
        simpl in Hc. rewrite Hk1 in Hc. simpl.
        apply at_inner_split in Hc as
          [[? _]|[[_ ->]|[(_ & ? & _)|[? _]]]]; [done| |done|lia|done..].
        by apply Hc1.
      * simpl in Hc.
        apply at_inner_split in Hc as
          [[? _]|[[? _]|[(_ & _ & Hc)|[_ ->]]]]; [lia|lia| | |done..].
        { apply at_lt in Hc. lia. }
        by apply Hc2.
    + eapply (Hold k node); [done..| |done|done]. by eapply group_l.
    + by eapply (Hold i n).
    + eapply (Hold k node); [done..| |done|done]. by eapply group_r.
Qed.

(** *** The references that a split leaves alone *)

Lemma elem_links ns c b :
  (c, b) ∈ links ns <->
  exists i n e, at_ ns i = Ok n /\ is_leaf n = false /\ e ∈ entries n /\
                child_index e = c /\ bounding_box e = b.
Proof.
  unfold links. rewrite list_elem_of_bind. split.
  - intros (n & Hcb & [i Hi]%elem_at). unfold links_of in Hcb.
    destruct (is_leaf n) eqn:Hl; [by apply elem_of_nil in Hcb|].
    apply list_elem_of_fmap in Hcb as (e & [= -> ->] & He).
    by exists i, n, e.
  - intros (i & n & e & Hi & Hl & He & <- & <-). exists n. split.
    + unfold links_of. rewrite Hl.
      by apply (list_elem_of_fmap_2 (fun e => (child_index e, bounding_box e))).
    + by eapply at_elem.
Qed.

Lemma at_inner_split_parent ns k node g1 g2 p parent es' m2 :
  p < size ns ->
  at_ (arena_inner_split ns k node g1 g2 p parent es' m2) p =
  Ok (set_entries parent (es' ++ [link m2 (size ns)])).
Proof.
  intros Hp. unfold arena_inner_split.
  rewrite at_app_l by (by rewrite !size_insert).
  apply at_insert_eq. by rewrite size_insert.
Qed.

Lemma at_inner_split_node ns k node g1 g2 p parent es' m2 :
  k < size ns -> p <> k ->
  at_ (arena_inner_split ns k node g1 g2 p parent es' m2) k =
  Ok (set_entries node g1).
Proof.
  intros Hk Hpk. unfold arena_inner_split.
  rewrite at_app_l by (by rewrite !size_insert).
  rewrite at_insert_ne by done. by apply at_insert_eq.
Qed.

Lemma at_inner_split_other ns k node g1 g2 p parent es' m2 i n :
  i <> k -> i <> p -> at_ ns i = Ok n ->
  at_ (arena_inner_split ns k node g1 g2 p parent es' m2) i = Ok n.
Proof.
  intros Hik Hip Hi. unfold arena_inner_split.
  rewrite at_app_l by (rewrite !size_insert; by eapply at_lt).
  by rewrite !at_insert_ne.
Qed.

Lemma at_inner_split_new ns k node g1 g2 p parent es' m2 :
  at_ (arena_inner_split ns k node g1 g2 p parent es' m2) (size ns) =
  Ok (mkNode (is_leaf node) g2).
Proof.
  unfold arena_inner_split.
  set (ns2 := <[N.to_nat p := set_entries parent (es' ++ [link m2 (size ns)])]>
                (<[N.to_nat k := set_entries node g1]> ns)).
  assert (size ns = size ns2) as -> by (unfold ns2; by rewrite !size_insert).
  apply at_app_size.
Qed.

Lemma links_split node g1 g2 :
  g1 ++ g2 ≡ₚ entries node ->
  links_of (set_entries node g1) ++ links_of (mkNode (is_leaf node) g2) ≡ₚ
  links_of node.
Proof.
  intros H. unfold links_of. simpl. destruct (is_leaf node); [done|].
  by rewrite <-fmap_app, H.
Qed.

Lemma root_split_links ns k node g1 g2 m1 m2 c b :
  at_ ns k = Ok node -> g1 ++ g2 ≡ₚ entries node ->
  (c, b) ∈ links ns ->
  (c, b) ∈ links (arena_root_split ns k node g1 g2 m1 m2).
Proof.
  intros Hn Hg Hcb. unfold links.
  rewrite (bind_root_split links_of _ _ _ _ _ _ _ Hn (links_split _ _ _ Hg)).
  apply elem_of_app. by left.
Qed.

Lemma inner_split_links ns k node g1 g2 p parent es' m1 m2 c b :
  at_ ns k = Ok node -> at_ ns p = Ok parent -> p <> k ->
  Forall2 (relinked k m1) (entries parent) es' ->
  g1 ++ g2 ≡ₚ entries node ->
  (c, b) ∈ links ns -> c <> k ->
  (c, b) ∈ links (arena_inner_split ns k node g1 g2 p parent es' m2).
Proof.
  intros Hn Hp Hpk HF Hg (i & n & e & Hi & Hl & He & Hc & Hb)%elem_links Hck.
  pose proof (at_lt _ _ _ Hn) as Hlt.
  pose proof (at_lt _ _ _ Hp) as Hplt.
  apply elem_links. destruct (decide (i = k)) as [->|Hik].
  - assert (n = node) as -> by congruence.
    rewrite <-Hg in He. apply elem_of_app in He as [He|He].
    + exists k, (set_entries node g1), e.
      split; [by apply at_inner_split_node|done].
    + exists (size ns), (mkNode (is_leaf node) g2), e.
      split; [by apply at_inner_split_new|done].
  - destruct (decide (i = p)) as [->|Hip].
    + assert (n = parent) as -> by congruence.
      apply list_elem_of_lookup_1 in He as [j Hj].
      destruct (Forall2_lookup_l _ _ _ _ _ HF Hj) as (e' & Hj' & [->|[Hk _]]);
        [|congruence].
      exists p, (set_entries parent (es' ++ [link m2 (size ns)])), e.
      split; [by apply at_inner_split_parent|]. split; [done|].
      split; [|done]. simpl. apply elem_of_app. left.
      by eapply list_elem_of_lookup_2.
    + exists i, n, e. split; [by apply at_inner_split_other|done].
Qed.

End SplitBoxes.

(** ** splitNode: the whole recursion *)

Section SplitSpec.

Context {DataT : Type}.
Implicit Types (e : Entry DataT) (es g : list (Entry DataT)).
Implicit Types (n node parent : Node DataT) (ns : list (Node DataT)).
Implicit Types (t : RTree DataT) (lvl : N -> nat) (r m : Rectangle).

(** The parent that [findParent] returns for a node that is not the root,
    once the node holds its first group only. *)
Lemma findParent_split lvl t k node g1 g2 :
  shape lvl t -> at_ (nodes t) k = Ok node -> k <> root_index t ->
  g1 ++ g2 ≡ₚ entries node ->
  exists p parent e0,
    findParent (set_node t k (set_entries node g1)) k = Ok p /\ p <> k /\
    at_ (nodes t) p = Ok parent /\ is_leaf parent = false /\
    e0 ∈ entries parent /\ child_index e0 = k.
Proof.
  intros Hs Hn Hk Hg.
  pose proof (at_lt _ _ _ Hn) as Hlt.
  assert (forall e, e ∈ entries node -> is_leaf node = false ->
            child_index e <> k) as Hnot.
  { intros e He Hl Heq.
    pose proof (shape_child_lvl _ _ _ _ _ Hs Hn Hl He) as H.
    rewrite Heq in H. lia. }
  destruct (all_children_inv _ _ (shape_has_parent _ _ _ Hs Hlt Hk))
    as (p0 & parent0 & e0 & Hp0 & Hl0 & He0 & Hc0).
  assert (p0 <> k) as Hp0k.
  { intros ->. assert (parent0 = node) as -> by congruence. by eapply Hnot. }
  destruct (findParent_from_Ok
              (nodes (set_node t k (set_entries node g1))) 0 k) as [p Hfp].
  { pose proof (all_children_elem
                  (nodes (set_node t k (set_entries node g1))) p0 parent0 e0)
      as H.
    rewrite Hc0 in H. apply H; [|done..]. simpl. by rewrite at_insert_ne. }
  destruct (findParent_inv _ _ _ Hfp) as (parent & e & Hp & Hl & He & Hc).
  simpl in Hp.
  assert (p <> k) as Hpk.
  { intros ->. rewrite at_insert_eq in Hp by done. injection Hp as <-.
    simpl in *. eapply Hnot; [|done..]. by eapply group_l. }
  rewrite at_insert_ne in Hp by done.
  by exists p, parent, e.
Qed.

Lemma findParent_shape lvl t c p n e :
  shape lvl t -> at_ (nodes t) p = Ok n -> is_leaf n = false ->
  e ∈ entries n -> child_index e = c -> findParent t c = Ok p.
Proof.
  intros Hs Hp Hl He Hc.
  destruct (findParent_from_Ok (nodes t) 0 c) as [p' Hfp].
  { rewrite <-Hc. by eapply all_children_elem. }
  destruct (findParent_inv _ _ _ Hfp) as (n' & e' & Hp' & Hl' & He' & Hc').
  apply list_elem_of_lookup_1 in He as [j Hj].
  apply list_elem_of_lookup_1 in He' as [j' Hj'].
  destruct (shape_unique_ref lvl t p n (N.of_nat j) e p' n' (N.of_nat j') e')
    as [-> _]; try done; [by apply at_Ok; rewrite Nat2N.id..|congruence].
Qed.

(** The chain of the nodes to split is read off the parents and the numbers
    of entries of the nodes of the chain. *)
Lemma split_chain_ext (P : N -> Prop) fuel t t' x :
  root_index t' = root_index t ->
  (forall c, P c -> c <> root_index t ->
     exists p, findParent t c = Ok p /\ findParent t' c = Ok p /\ P p /\
               size (entries_at (nodes t') p) = size (entries_at (nodes t) p)) ->
  P x -> split_chain fuel t' x = split_chain fuel t x.
Proof.
  intros Hr Hstep. revert x.
  induction fuel as [|fuel IH]; intros x Hx; [done|].
  simpl. rewrite Hr. destruct (x =? root_index t) eqn:E; [done|].
  apply N.eqb_neq in E.
  destruct (Hstep x Hx E) as (p & -> & -> & Hp & ->).
  destruct (MAX_ENTRIES <=? size (entries_at (nodes t) p)); [|done].
  by rewrite IH.
Qed.

Lemma inner_split_chain fuel lvl t k node g1 g2 p parent es' m1 m2 e0 :
  shape lvl t -> at_ (nodes t) k = Ok node ->
  at_ (nodes t) p = Ok parent -> is_leaf parent = false ->
  e0 ∈ entries parent -> child_index e0 = k ->
  Forall2 (relinked k m1) (entries parent) es' ->
  g1 ++ g2 ≡ₚ entries node -> g1 <> [] -> g2 <> [] ->
  split_chain fuel
    (mkRTree (arena_inner_split (nodes t) k node g1 g2 p parent es' m2)
             (root_index t)) p =
  split_chain fuel t p.
Proof.
  intros Hs Hn Hp Hpl He0 Hc0 HF Hg Hg1 Hg2.
  pose proof (inner_split_shape lvl t k node g1 g2 p parent es' m1 m2 e0
                Hs Hn Hp Hpl He0 Hc0 HF Hg Hg1 Hg2) as Hs'.
  pose proof (shape_child_lvl _ _ _ _ _ Hs Hp Hpl He0) as Hlv.
  rewrite Hc0 in Hlv.
  set (t4 := mkRTree (arena_inner_split (nodes t) k node g1 g2 p parent es' m2)
                     (root_index t)) in *.
  apply (split_chain_ext
           (fun c => (lvl p <= lvl c)%nat /\ c < size (nodes t)));
    [done| |split; [lia|by eapply at_lt]].
  intros c [Hc Hlt] Hcr.
  destruct (all_children_inv _ _ (shape_has_parent _ _ _ Hs Hlt Hcr))
    as (q & nq & e & Hq & Hql & He & Hce).
  pose proof (shape_child_lvl _ _ _ _ _ Hs Hq Hql He) as Hlq.
  rewrite Hce in Hlq.
  assert (at_ (nodes t4) q = Ok nq) as Hq4.
  { apply at_inner_split_other; [intros ->; lia..|done]. }
  exists q. split; [by eapply findParent_shape|].
  split; [by eapply findParent_shape|].
  split; [split; [lia|by eapply at_lt]|].
  by rewrite (entries_at_Ok _ _ _ Hq4), (entries_at_Ok _ _ _ Hq).
Qed.

Lemma splitNode_spec fuel lvl t k node :
  shape lvl t -> at_ (nodes t) k = Ok node -> 2 <= size (entries node) ->
  (lvl (root_index t) - lvl k < fuel)%nat ->
  exists t',
    splitNode_stable fuel t k = Ok t' /\
    (exists lvl', shape lvl' t') /\
    all_leaf_entries (nodes t') ≡ₚ all_leaf_entries (nodes t) /\
    (all_numeric t -> contained t -> all_numeric t' /\ contained t') /\
    (length (nodes t) < length (nodes t'))%nat /\
    exists split : list N,
      (length split + length (nodes t) <= length (nodes t'))%nat /\
      split = split_chain fuel t k /\
      forall c b, (c, b) ∈ links (nodes t) -> c ∉ split ->
                  (c, b) ∈ links (nodes t').
Proof.
  revert lvl t k node.
  induction fuel as [|fuel IH]; intros lvl t k node Hs Hn Hsz Hf; [lia|].
  destruct (split_groups_Ok _ Hsz) as (g1 & g2 & Hgr & Hg & Hg1 & Hg2).
  destruct (decide (k = root_index t)) as [Hk|Hk].
  - destruct (splitNode_root fuel t k node g1 g2 Hn Hgr Hg1 Hg2 Hk)
      as (m1 & m2 & Hm1 & Hm2 & ->).
    pose proof (size_root_split (nodes t) k node g1 g2 m1 m2) as H.
    unfold size in H.
    eexists. split; [done|]. split; [|split; [|split; [|split]]].
    + eexists. by apply root_split_shape.
    + by apply root_split_leaf_entries.
    + intros Hnum Hcon. by eapply root_split_boxed.
    + cbn [nodes]. lia.
    + exists [k]. cbn [nodes]. split; [simpl; lia|]. split.
      * simpl. by rewrite Hk, N.eqb_refl.
      * intros c b Hcb _. by apply root_split_links.
  - destruct (findParent_split lvl t k node g1 g2 Hs Hn Hk Hg)
      as (p & parent & e0 & Hfp & Hpk & Hp & Hpl & He0 & Hc0).
    destruct (splitNode_inner fuel t k node g1 g2 p parent
                Hn Hgr Hg1 Hg2 Hk Hfp Hpk Hp)
      as (m1 & m2 & es' & Hm1 & Hm2 & HF & ->).
    pose proof (inner_split_shape lvl t k node g1 g2 p parent es' m1 m2 e0
                  Hs Hn Hp Hpl He0 Hc0 HF Hg Hg1 Hg2) as Hs'.
    pose proof (inner_split_leaf_entries (nodes t) k node g1 g2 p parent es' m2
                  Hn Hp Hpk Hpl Hg) as Hle.
    pose proof (fun Hnum Hcon =>
                  inner_split_boxed lvl t k node g1 g2 p parent es' m1 m2 e0
                    Hs Hnum Hcon Hn Hp Hpk Hpl He0 Hc0 HF Hg Hm1 Hm2) as Hbx.
    pose proof (fun c b =>
                  inner_split_links (nodes t) k node g1 g2 p parent es' m1 m2
                    c b Hn Hp Hpk HF Hg) as Hlk.
    pose proof (size_inner_split (nodes t) k node g1 g2 p parent es' m2) as Hsz'.
    pose proof (at_lt _ _ _ Hp) as Hplt.
    pose proof (findParent_shape _ _ _ _ _ _ Hs Hp Hpl He0 Hc0) as Hfpt.
    pose proof (inner_split_chain fuel lvl t k node g1 g2 p parent es' m1 m2 e0
                  Hs Hn Hp Hpl He0 Hc0 HF Hg Hg1 Hg2) as Hch.
    cbv zeta in *.
    set (t4 := mkRTree (arena_inner_split (nodes t) k node g1 g2 p parent es' m2)
                       (root_index t)) in *.
    destruct (MAX_ENTRIES <? size (es' ++ [link m2 (size (nodes t))]))
      eqn:Hover.
    + apply N.ltb_lt in Hover.
      destruct (IH (relevel lvl (size (nodes t)) (lvl k)) t4 p
                  (set_entries parent (es' ++ [link m2 (size (nodes t))])))
        as (t' & Hsp & Hsh & Hle' & Hbx' & Hlen & split & Hsl & Hfull & Hkeep);
        [done| | | |].
      * by apply at_inner_split_parent.
      * simpl. unfold MAX_ENTRIES in Hover. lia.
      * cbn [root_index t4].
        rewrite !relevel_ne
          by (pose proof (shape_root_lt _ _ Hs); lia).
        pose proof (shape_child_lvl _ _ _ _ _ Hs Hp Hpl He0) as H1.
        pose proof (shape_top _ _ Hs p Hplt) as H2.
        rewrite Hc0 in H1. lia.
      * exists t'. split; [done|]. split; [done|].
        split; [|split; [|split]].
        -- by rewrite Hle'.
        -- intros Hnum Hcon. destruct (Hbx Hnum Hcon). by apply Hbx'.
        -- unfold size in Hsz'. cbn [nodes t4] in Hlen. lia.
        -- exists (k :: split). cbn [nodes t4] in Hsl, Hkeep, Hfull.
           pose proof (shape_child_lvl _ _ _ _ _ Hs Hp Hpl He0) as H1.
           rewrite Hc0 in H1.
           split; [unfold size in Hsz'; simpl; lia|]. split.
           ++ simpl. rewrite (proj2 (N.eqb_neq _ _) Hk), Hfpt.
              rewrite (entries_at_Ok _ _ _ Hp), Hfull, Hch.
              rewrite size_app, size_cons, size_nil in Hover.
              unfold size in Hover |- *.
              rewrite <-(Forall2_length _ _ _ HF) in Hover.
              by rewrite (proj2 (N.leb_le _ _)) by (unfold MAX_ENTRIES in *; lia).
           ++ intros c b Hcb [Hck Hcs]%not_elem_of_cons.
              apply Hkeep; [|done]. by apply Hlk.
    + exists t4. split; [done|]. split; [by eexists|]. split; [done|].
      split; [done|]. unfold size in Hsz'. cbn [nodes t4].
      split; [lia|]. exists [k]. split; [simpl; lia|]. split.
      * simpl. rewrite (proj2 (N.eqb_neq _ _) Hk), Hfpt.
        rewrite (entries_at_Ok _ _ _ Hp).
        apply N.ltb_ge in Hover.
        rewrite size_app, size_cons, size_nil in Hover.
        unfold size in Hover |- *.
        rewrite <-(Forall2_length _ _ _ HF) in Hover.
        by rewrite (proj2 (N.leb_gt _ _)) by (unfold MAX_ENTRIES in *; lia).
      * intros c b Hcb Hck%not_elem_of_cons. apply Hlk; tauto.
Qed.

End SplitSpec.

(** ** insert *)

Section Insert.

Context {DataT : Type}.
Implicit Types (e : Entry DataT) (es g : list (Entry DataT)).
Implicit Types (n node parent : Node DataT) (ns : list (Node DataT)).
Implicit Types (t : RTree DataT) (lvl : N -> nat) (r m : Rectangle).
Implicit Types (ops : list (Rectangle * DataT)) (d : DataT).

Lemma at_set_node t i n j n' :
  at_ (nodes (set_node t i n)) j = Ok n' ->
  (j = i /\ n' = n) \/ (j <> i /\ at_ (nodes t) j = Ok n').
Proof.
  simpl. rewrite at_Ok. intros [(? & <- & _)|[? H]]%list_lookup_insert_Some.
  - left. split; [lia|done].
  - right. split; [lia|]. by apply at_Ok.
Qed.

Lemma append_leaf_shape lvl t leaf n e :
  shape lvl t -> at_ (nodes t) leaf = Ok n -> is_leaf n = true ->
  shape lvl (set_node t leaf (set_entries n (entries n ++ [e]))).
Proof.
  intros Hs Hn Hl. split; cbn [nodes root_index set_node].
  - rewrite handles_insert. unfold all_children.
    rewrite bind_insert_perm; [apply (shape_links _ _ Hs)|by apply at_Ok|].
    unfold children_of. simpl. by rewrite Hl.
  - intros i n' [[-> ->]|[_ Hi]]%at_set_node Hl'.
    + by apply (shape_leaf _ _ Hs leaf n).
    + by apply (shape_leaf _ _ Hs i n').
  - intros i n' [[-> ->]|[_ Hi]]%at_set_node Hl'.
    + simpl in Hl'. congruence.
    + by apply (shape_inner _ _ Hs i n').
  - intros i Hi. rewrite size_insert in Hi. by apply (shape_top _ _ Hs).
  - rewrite length_insert. apply (shape_fuel _ _ Hs).
Qed.

Lemma append_leaf_entries t leaf n e :
  at_ (nodes t) leaf = Ok n -> is_leaf n = true ->
  all_leaf_entries
    (nodes (set_node t leaf (set_entries n (entries n ++ [e])))) ≡ₚ
  all_leaf_entries (nodes t) ++ [e].
Proof.
  intros Hn%at_Ok Hl. unfold all_leaf_entries. simpl.
  apply (Permutation_app_inv_r (leaf_entries_of n)).
  rewrite (bind_insert_exchange leaf_entries_of _ _ _ _ Hn).
  unfold leaf_entries_of. simpl. rewrite Hl. solve_Permutation.
Qed.

Lemma append_leaf_boxed t leaf n r d :
  numeric r = true -> all_numeric t -> contained t -> pending t leaf r ->
  at_ (nodes t) leaf = Ok n -> is_leaf n = true ->
  let t' := set_node t leaf
              (set_entries n (entries n ++ [Entry_new r (Some d)])) in
  all_numeric t' /\ contained t'.
Proof.
  intros Hr Hnum Hcon Hpen Hn Hl t'. split.
  - intros n' e [i Hi]%elem_at He.
    apply at_set_node in Hi as [[-> ->]|[_ Hi]].
    + simpl in He. apply elem_of_app in He as [He| ->%list_elem_of_singleton].
      * apply (Hnum n e (at_elem _ _ _ Hn) He).
      * done.
    + apply (Hnum n' e (at_elem _ _ _ Hi) He).
  - intros i n' e c e' Hi Hl' He Hc He'.
    apply at_set_node in Hi as [[-> ->]|[_ Hi]].
    { simpl in Hl'. congruence. }
    apply at_set_node in Hc as [[Hcl ->]|[_ Hc]].
    + simpl in He'.
      apply elem_of_app in He' as [He'| ->%list_elem_of_singleton].
      * rewrite <-Hcl in Hn. apply (Hcon i n' e n e' Hi Hl' He Hn He').
      * simpl. apply (Hpen i n' e Hi Hl' He Hcl).
    + apply (Hcon i n' e c e' Hi Hl' He Hc He').
Qed.

Lemma root_pending lvl t r : shape lvl t -> pending t (root_index t) r.
Proof.
  intros Hs p n e Hp Hl He Hc. exfalso.
  apply (shape_root_orphan _ _ Hs). rewrite <-Hc.
  by eapply all_children_elem.
Qed.

Lemma grown_links r t t1 c b :
  grown r t t1 -> (c, b) ∈ links (nodes t) ->
  exists b', (c, b') ∈ links (nodes t1) /\ (b' = b \/ b' = expand b r).
Proof.
  intros Hg (i & n & e & Hi & Hl & He & <- & <-)%elem_links.
  destruct (grown_at_l _ _ _ _ _ Hg Hi) as (n1 & Hn1 & Hl1 & _ & HF).
  apply list_elem_of_lookup_1 in He as [j Hj].
  destruct (Forall2_lookup_l _ _ _ _ _ HF Hj) as (e1 & Hj1 & Hge).
  exists (bounding_box e1). split.
  - apply elem_links. exists i, n1, e1. split; [done|].
    split; [congruence|]. split; [by eapply list_elem_of_lookup_2|].
    split; [by apply (entry_grown_child r)|done].
  - destruct Hge as [->| ->]; [by left|by right].
Qed.

Lemma append_leaf_links t leaf n e c b :
  at_ (nodes t) leaf = Ok n -> is_leaf n = true ->
  (c, b) ∈ links (nodes t) ->
  (c, b) ∈
    links (nodes (set_node t leaf (set_entries n (entries n ++ [e])))).
Proof.
  intros Hn%at_Ok Hl Hcb. unfold links. simpl.
  rewrite bind_insert_perm; [done..|]. unfold links_of. simpl. by rewrite Hl.
Qed.

Lemma insert_spec lvl t r d :
  shape lvl t ->
  exists t1 leaf n t',
    chooseLeaf (length (nodes t)) t (root_index t) r = Ok (t1, leaf) /\
    grown r t t1 /\ at_ (nodes t1) leaf = Ok n /\ is_leaf n = true /\
    insert_stable t r d = Ok t' /\
    (exists lvl', shape lvl' t') /\
    all_leaf_entries (nodes t') ≡ₚ
      all_leaf_entries (nodes t) ++ [Entry_new r (Some d)] /\
    (numeric r = true -> all_numeric t -> contained t ->
     all_numeric t' /\ contained t') /\
    (t' = set_node t1 leaf
            (set_entries n (entries n ++ [Entry_new r (Some d)])) \/
     (length (nodes t) < length (nodes t'))%nat) /\
    exists split : list N,
      (length split + length (nodes t) <= length (nodes t'))%nat /\
      split = insert_splits t r /\
      forall c b, (c, b) ∈ links (nodes t) -> c ∉ split ->
        exists b', (c, b') ∈ links (nodes t') /\
                   (b' = b \/ b' = expand b r).
Proof.
  intros Hs.
  destruct (chooseLeaf_spec lvl r (length (nodes t)) t (root_index t) Hs)
    as (t1 & leaf & n & Hcl & Hg & Hn & Hl).
  { by eapply shape_root_lt. }
  { apply (shape_fuel _ _ Hs). }
  exists t1, leaf, n.
  pose proof (grown_shape _ _ _ _ Hg Hs) as Hs1.
  set (e := Entry_new r (Some d)).
  set (t2 := set_node t1 leaf (set_entries n (entries n ++ [e]))).
  pose proof (append_leaf_shape lvl t1 leaf n e Hs1 Hn Hl) as Hs2. fold t2 in Hs2.
  pose proof (append_leaf_entries t1 leaf n e Hn Hl) as Hle. fold t2 in Hle.
  rewrite (grown_all_leaf_entries _ _ _ Hg) in Hle.
  assert (numeric r = true -> all_numeric t -> contained t ->
          all_numeric t2 /\ contained t2) as Hbx.
  { intros Hr Hnum Hcon.
    destruct (chooseLeaf_contained lvl r _ t _ t1 leaf Hr Hs Hnum Hcon
                (root_pending _ _ _ Hs) Hcl) as (Hnum1 & Hcon1 & Hpen).
    by apply append_leaf_boxed. }
  assert (forall c b, (c, b) ∈ links (nodes t) ->
            exists b', (c, b') ∈ links (nodes t2) /\
                       (b' = b \/ b' = expand b r)) as Hlk.
  { intros c b Hcb.
    destruct (grown_links _ _ _ _ _ Hg Hcb) as (b' & Hcb' & Hb').
    exists b'. split; [|done]. by apply append_leaf_links. }
  assert (at_ (nodes t2) leaf = Ok (set_entries n (entries n ++ [e]))) as Hn2.
  { apply at_insert_eq. by eapply at_lt. }
  assert (length (nodes t2) = length (nodes t)) as Hlen2.
  { simpl. by rewrite length_insert, (grown_length _ _ _ Hg). }
  assert (size (nodes t1) = size (nodes t)) as Hsize1.
  { unfold size. by rewrite (grown_length _ _ _ Hg). }
  assert (size (entries_at (nodes t) leaf) = size (entries_at (nodes t1) leaf))
    as Hsame.
  { destruct (grown_at _ _ _ _ _ Hg Hn) as (n0 & Hn0 & _ & _ & HF).
    rewrite (entries_at_Ok _ _ _ Hn0), (entries_at_Ok _ _ _ Hn).
    unfold size. by rewrite (Forall2_length _ _ _ HF). }
  unfold insert_stable. rewrite Hcl. simpl. rewrite Hn. simpl. fold e. fold t2.
  destruct (MAX_ENTRIES <? size (entries n ++ [e])) eqn:Hover.
  - apply N.ltb_lt in Hover.
    destruct (splitNode_spec (length (nodes t)) lvl t2 leaf _ Hs2 Hn2)
      as (t' & Hsp & Hsh & Hle' & Hbx' & Hlen & split & Hsl & Hfull & Hkeep).
    { simpl. unfold MAX_ENTRIES in Hover. lia. }
    { pose proof (shape_fuel _ _ Hs2) as H. rewrite Hlen2 in H. lia. }
    exists t'. split; [done|]. split; [done|]. split; [done|]. split; [done|].
    split; [done|]. split; [done|]. split; [by rewrite Hle'|].
    split; [|split].
    + intros Hr Hnum Hcon. destruct (Hbx Hr Hnum Hcon). by apply Hbx'.
    + right. lia.
    + exists split. split; [lia|]. split.
      * rewrite Hfull. unfold insert_splits. rewrite Hcl, Hsame.
        rewrite (entries_at_Ok _ _ _ Hn).
        rewrite size_app, size_cons, size_nil in Hover.
        rewrite (proj2 (N.leb_le _ _)) by (unfold MAX_ENTRIES in *; lia).
        apply (split_chain_ext (fun c => c < size (nodes t)));
          [by destruct Hg| |by rewrite <-Hsize1; eapply at_lt].
        intros c Hlt Hcr.
        destruct (all_children_inv _ _ (shape_has_parent _ _ _ Hs Hlt Hcr))
          as (q & nq & e0 & Hq & Hql & He0 & Hce).
        destruct (grown_at_l _ _ _ _ _ Hg Hq) as (n1 & Hn1 & Hl1 & _ & HF).
        apply list_elem_of_lookup_1 in He0 as [j Hj].
        destruct (Forall2_lookup_l _ _ _ _ _ HF Hj) as (e1 & Hj1 & Hge).
        assert (q <> leaf) as Hql' by (intros ->; congruence).
        assert (at_ (nodes t2) q = Ok n1) as Hq2.
        { unfold t2. cbn [nodes set_node]. by rewrite at_insert_ne. }
        exists q. split.
        { eapply findParent_shape; [done..|by eapply list_elem_of_lookup_2|done]. }
        split.
        { eapply (findParent_shape lvl t2); [done|done|congruence| |].
          - by eapply list_elem_of_lookup_2.
          - rewrite <-Hce. by apply (entry_grown_child r). }
        split; [by eapply at_lt|].
        rewrite (entries_at_Ok _ _ _ Hq2), (entries_at_Ok _ _ _ Hq).
        unfold size. by rewrite (Forall2_length _ _ _ HF).
      * intros c b Hcb Hcs.
        destruct (Hlk c b Hcb) as (b' & Hcb' & Hb'). exists b'. auto.
  - exists t2. split; [done|]. split; [done|]. split; [done|].
    split; [done|]. split; [done|]. split; [by eexists|]. split; [done|].
    split; [done|]. split; [by left|].
    exists []. split; [rewrite Hlen2; simpl; lia|]. split.
    + unfold insert_splits. rewrite Hcl, Hsame, (entries_at_Ok _ _ _ Hn).
      apply N.ltb_ge in Hover.
      rewrite size_app, size_cons, size_nil in Hover.
      by rewrite (proj2 (N.leb_gt _ _)) by (unfold MAX_ENTRIES in *; lia).
    + intros c b Hcb _. by apply Hlk.
Qed.

Lemma new_inv : index_inv (DataT:=DataT) RTree_new_stable [].
Proof.
  split; [|split].
  - exists (fun _ => O). split; simpl.
    + done.
    + done.
    + intros i n Hi Hl. apply at_Ok in Hi.
      destruct (N.to_nat i) as [|[|?]]; simplify_eq/=.
    + done.
    + lia.
  - done.
  - intros _. split.
    + intros n e Hn He. apply list_elem_of_singleton in Hn as ->.
      by apply elem_of_nil in He.
    + intros i n e c e' Hi Hl. apply at_Ok in Hi.
      destruct (N.to_nat i) as [|[|?]]; simplify_eq/=.
Qed.

Lemma insert_inv t ops r d :
  index_inv t ops ->
  exists t', insert_stable t r d = Ok t' /\ index_inv t' (ops ++ [(r, d)]).
Proof.
  intros ([lvl Hs] & Hle & Hbx).
  destruct (insert_spec lvl t r d Hs)
    as (t1 & leaf & n & t' & _ & _ & _ & _ & Hin & Hs' & Hle' & Hbx' & _ & _).
  exists t'. split; [done|]. split; [done|]. split.
  - rewrite Hle', Hle, fmap_app. done.
  - intros [Hops Hr]%Forall_app.
    rewrite Forall_singleton in Hr. simpl in Hr.
    destruct (Hbx Hops). by apply Hbx'.
Qed.

Lemma insert_all_inv t ops0 ops :
  index_inv t ops0 ->
  exists t', insert_all_stable t ops = Ok t' /\ index_inv t' (ops0 ++ ops).
Proof.
  revert t ops0. induction ops as [|[r d] ops IH]; intros t ops0 Hinv.
  { exists t. by rewrite app_nil_r. }
  destruct (insert_inv t ops0 r d Hinv) as (t1 & Hin & Hinv1).
  destruct (IH t1 _ Hinv1) as (t' & Hall & Hinv').
  exists t'. simpl. rewrite Hin. simpl. split; [done|].
  by rewrite <-(assoc_L (++)) in Hinv'.
Qed.

Lemma build_inv ops : exists t, build_stable ops = Ok t /\ index_inv t ops.
Proof. apply (insert_all_inv RTree_new_stable [] ops), new_inv. Qed.

End Insert.

(** ** The traversal reaches every leaf entry once *)

Section Traversal.

Context {DataT : Type}.
Implicit Types (e : Entry DataT) (es g : list (Entry DataT)).
Implicit Types (n node parent : Node DataT) (ns : list (Node DataT)).
Implicit Types (t : RTree DataT) (lvl : N -> nat) (r m : Rectangle).

Lemma bind_ext_elem {A B} (f g : A -> list B) (l : list A) :
  (forall x, x ∈ l -> f x = g x) -> l ≫= f = l ≫= g.
Proof.
  induction l as [|a l IH]; intros H; [done|].
  rewrite !bind_cons, H by left. f_equal. apply IH. intros. apply H. by right.
Qed.

Lemma bind_bind {A B C} (f : A -> list B) (g : B -> list C) (l : list A) :
  (l ≫= f) ≫= g = l ≫= (fun x => f x ≫= g).
Proof.
  induction l as [|a l IH]; [done|].
  by rewrite !bind_cons, bind_app, IH.
Qed.

Lemma bind_filter {A B} (P : A -> Prop) `{forall x, Decision (P x)}
    (f g : A -> list B) (l : list A) :
  (forall x, x ∈ l -> ~ P x -> f x = []) ->
  (forall x, x ∈ l -> P x -> f x = g x) ->
  l ≫= f = filter P l ≫= g.
Proof.
  induction l as [|a l IH]; intros H1 H2; [done|].
  rewrite bind_cons, filter_cons. rewrite IH.
  - destruct (decide (P a)).
    + rewrite bind_cons, H2; [done|left|done].
    + rewrite H1; [done|left|done].
  - intros. apply H1; [by right|done].
  - intros. apply H2; [by right|done].
Qed.

(** A map over the nodes of the arena is a map over its handles. *)
Lemma bind_handles {X} (f : Node DataT -> list X) ns :
  handles ns ≫=
    (fun i => match ns !! N.to_nat i with Some n => f n | None => [] end) =
  ns ≫= f.
Proof.
  induction ns as [|n ns IH] using rev_ind; [done|].
  rewrite handles_app, !bind_app, <-IH. f_equal.
  - apply bind_ext_elem. intros i Hi%elem_handles.
    rewrite lookup_app_l; [done|]. unfold size in Hi. lia.
  - rewrite !bind_cons. unfold size. rewrite Nat2N.id.
    by rewrite list_lookup_middle.
Qed.

Lemma all_children_handles ns : handles ns ≫= children_at ns = all_children ns.
Proof. apply (bind_handles children_of). Qed.

Lemma shape_inner_level lvl t i n :
  shape lvl t -> at_ (nodes t) i = Ok n ->
  (is_leaf n = true <-> lvl i = O).
Proof.
  intros Hs Hn. split; [by apply (shape_leaf _ _ Hs)|].
  intros Hl. destruct (is_leaf n) eqn:E; [done|].
  destruct (shape_inner _ _ Hs i n Hn E) as [Hne Hlv].
  destruct (entries n) as [|e es]; [done|].
  specialize (Hlv e (list_elem_of_here _ _)). lia.
Qed.

Lemma under_S lvl t h i :
  shape lvl t -> i < size (nodes t) -> lvl i = S h ->
  under (nodes t) (S h) i = children_at (nodes t) i ≫= under (nodes t) h.
Proof.
  intros Hs [n Hn]%at_is_Ok Hl. simpl. unfold entries_at, children_at.
  pose proof Hn as Hn'. apply at_Ok in Hn'. rewrite Hn'.
  unfold children_of. destruct (is_leaf n) eqn:E.
  - apply (shape_leaf _ _ Hs i n Hn) in E. lia.
  - by rewrite list_fmap_bind.
Qed.

Lemma elem_at_level lvl ns h i :
  i ∈ at_level lvl ns h <-> lvl i = h /\ i < size ns.
Proof. unfold at_level. by rewrite list_elem_of_filter, elem_handles. Qed.

Lemma NoDup_at_level lvl ns h : NoDup (at_level lvl ns h).
Proof. apply NoDup_filter, NoDup_handles. Qed.

(** The children of the nodes of one level are the nodes of the level
    below. *)
Lemma at_level_children lvl t h :
  shape lvl t -> (h < lvl (root_index t))%nat ->
  at_level lvl (nodes t) (S h) ≫= children_at (nodes t) ≡ₚ
  at_level lvl (nodes t) h.
Proof.
  intros Hs Hh. apply NoDup_Permutation.
  - eapply sublist_NoDup; [apply (shape_NoDup _ _ Hs)|].
    rewrite <-all_children_handles. apply bind_sublist, sublist_filter.
  - apply NoDup_at_level.
  - intros c. rewrite list_elem_of_bind, elem_at_level. split.
    + intros (i & Hc & [Hl Hi]%elem_at_level).
      destruct (at_is_Ok _ _ Hi) as [n Hn]. unfold children_at in Hc.
      pose proof Hn as Hn'. apply at_Ok in Hn'. rewrite Hn' in Hc.
      unfold children_of in Hc.
      destruct (is_leaf n) eqn:E; [by apply elem_of_nil in Hc|].
      apply list_elem_of_fmap in Hc as (e & -> & He).
      pose proof (shape_child_lvl _ _ _ _ _ Hs Hn E He).
      pose proof (shape_child_lt _ _ _ _ _ Hs Hn E He). split; [lia|done].
    + intros [Hl Hc].
      assert (c <> root_index t) as Hr by (intros ->; lia).
      destruct (all_children_inv _ _ (shape_has_parent _ _ _ Hs Hc Hr))
        as (i & n & e & Hn & E & He & Hce).
      exists i. split.
      * unfold children_at. pose proof Hn as Hn'. apply at_Ok in Hn'.
        rewrite Hn'. unfold children_of. rewrite E, <-Hce.
        by apply list_elem_of_fmap_2.
      * apply elem_at_level. split; [|by eapply at_lt].
        pose proof (shape_child_lvl _ _ _ _ _ Hs Hn E He) as H.
        rewrite Hce in H. lia.
Qed.

Lemma at_level_root lvl t :
  shape lvl t -> at_level lvl (nodes t) (lvl (root_index t)) ≡ₚ [root_index t].
Proof.
  intros Hs. apply NoDup_Permutation.
  - apply NoDup_at_level.
  - apply NoDup_singleton.
  - intros i. rewrite elem_at_level, list_elem_of_singleton. split.
    + intros [Hl Hi]. destruct (decide (i = root_index t)) as [|Hr]; [done|].
      destruct (all_children_inv _ _ (shape_has_parent _ _ _ Hs Hi Hr))
        as (p & n & e & Hn & E & He & Hce).
      pose proof (shape_child_lvl _ _ _ _ _ Hs Hn E He) as H.
      pose proof (shape_top _ _ Hs p (at_lt _ _ _ Hn)). rewrite Hce in H. lia.
    + intros ->. split; [done|]. by eapply shape_root_lt.
Qed.

Lemma at_level_leaves lvl t :
  shape lvl t ->
  at_level lvl (nodes t) 0 ≫= entries_at (nodes t) =
  all_leaf_entries (nodes t).
Proof.
  intros Hs. unfold all_leaf_entries.
  rewrite <-(bind_handles leaf_entries_of). symmetry.
  apply bind_filter.
  - intros i Hi%elem_handles Hl. destruct (at_is_Ok _ _ Hi) as [n Hn].
    pose proof Hn as Hn'. apply at_Ok in Hn'. rewrite Hn'.
    unfold leaf_entries_of. destruct (is_leaf n) eqn:E; [|done].
    by apply (shape_leaf _ _ Hs i n Hn) in E.
  - intros i Hi%elem_handles Hl. destruct (at_is_Ok _ _ Hi) as [n Hn].
    unfold entries_at. pose proof Hn as Hn'. apply at_Ok in Hn'. rewrite Hn'.
    unfold leaf_entries_of.
    apply (shape_inner_level _ _ _ _ Hs Hn) in Hl. by rewrite Hl.
Qed.

Lemma under_level lvl t h :
  shape lvl t -> (h <= lvl (root_index t))%nat ->
  at_level lvl (nodes t) h ≫= under (nodes t) h ≡ₚ
  all_leaf_entries (nodes t).
Proof.
  intros Hs. induction h as [|h IH]; intros Hh.
  { by rewrite <-(at_level_leaves _ _ Hs). }
  rewrite <-IH by lia.
  rewrite <-(at_level_children _ _ h Hs) by lia.
  rewrite bind_bind.
  rewrite (bind_ext_elem (under (nodes t) (S h))
             (fun i => children_at (nodes t) i ≫= under (nodes t) h));
    [done|].
  intros i [Hl Hi]%elem_at_level. by eapply under_S.
Qed.

(** The leaf entries below the root are the leaf entries of the arena. *)
Lemma under_root lvl t :
  shape lvl t ->
  under (nodes t) (lvl (root_index t)) (root_index t) ≡ₚ
  all_leaf_entries (nodes t).
Proof.
  intros Hs. rewrite <-(under_level lvl t (lvl (root_index t)) Hs) by lia.
  rewrite (at_level_root _ _ Hs), bind_cons.
  change ([] ≫= under (nodes t) (lvl (root_index t)))
    with (@nil (Entry DataT)).
  by rewrite app_nil_r.
Qed.

End Traversal.

(** ** rangeQuery *)

Section RangeQuery.

Context {DataT : Type}.
Implicit Types (e : Entry DataT) (es g : list (Entry DataT)).
Implicit Types (n node parent : Node DataT) (ns : list (Node DataT)).
Implicit Types (t : RTree DataT) (lvl : N -> nat) (q r m : Rectangle).
Implicit Types (acc res : list DataT).

Lemma rangeQueryHelper_S fuel t i q acc :
  rangeQueryHelper (S fuel) t i q acc =
  node ← at_ (nodes t) i;
  for_each
    (fun results entry =>
       if overlaps (bounding_box entry) q then
         if is_leaf node then
           match data entry with
           | Some d => Ok (results ++ [d])
           | None => Err EmptyOptional
           end
         else rangeQueryHelper fuel t (child_index entry) q results
       else Ok results)
    (entries node) acc.
Proof. done. Qed.

Lemma for_each_app {A S} (body : list S -> A -> result (list S))
    (F : A -> list S) (l : list A) (xs : list S) :
  (forall a (ys : list S), a ∈ l -> body ys a = Ok (ys ++ F a)) ->
  for_each body l xs = Ok (xs ++ l ≫= F).
Proof.
  revert xs. induction l as [|a l IH]; intros xs H.
  { simpl. by rewrite app_nil_r. }
  rewrite bind_cons, (assoc_L (++)). cbn [for_each].
  rewrite H by left. rewrite <-IH by (intros; apply H; by right). done.
Qed.

Lemma for_each_is_Ok {A S} (body : S -> A -> result S) (l : list A) (s : S) :
  (forall a s, a ∈ l -> exists s', body s a = Ok s') ->
  exists s', for_each body l s = Ok s'.
Proof.
  revert s. induction l as [|a l IH]; intros s H; simpl; [by eexists|].
  destruct (H a s) as [s' ->]; [left|]. simpl.
  apply IH. intros. apply H. by right.
Qed.

Lemma hits_app q es1 es2 : hits q (es1 ++ es2) = hits q es1 ++ hits q es2.
Proof. unfold hits. by rewrite filter_app, omap_app. Qed.

Lemma hits_bind {A} q (G : A -> list (Entry DataT)) (l : list A) :
  hits q (l ≫= G) = l ≫= (fun x => hits q (G x)).
Proof.
  induction l as [|a l IH]; [done|]. by rewrite !bind_cons, hits_app, IH.
Qed.

Lemma hits_singleton q e :
  hits q [e] =
  if overlaps (bounding_box e) q
  then match data e with Some d => [d] | None => [] end
  else [].
Proof.
  unfold hits. rewrite filter_cons, filter_nil.
  destruct (overlaps (bounding_box e) q) eqn:E.
  - rewrite decide_True by done. simpl. by destruct (data e).
  - rewrite decide_False by congruence. done.
Qed.

Lemma hits_entries q es : es ≫= (fun e => hits q [e]) = hits q es.
Proof.
  induction es as [|e es IH]; [done|].
  rewrite bind_cons, IH. change (e :: es) with ([e] ++ es).
  by rewrite hits_app.
Qed.

Lemma hits_none q es :
  (forall e, e ∈ es -> overlaps (bounding_box e) q = false) -> hits q es = [].
Proof.
  induction es as [|e es IH]; intros H; [done|].
  change (e :: es) with ([e] ++ es).
  rewrite hits_app, hits_singleton, H by left. simpl.
  apply IH. intros. apply H. by right.
Qed.

Lemma leaf_entry_elem ns i n e :
  at_ ns i = Ok n -> is_leaf n = true -> e ∈ entries n ->
  e ∈ all_leaf_entries ns.
Proof.
  intros Hn Hl He. apply list_elem_of_bind. exists n. split.
  - unfold leaf_entries_of. by rewrite Hl.
  - by eapply at_elem.
Qed.

Lemma contained_is_deep lvl t :
  shape lvl t -> contained t -> contained_deep lvl t.
Proof.
  intros Hs Hcon.
  assert (forall h i n e e',
            at_ (nodes t) i = Ok n -> is_leaf n = false -> e ∈ entries n ->
            lvl (child_index e) = h ->
            e' ∈ under (nodes t) h (child_index e) ->
            covers (bounding_box e) (bounding_box e') = true) as H.
  { induction h as [|h IH]; intros i n e e' Hn Hl He Hh He'.
    - destruct (at_is_Ok _ _ (shape_child_lt _ _ _ _ _ Hs Hn Hl He))
        as [c Hc].
      simpl in He'. rewrite (entries_at_Ok _ _ _ Hc) in He'.
      apply (Hcon i n e c e' Hn Hl He Hc He').
    - destruct (at_is_Ok _ _ (shape_child_lt _ _ _ _ _ Hs Hn Hl He))
        as [c Hc].
      simpl in He'. rewrite (entries_at_Ok _ _ _ Hc) in He'.
      apply list_elem_of_bind in He' as (x & He' & Hx).
      assert (is_leaf c = false) as Hcl.
      { destruct (is_leaf c) eqn:E; [|done].
        apply (shape_leaf _ _ Hs _ c Hc) in E. lia. }
      pose proof (shape_child_lvl _ _ _ _ _ Hs Hc Hcl Hx) as Hxl.
      eapply covers_trans.
      + apply (Hcon i n e c x Hn Hl He Hc Hx).
      + apply (IH _ c x e' Hc Hcl Hx); [lia|done]. }
  intros i n e e' Hn Hl He He'. by eapply H.
Qed.

Lemma rangeQueryHelper_is_Ok lvl t q fuel i acc :
  shape lvl t ->
  (forall e, e ∈ all_leaf_entries (nodes t) -> is_Some (data e)) ->
  i < size (nodes t) -> (lvl i < fuel)%nat ->
  exists res, rangeQueryHelper fuel t i q acc = Ok res.
Proof.
  intros Hs Hdata. revert i acc.
  induction fuel as [|fuel IH]; intros i acc Hi Hf; [lia|].
  rewrite rangeQueryHelper_S. destruct (at_is_Ok _ _ Hi) as [n Hn].
  rewrite Hn. simpl. apply for_each_is_Ok. intros e acc' He.
  destruct (overlaps (bounding_box e) q); [|by eexists].
  destruct (is_leaf n) eqn:Hl.
  - destruct (Hdata e) as [d ->]; [by eapply leaf_entry_elem|]. by eexists.
  - apply IH.
    + by eapply shape_child_lt.
    + pose proof (shape_child_lvl _ _ _ _ _ Hs Hn Hl He). lia.
Qed.

(** With the containment invariant, the pruned traversal returns the values
    of exactly the leaf entries that overlap the query, in traversal
    order. *)
Lemma rangeQueryHelper_exact lvl t q fuel i acc :
  shape lvl t ->
  (forall e, e ∈ all_leaf_entries (nodes t) -> is_Some (data e)) ->
  contained_deep lvl t ->
  i < size (nodes t) -> (lvl i < fuel)%nat ->
  rangeQueryHelper fuel t i q acc =
  Ok (acc ++ hits q (under (nodes t) (lvl i) i)).
Proof.
  intros Hs Hdata Hdeep. revert i acc.
  induction fuel as [|fuel IH]; intros i acc Hi Hf; [lia|].
  rewrite rangeQueryHelper_S. destruct (at_is_Ok _ _ Hi) as [n Hn].
  rewrite Hn. simpl. destruct (is_leaf n) eqn:Hl.
  - rewrite (shape_leaf _ _ Hs i n Hn Hl). simpl.
    rewrite (entries_at_Ok _ _ _ Hn), <-hits_entries.
    apply for_each_app. intros e acc' He. rewrite hits_singleton.
    destruct (overlaps (bounding_box e) q); [|by rewrite app_nil_r].
    destruct (Hdata e) as [d ->]; [by eapply leaf_entry_elem|]. done.
  - destruct (shape_inner _ _ Hs i n Hn Hl) as [Hne Hlv].
    destruct (lvl i) as [|h] eqn:Hli.
    { destruct (entries n) as [|e es]; [done|].
      by specialize (Hlv e (list_elem_of_here _ _)). }
    simpl. rewrite (entries_at_Ok _ _ _ Hn), hits_bind.
    apply for_each_app. intros e acc' He.
    assert (lvl (child_index e) = h) as Hce.
    { specialize (Hlv e He). lia. }
    destruct (overlaps (bounding_box e) q) eqn:Hov.
    + rewrite IH, Hce; [done| |lia]. by eapply shape_child_lt.
    + rewrite hits_none; [by rewrite app_nil_r|].
      intros e' He'. destruct (overlaps (bounding_box e') q) eqn:Hov'; [|done].
      rewrite <-Hce in He'.
      rewrite (overlaps_covers _ _ _ (Hdeep i n e e' Hn Hl He He') Hov') in Hov.
      done.
Qed.

End RangeQuery.

(** * The storage of [nodes] *)

(** [splitNode] and [insert] are compared with the functions on stable
    storage: they compute the same index as long as the capacity of [nodes]
    holds the nodes that are allocated, and stop at a reference that has
    become invalid as soon as it does not. *)

Section Storage.

Context {DataT : Type}.
Implicit Types (e : Entry DataT) (es g : list (Entry DataT)).
Implicit Types (n node parent : Node DataT) (ns : list (Node DataT)).
Implicit Types (t : RTree DataT) (s : Index DataT) (r m : Rectangle).
Implicit Types (ops : list (Rectangle * DataT)) (d : DataT).

Lemma chooseLeaf_size fuel t i r t1 leaf :
  chooseLeaf fuel t i r = Ok (t1, leaf) -> size (nodes t1) = size (nodes t).
Proof.
  revert t i. induction fuel as [|fuel IH]; intros t i; [done|].
  cbn [chooseLeaf]. destruct (at_ (nodes t) i) as [node|]; [|done]. simpl.
  destruct (is_leaf node); [by intros [= <- _]|].
  destruct (at_ (entries node) _) as [e|]; [|done]. simpl.
  intros H%IH. rewrite H. apply size_insert.
Qed.

Lemma splitNode_stable_size fuel t k t' :
  splitNode_stable fuel t k = Ok t' -> size (nodes t) < size (nodes t').
Proof.
  revert t k. induction fuel as [|fuel IH]; intros t k; [done|].
  rewrite splitNode_S.
  repeat bind_head.
  destruct (k =? root_index t).
  - unfold createNode_stable. cbn [nodes root_index].
    repeat bind_head.
    intros [= <-]. simpl.
    rewrite size_insert, !size_app, size_insert, !size_cons, size_nil. lia.
  - repeat bind_head.
    match goal with |- (if ?c then _ else _) = _ -> _ => destruct c end.
    + intros H%IH. revert H. simpl.
      rewrite size_insert, !size_app, !size_insert, !size_cons, size_nil. lia.
    + intros [= <-]. simpl.
      rewrite size_insert, !size_app, !size_insert, !size_cons, size_nil. lia.
Qed.

Lemma splitNode_eq fuel s k :
  splitNode (S fuel) s k =
  node ← at_ (nodes s) k;
  '(g1, g2) ← split_groups (entries node);
  let new_node := mkNode (is_leaf node) g2 in
  let s1 := put s (set_node s k (set_entries node g1)) in
  if k =? root_index s then
    let '(s2, r, live1) := createNode s1 false in
    let s3 := put s2 (mkRTree (nodes s2) r) in
    root ← at_ (nodes s3) r;
    let new_node_index := size (nodes s3) in
    let '(s4, live2) := push_back s3 new_node in
    valid (live1 && live2) ≫= fun _ =>
    node' ← at_ (nodes s4) k;
    mbr1 ← mbr (entries node');
    sibling ← at_ (nodes s4) new_node_index;
    mbr2 ← mbr (entries sibling);
    valid live2 ≫= fun _ =>
    let root' :=
      set_entries root
        (entries root ++ [link mbr1 k] ++ [link mbr2 new_node_index]) in
    Ok (put s4 (set_node s4 r root'))
  else
    parent_index ← findParent s1 k;
    parent ← at_ (nodes s1) parent_index;
    node' ← at_ (nodes s1) k;
    es ← relink (entries parent) k (entries node');
    let s2 := put s1 (set_node s1 parent_index (set_entries parent es)) in
    let new_node_index := size (nodes s2) in
    let '(s3, live) := push_back s2 new_node in
    sibling ← at_ (nodes s3) new_node_index;
    mbr_new_node ← mbr (entries sibling);
    valid live ≫= fun _ =>
    parent' ← at_ (nodes s3) parent_index;
    let parent'' :=
      set_entries parent'
        (entries parent' ++ [link mbr_new_node new_node_index]) in
    let s4 := put s3 (set_node s3 parent_index parent'') in
    if MAX_ENTRIES <? size (entries parent'')
    then splitNode fuel s4 parent_index
    else Ok s4.
Proof.
  cbn [splitNode]. destruct (at_ (nodes s) k) as [node|]; [|done]. simpl.
  unfold split_groups. destruct (pickSeeds (entries node)) as [seed1 seed2].
  destruct (at_ (entries node) seed1); [|done]. simpl.
  destruct (at_ (entries node) seed2); done.
Qed.

Lemma splitNode_refines fuel s k t' :
  splitNode_stable fuel s k = Ok t' ->
  splitNode fuel s k =
  if size (nodes t') <=? capacity s then Ok (put s t')
  else Err DanglingReference.
Proof.
  revert s k. induction fuel as [|fuel IH]; intros s k; [done|].
  rewrite splitNode_S, splitNode_eq.
  repeat bind_head.
  destruct (k =? root_index s).
  - unfold createNode_stable, createNode, push_back, put.
    cbn [nodes root_index members capacity set_node].
    set (ns1 := <[N.to_nat k := set_entries a l]> (nodes s)).
    assert (size ns1 = size (nodes s)) as Hsz by apply size_insert.
    destruct (size ns1 <? capacity s) eqn:H1;
      cbn [nodes root_index members capacity set_node fst snd].
    + destruct (size (ns1 ++ [mkNode false []]) <? capacity s) eqn:H2;
        cbn [nodes root_index members capacity set_node fst snd andb valid].
      * repeat bind_head. intros [= <-]. simpl.
        rewrite size_insert, !size_app, !size_cons, size_nil.
        apply N.ltb_lt in H2. rewrite size_app, size_cons, size_nil in H2.
        case_leb; [done|lia].
      * repeat bind_head. intros [= <-]. simpl.
        rewrite size_insert, !size_app, !size_cons, size_nil.
        apply N.ltb_ge in H2. rewrite size_app, size_cons, size_nil in H2.
        case_leb; [lia|done].
    + repeat bind_head. intros [= <-]. apply N.ltb_ge in H1.
      destruct (size (ns1 ++ _) <? grow (capacity s)); simpl;
        rewrite size_insert, !size_app, !size_cons, size_nil;
        (case_leb; [lia|done]).
  - unfold push_back, put. cbn [nodes root_index members capacity set_node].
    set (ns1 := <[N.to_nat k := set_entries a l]> (nodes s)).
    assert (size ns1 = size (nodes s)) as Hsz by apply size_insert.
    do 4 bind_head.
    set (ns2 := <[N.to_nat a0 := set_entries a1 a3]> ns1).
    assert (size ns2 = size (nodes s)) as Hsz2.
    { unfold ns2. by rewrite size_insert. }
    destruct (size ns2 <? capacity s) eqn:H1;
      cbn [nodes root_index members capacity set_node put valid].
    + do 3 bind_head.
      match goal with |- (if ?c then _ else _) = _ -> _ => destruct c end.
      * intros H. exact (IH (mkIndex _ (capacity s)) _ H).
      * intros [= <-]. simpl.
        rewrite size_insert, !size_app, !size_cons, size_nil.
        apply N.ltb_lt in H1. case_leb; [done|lia].
    + do 2 bind_head. simpl. apply N.ltb_ge in H1.
      bind_head.
      match goal with |- (if ?c then _ else _) = _ -> _ => destruct c end.
      * intros H%splitNode_stable_size. revert H. simpl.
        rewrite size_insert, !size_app, !size_cons, size_nil.
        intros H. case_leb; [lia|done].
      * intros [= <-]. simpl.
        rewrite size_insert, !size_app, !size_cons, size_nil.
        case_leb; [lia|done].
Qed.

Lemma insert_stable_size t r d t' :
  insert_stable t r d = Ok t' -> size (nodes t) <= size (nodes t').
Proof.
  unfold insert_stable.
  destruct (chooseLeaf _ t _ r) as [[t1 leaf]|] eqn:Hcl; simpl; [|done].
  apply chooseLeaf_size in Hcl.
  bind_head.
  match goal with |- (if ?c then _ else _) = _ -> _ => destruct c end.
  - intros H%splitNode_stable_size. revert H. simpl.
    rewrite size_insert. lia.
  - intros [= <-]. simpl. rewrite size_insert. lia.
Qed.

Lemma insert_refines s r d t' :
  size (nodes s) <= capacity s ->
  insert_stable s r d = Ok t' ->
  insert s r d =
  if size (nodes t') <=? capacity s then Ok (put s t')
  else Err DanglingReference.
Proof.
  intros Hcap. unfold insert_stable, insert.
  destruct (chooseLeaf _ s _ r) as [[t1 leaf]|] eqn:Hcl; simpl; [|done].
  apply chooseLeaf_size in Hcl.
  bind_head.
  match goal with |- (if ?c then _ else _) = _ -> _ => destruct c end.
  - intros H. exact (splitNode_refines _ (mkIndex _ (capacity s)) _ _ H).
  - intros [= <-]. simpl. rewrite size_insert.
    case_leb; [done|lia].
Qed.

Lemma insert_all_stable_size t ops t' :
  insert_all_stable t ops = Ok t' -> size (nodes t) <= size (nodes t').
Proof.
  revert t. induction ops as [|[r d] ops IH]; intros t; simpl.
  - by intros [= <-].
  - destruct (insert_stable t r d) as [t1|] eqn:H1; simpl; [|done].
    intros H%IH. apply insert_stable_size in H1. lia.
Qed.

Lemma insert_all_refines s ops t' :
  size (nodes s) <= capacity s ->
  insert_all_stable s ops = Ok t' ->
  insert_all s ops =
  if size (nodes t') <=? capacity s then Ok (put s t')
  else Err DanglingReference.
Proof.
  revert s. induction ops as [|[r d] ops IH]; intros s Hcap; simpl.
  - intros [= <-]. destruct s as [t c]. unfold put. simpl in *.
    case_leb; [done|lia].
  - destruct (insert_stable s r d) as [t1|] eqn:H1; simpl; [|done].
    intros H. rewrite (insert_refines _ _ _ _ Hcap H1).
    case_leb; simpl.
    + by apply (IH (put s t1)).
    + apply insert_all_stable_size in H. case_leb; [lia|done].
Qed.

Lemma reserve_new c :
  reserve (DataT:=DataT) RTree_new c = mkIndex RTree_new_stable (N.max 1 c).
Proof.
  unfold reserve. cbn [capacity RTree_new createNode push_back put fst snd].
  change (capacity (DataT:=DataT) RTree_new) with 1.
  destruct (N.ltb_spec 1 c).
  - by rewrite N.max_r by lia.
  - by rewrite N.max_l by lia.
Qed.

Lemma build_refines c ops t :
  build_stable ops = Ok t ->
  build_reserved c ops =
  if size (nodes t) <=? N.max 1 c then Ok (mkIndex t (N.max 1 c))
  else Err DanglingReference.
Proof.
  intros H. unfold build_reserved. rewrite reserve_new.
  apply (insert_all_refines (mkIndex _ _)); [|done].
  simpl. change (size _) with 1. lia.
Qed.


(** *** The first insertions *)

Lemma at_cons_0 {A} (a : A) (l : list A) : at_ (a :: l) 0 = Ok a.
Proof. done. Qed.

Lemma at_cons_pos {A} (a : A) (l : list A) (k : N) :
  0 < k -> at_ (a :: l) k = at_ l (k - 1).
Proof.
  intros Hk. unfold at_.
  replace (N.to_nat k) with (S (N.to_nat (k - 1))) by lia. done.
Qed.

Lemma insert_all_app t ops ops' :
  insert_all_stable t (ops ++ ops') =
  t' ← insert_all_stable t ops; insert_all_stable t' ops'.
Proof.
  revert t. induction ops as [|[r d] ops IH]; intros t; [done|].
  simpl. destruct (insert_stable t r d) as [t1|]; [|done]. apply IH.
Qed.

Lemma insert_single_leaf es r d :
  insert_stable (mkRTree [mkNode true es] 0) r d =
  let t2 := mkRTree [mkNode true (es ++ [Entry_new r (Some d)])] 0 in
  if MAX_ENTRIES <? size (es ++ [Entry_new r (Some d)])
  then splitNode_stable 1 t2 0
  else Ok t2.
Proof. done. Qed.

Lemma insert_all_single_leaf ops es :
  size es + size ops <= MAX_ENTRIES ->
  insert_all_stable (mkRTree [mkNode true es] 0) ops =
  Ok (mkRTree [mkNode true (es ++ (leaf_entry <$> ops))] 0).
Proof.
  revert es. induction ops as [|[r d] ops IH]; intros es Hlen.
  { simpl. by rewrite app_nil_r. }
  rewrite size_cons in Hlen. cbn [insert_all_stable].
  rewrite insert_single_leaf. cbv zeta.
  destruct (N.ltb_spec MAX_ENTRIES (size (es ++ [Entry_new r (Some d)])))
    as [Hover|_].
  { rewrite size_app, size_cons, size_nil in Hover. lia. }
  simpl. rewrite IH.
  - by rewrite <-(assoc_L (++)).
  - rewrite size_app, size_cons, size_nil. lia.
Qed.

Lemma build_stable_small ops :
  size ops <= MAX_ENTRIES ->
  build_stable ops = Ok (mkRTree [mkNode true (leaf_entry <$> ops)] 0).
Proof.
  intros Hlen. apply (insert_all_single_leaf ops []). by rewrite size_nil.
Qed.

(** The insertion number [MAX_ENTRIES + 1] on stable storage. *)
Lemma build_stable_first_split ops :
  size ops = MAX_ENTRIES + 1 ->
  exists g1 g2 m1 m2,
    split_groups (leaf_entry <$> ops) = Ok (g1, g2) /\
    mbr g1 = Ok m1 /\ mbr g2 = Ok m2 /\
    build_stable ops =
      Ok (mkRTree [mkNode true g1;
                   mkNode false [link m1 0; link m2 2];
                   mkNode true g2] 1).
Proof.
  intros Hlen. destruct ops as [|[r d] ops _] using rev_ind; [done|].
  rewrite size_app, size_cons, size_nil in Hlen.
  set (es := (leaf_entry <$> ops) ++ [Entry_new r (Some d)]).
  assert (leaf_entry <$> ops ++ [(r, d)] = es) as -> by (by rewrite fmap_app).
  assert (size es = MAX_ENTRIES + 1) as Hsz.
  { unfold es. rewrite size_app, size_cons, size_nil. unfold size in *.
    rewrite length_fmap. lia. }
  destruct (split_groups_Ok es) as (g1 & g2 & Hg & Hp & Hg1 & Hg2).
  { rewrite Hsz. unfold MAX_ENTRIES. lia. }
  destruct (splitNode_root 0 (mkRTree [mkNode true es] 0) 0 (mkNode true es)
              g1 g2) as (m1 & m2 & Hm1 & Hm2 & Hs); [done..|].
  exists g1, g2, m1, m2. split; [done|]. split; [done|]. split; [done|].
  unfold build_stable. rewrite insert_all_app.
  change (@RTree_new_stable DataT)
    with (mkRTree [mkNode true (@nil (Entry DataT))] 0).
  rewrite (insert_all_single_leaf ops []) by (rewrite size_nil; lia).
  simpl. rewrite insert_single_leaf. cbv zeta. fold es.
  rewrite Hsz, Hs. done.
Qed.

(** Past [MAX_ENTRIES] insertions the arena has three nodes at least. *)
Lemma build_stable_nodes ops t :
  MAX_ENTRIES < size ops -> build_stable ops = Ok t -> 3 <= size (nodes t).
Proof.
  intros Hlen Hb.
  rewrite <-(take_drop (N.to_nat (MAX_ENTRIES + 1)) ops) in Hb.
  unfold build_stable in Hb. rewrite insert_all_app in Hb.
  destruct (build_stable_first_split (take (N.to_nat (MAX_ENTRIES + 1)) ops))
    as (g1 & g2 & m1 & m2 & _ & _ & _ & Hb5).
  { unfold size in *. rewrite length_take. lia. }
  unfold build_stable in Hb5. rewrite Hb5 in Hb. simpl in Hb.
  apply insert_all_stable_size in Hb. revert Hb. cbn [nodes].
  rewrite !size_cons, size_nil. lia.
Qed.

Lemma rangeQuery_single_leaf ops q :
  rangeQuery (mkRTree [mkNode true (leaf_entry <$> ops)] 0) q =
  Ok (hits q (leaf_entry <$> ops)).
Proof.
  unfold rangeQuery. cbn [nodes length root_index].
  rewrite rangeQueryHelper_S. cbn [nodes]. rewrite at_cons_0. simpl.
  rewrite <-hits_entries.
  rewrite (for_each_app _ (fun e => hits q [e]) _ []); [done|].
  intros e acc (op & -> & _)%list_elem_of_fmap. rewrite hits_singleton. simpl.
  destruct (overlaps (fst op) q); [done|by rewrite app_nil_r].
Qed.

(** *** The index that the insertions build *)

(** An index that the insertions build is the one they build on stable
    storage, and the storage holds it. *)
Lemma built c ops s :
  build_reserved c ops = Ok s ->
  build_stable ops = Ok (members s) /\ index_inv s ops /\
  capacity s = N.max 1 c /\ size (nodes s) <= capacity s.
Proof.
  destruct (build_inv ops) as (t & Hb & Hinv).
  rewrite (build_refines c ops t Hb).
  case_leb; [|done]. by intros [= <-].
Qed.

Lemma build_unreserved ops : build ops = build_reserved 0 ops.
Proof. done. Qed.

Lemma build_reserved_snoc c ops r d :
  build_reserved c (ops ++ [(r, d)]) =
  build_reserved c ops ≫= fun s => insert s r d.
Proof.
  unfold build_reserved. generalize (reserve (DataT:=DataT) RTree_new c).
  induction ops as [|[r0 d0] ops IH]; intros s; simpl.
  - by destruct (insert s r d).
  - destruct (insert s r0 d0) as [s1|]; [|done]. apply IH.
Qed.

(** [insert] on an index that the insertions have built. *)
Lemma insert_built c ops s r d :
  build_reserved c ops = Ok s ->
  exists t',
    insert_stable s r d = Ok t' /\ index_inv t' (ops ++ [(r, d)]) /\
    insert s r d =
      if size (nodes t') <=? capacity s then Ok (put s t')
      else Err DanglingReference.
Proof.
  intros Hb. destruct (built c ops s Hb) as (_ & Hinv & _ & Hcap).
  destruct (insert_inv s ops r d Hinv) as (t' & Hin & Hinv').
  exists t'. split; [done|]. split; [done|]. by apply insert_refines.
Qed.

(** The index of at most [MAX_ENTRIES] insertions is one leaf. *)
Lemma built_small c ops s :
  build_reserved c ops = Ok s -> size ops <= MAX_ENTRIES ->
  members s = mkRTree [mkNode true (leaf_entry <$> ops)] 0.
Proof.
  intros Hb Hlen. destruct (built c ops s Hb) as (Hst & _).
  rewrite (build_stable_small ops Hlen) in Hst. congruence.
Qed.

(** The invariants of an index built from rectangles without NaN bounds,
    or of at most [MAX_ENTRIES] insertions. *)
Lemma built_boxed c ops s :
  build_reserved c ops = Ok s ->
  Forall (fun op => numeric (fst op) = true) ops \/ size ops <= MAX_ENTRIES ->
  exists lvl,
    shape lvl s /\ contained s /\ contained_deep lvl s /\
    under (nodes s) (lvl (root_index s)) (root_index s) ≡ₚ leaf_entry <$> ops.
Proof.
  intros Hb Hops.
  destruct (built c ops s Hb) as (_ & ([lvl Hs] & Hle & Hbx) & _).
  assert (contained s) as Hcon.
  { destruct Hops as [Hops|Hsmall]; [by destruct (Hbx Hops)|].
    rewrite (built_small c ops s Hb Hsmall).
    intros i n e c' e' Hi Hl. apply at_Ok in Hi. simpl in Hi.
    destruct (N.to_nat i) as [|[|?]]; simplify_eq/=. }
  exists lvl. split; [done|]. split; [done|].
  split; [by apply contained_is_deep|]. by rewrite (under_root _ _ Hs).
Qed.

End Storage.

(** * The claims *)

(** An index is reachable when [RTree()], an optional [nodes.reserve(c)] and
    a sequence of calls of [insert] that all return build it: it is the result
    of [build_reserved c ops] for some [c] and [ops], and of [build ops] when
    nothing is reserved. *)

Section Claims.

Context {DataT : Type}.
Implicit Types (e : Entry DataT) (es g : list (Entry DataT)).
Implicit Types (n node parent : Node DataT) (ns : list (Node DataT)).
Implicit Types (t : RTree DataT) (lvl : N -> nat).
Implicit Types (q r m : Rectangle).
Implicit Types (ops : list (Rectangle * DataT)) (d v : DataT).

Lemma hits_leaf_entries q ops :
  hits q (leaf_entry <$> ops) =
  snd <$> filter (fun op => overlaps (fst op) q = true) ops.
Proof.
  induction ops as [|[r d] ops IH]; [done|].
  rewrite fmap_cons. change (leaf_entry (r, d) :: (leaf_entry <$> ops))
    with ([leaf_entry (r, d)] ++ (leaf_entry <$> ops)).
  rewrite hits_app, hits_singleton, IH, filter_cons. simpl.
  destruct (overlaps r q) eqn:E.
  - by rewrite decide_True by done.
  - by rewrite decide_False by congruence.
Qed.

Lemma index_inv_data t ops e :
  index_inv t ops -> e ∈ all_leaf_entries (nodes t) -> is_Some (data e).
Proof.
  intros (_ & Hle & _) He. rewrite Hle in He.
  apply list_elem_of_fmap in He as (op & -> & _). by eexists.
Qed.

Lemma rangeQuery_is_Ok t ops q :
  index_inv t ops -> exists res, rangeQuery t q = Ok res.
Proof.
  intros Hinv. pose proof Hinv as ([lvl Hs] & _ & _).
  eapply (rangeQueryHelper_is_Ok lvl); [done| | |].
  - intros e. by apply (index_inv_data t ops).
  - by eapply shape_root_lt.
  - apply (shape_fuel _ _ Hs).
Qed.

(** A query on a reachable index returns the hits among the leaf entries
    below the root, which are the entries that were inserted. *)
Lemma rangeQuery_under c ops (s : Index DataT) q :
  build_reserved c ops = Ok s ->
  Forall (fun op => numeric (fst op) = true) ops \/ size ops <= MAX_ENTRIES ->
  exists lvl,
    rangeQuery s q =
      Ok (hits q (under (nodes s) (lvl (root_index s)) (root_index s))) /\
    under (nodes s) (lvl (root_index s)) (root_index s) ≡ₚ leaf_entry <$> ops.
Proof.
  intros Hb Hops.
  destruct (built_boxed c ops s Hb Hops) as (lvl & Hs & _ & Hdeep & Hperm).
  destruct (built c ops s Hb) as (_ & Hinv & _).
  exists lvl. split; [|done]. unfold rangeQuery.
  apply (rangeQueryHelper_exact lvl s q _ _ [] Hs).
  - intros e. by apply (index_inv_data s ops).
  - done.
  - by eapply shape_root_lt.
  - apply (shape_fuel _ _ Hs).
Qed.

Lemma fle_antisym x y : fle x y = true -> fle y x = true -> feq x y = true.
Proof.
  unfold fle, feq, SFleb, SFeqb. rewrite (SFcompare_antisym x y).
  by destruct (SFcompare x y) as [[]|].
Qed.

Lemma fle_false_flt x y :
  is_nan x = false -> is_nan y = false ->
  fle x y = false <-> flt y x = true.
Proof.
  intros Hx Hy. split.
  - intros H. destruct (flt y x) eqn:E; [done|].
    by rewrite (not_flt_fle y x Hy Hx E) in H.
  - apply flt_not_fle.
Qed.


(** C2. In every reachable index, built by N insertions, the leaf nodes of
    the arena hold N entries in all. *)
Theorem leaf_entry_count_build c ops (s : Index DataT) :
  build_reserved c ops = Ok s -> leaf_entry_count s = size ops.
Proof.
  intros Hb. destruct (built c ops s Hb) as (_ & (_ & Hle & _) & _).
  unfold leaf_entry_count, size. by rewrite Hle, length_fmap.
Qed.

(** C3. [overlaps] is false exactly when the rectangles are separated on an
    axis, a shared boundary counting as separation; the rectangles
    [0,0,5,5] and [5,0,10,5] do not overlap. *)
Theorem overlaps_separated (a b : Rectangle) :
  (overlaps a b = false <->
   fge (x_min a) (x_max b) = true \/ fle (x_max a) (x_min b) = true \/
   fge (y_min a) (y_max b) = true \/ fle (y_max a) (y_min b) = true) /\
  overlaps (rect 0 0 5 5) (rect 5 0 10 5) = false.
Proof.
  split; [|done]. unfold overlaps.
  rewrite negb_false_iff, !orb_true_iff. tauto.
Qed.

(** C4, as amended. In the distribution loop of a split, every entry but the
    two seeds, in storage order, goes to the split node when the area increase
    of the bounding rectangle of the first seed is strictly smaller than that
    of the bounding rectangle of the second seed, and to the new node
    otherwise; an entry with equal area increases goes to the new node. *)
Theorem split_groups_distribution es :
  2 <= size es ->
  exists seed1 seed2 s1 s2,
    pickSeeds es = (seed1, seed2) /\
    at_ es seed1 = Ok s1 /\ at_ es seed2 = Ok s2 /\
    split_groups es =
      Ok (s1 :: filter (closer_to_first s1 s2)
                  (remaining_from es 0 seed1 seed2),
          s2 :: filter (fun e => ~ closer_to_first s1 s2 e)
                  (remaining_from es 0 seed1 seed2)) /\
    forall e,
      feq (area_increase (bounding_box s1) e)
          (area_increase (bounding_box s2) e) = true ->
      ~ closer_to_first s1 s2 e.
Proof.
  intros Hlen. unfold split_groups.
  destruct (pickSeeds es) as [seed1 seed2] eqn:Hp.
  destruct (pickSeeds_ok es seed1 seed2 Hlen Hp) as [H12 H2].
  destruct (at_is_Ok es seed1) as [s1 Hs1]; [lia|].
  destruct (at_is_Ok es seed2) as [s2 Hs2]; [lia|].
  exists seed1, seed2, s1, s2. rewrite Hs1, Hs2. simpl.
  split; [done|]. split; [done|]. split; [done|]. split.
  - by rewrite distribute_spec.
  - intros e. unfold closer_to_first, feq, flt, SFeqb, SFltb.
    by destruct (SFcompare _ _) as [[]|].
Qed.

(** C6, as amended. In a reachable index built from rectangles without NaN
    bounds, or by at most [MAX_ENTRIES] insertions, take an inserted pair whose
    rectangle is legal and a query rectangle that contains it. The query
    returns the value when the rectangle overlaps the query rectangle, which
    here says that it reaches past each border of the query rectangle on the
    inside: it does when its width and height are positive, and when it does
    not, a side of no extent lies on a border of the query rectangle. *)
Theorem rangeQuery_finds_contained c ops (s : Index DataT) r v q :
  build_reserved c ops = Ok s ->
  Forall (fun op => numeric (fst op) = true) ops \/ size ops <= MAX_ENTRIES ->
  (r, v) ∈ ops -> legal r = true -> covers q r = true ->
  (overlaps r q = true <->
   flt (x_min r) (x_max q) = true /\ flt (x_min q) (x_max r) = true /\
   flt (y_min r) (y_max q) = true /\ flt (y_min q) (y_max r) = true) /\
  (flt (x_min r) (x_max r) = true -> flt (y_min r) (y_max r) = true ->
   overlaps r q = true) /\
  (overlaps r q = false ->
   (feq (x_min r) (x_max r) = true /\
    (feq (x_min r) (x_min q) = true \/ feq (x_max r) (x_max q) = true)) \/
   (feq (y_min r) (y_max r) = true /\
    (feq (y_min r) (y_min q) = true \/ feq (y_max r) (y_max q) = true))) /\
  exists res, rangeQuery s q = Ok res /\ (overlaps r q = true -> v ∈ res).
Proof.
  intros Hb Hops Hin Hleg Hq.
  assert (overlaps r q = true <->
          flt (x_min r) (x_max q) = true /\ flt (x_min q) (x_max r) = true /\
          flt (y_min r) (y_max q) = true /\ flt (y_min q) (y_max r) = true)
    as Hov.
  { destruct (covers_numeric _ _ Hq) as [Hnq Hnr].
    apply numeric_iff in Hnq as (?&?&?&?). apply numeric_iff in Hnr as (?&?&?&?).
    unfold overlaps. rewrite negb_true_iff, !orb_false_iff, !fge_fle.
    rewrite !fle_false_flt by done. tauto. }
  split; [done|]. split; [|split].
  - intros Hw Hh. by apply covers_overlaps.
  - intros Hno. apply covers_iff in Hq as (Hx & Hy & HX & HY).
    unfold legal in Hleg. apply andb_true_iff in Hleg as [Hlx Hly].
    unfold overlaps in Hno.
    rewrite negb_false_iff, !orb_true_iff, !fge_fle in Hno.
    destruct Hno as [[[H|H]|H]|H].
    + left. split.
      * apply fle_antisym; [done|]. by eapply fle_trans.
      * right. apply fle_antisym; [done|]. by eapply fle_trans.
    + left. split.
      * apply fle_antisym; [done|]. by eapply fle_trans.
      * left. apply fle_antisym; [|done]. by eapply fle_trans.
    + right. split.
      * apply fle_antisym; [done|]. by eapply fle_trans.
      * right. apply fle_antisym; [done|]. by eapply fle_trans.
    + right. split.
      * apply fle_antisym; [done|]. by eapply fle_trans.
      * left. apply fle_antisym; [|done]. by eapply fle_trans.
  - destruct (rangeQuery_under c ops s q Hb Hops) as (lvl & Hr & Hperm).
    eexists. split; [done|]. intros Hrq.
    unfold hits. rewrite Hperm. apply list_elem_of_omap.
    exists (leaf_entry (r, v)). split; [|done].
    apply list_elem_of_filter. split; [done|].
    by apply list_elem_of_fmap_2.
Qed.


(** C8 fails on the code. The insertion number [MAX_ENTRIES + 1] into a new
    index splits the root leaf: [createNode] and [push_back] find [nodes] full
    and reallocate it, and [splitNode] then reads [node.entries[0]] through the
    reference [node] that it took before. *)
Theorem insert_dangling_reference ops r d :
  size ops = MAX_ENTRIES ->
  exists s, build ops = Ok s /\ insert s r d = Err DanglingReference.
Proof.
  intros Hlen.
  assert (build ops =
          Ok (mkIndex (mkRTree [mkNode true (leaf_entry <$> ops)] 0) 1))
    as Hb.
  { rewrite build_unreserved.
    rewrite (build_refines 0 ops _ (build_stable_small ops ltac:(lia))).
    done. }
  eexists. split; [done|].
  destruct (insert_built 0 ops _ r d Hb) as (t' & Hin & _ & ->).
  assert (3 <= size (nodes t')).
  { apply (build_stable_nodes (ops ++ [(r, d)])).
    - rewrite size_app, size_cons, size_nil. lia.
    - unfold build_stable. rewrite insert_all_app.
      fold (build_stable ops). rewrite (build_stable_small ops) by lia.
      simpl. cbn [members] in Hin. by rewrite Hin. }
  cbn [capacity]. case_leb; [lia|done].
Qed.


(** C10. In every reachable index, every entry of a leaf holds a value,
    every entry of an internal node refers to a node of the arena that is one
    level below, leaves being the nodes of level 0; and [rangeQuery] returns a
    list for every query rectangle. *)
Theorem entries_well_formed c ops (s : Index DataT) :
  build_reserved c ops = Ok s ->
  exists lvl,
    (forall i n e,
       at_ (nodes s) i = Ok n -> is_leaf n = true -> e ∈ entries n ->
       is_Some (data e)) /\
    (forall i n e,
       at_ (nodes s) i = Ok n -> is_leaf n = false -> e ∈ entries n ->
       child_index e < size (nodes s) /\
       S (lvl (child_index e)) = lvl i) /\
    (forall i n, at_ (nodes s) i = Ok n -> (is_leaf n = true <-> lvl i = O)) /\
    forall q, exists res, rangeQuery s q = Ok res.
Proof.
  intros Hb. destruct (built c ops s Hb) as (_ & Hinv & _).
  pose proof Hinv as ([lvl Hs] & _ & _). exists lvl.
  split; [|split; [|split]].
  - intros i n e Hn Hl He. apply (index_inv_data s ops); [done|].
    by eapply leaf_entry_elem.
  - intros i n e Hn Hl He. split.
    + by eapply shape_child_lt.
    + by eapply shape_child_lvl.
  - intros i n Hn. by eapply shape_inner_level.
  - intros q. by eapply rangeQuery_is_Ok.
Qed.

End Claims.
(** ** The claims on sample runs *)



Lemma leaf_entry_count_build_witness :
  leaf_entry_count diagonal6 = size diagonal_ops.
Proof.
  apply (leaf_entry_count_build 4 diagonal_ops diagonal6).
  vm_compute. reflexivity.
Defined.

Lemma split_groups_distribution_witness :
  exists seed1 seed2 s1 s2,
    pickSeeds (leaf_entry <$> tie_ops) = (seed1, seed2) /\
    at_ (leaf_entry <$> tie_ops) seed1 = Ok s1 /\
    at_ (leaf_entry <$> tie_ops) seed2 = Ok s2 /\
    split_groups (leaf_entry <$> tie_ops) =
      Ok (s1 :: filter (closer_to_first s1 s2)
                  (remaining_from (leaf_entry <$> tie_ops) 0 seed1 seed2),
          s2 :: filter (fun e => ~ closer_to_first s1 s2 e)
                  (remaining_from (leaf_entry <$> tie_ops) 0 seed1 seed2)) /\
    forall e,
      feq (area_increase (bounding_box s1) e)
          (area_increase (bounding_box s2) e) = true ->
      ~ closer_to_first s1 s2 e.
Proof.
  apply (split_groups_distribution (leaf_entry <$> tie_ops)).
  vm_compute. discriminate.
Defined.

(** C4, as stated, fails twice. On [tie_ops] the entry of value 3 needs the
    same area increase in either group, and goes to the new node, not to the
    split node. On [drift_ops] no two area increases are equal: the entry of
    value 4 is nearer to the bounding rectangle of the first group, which the
    entry of value 3 has joined, than to the second group, and goes to the new
    node all the same, for it is farther from the first seed than from the
    second. *)
Lemma distribution_not_as_claimed :
  (exists s1 s2 e3 e4 e5,
     leaf_entry <$> tie_ops = [s1; s2; e3; e4; e5] /\
     pickSeeds (leaf_entry <$> tie_ops) = (0, 1) /\
     feq (area_increase (bounding_box s1) e3)
         (area_increase (bounding_box s2) e3) = true /\
     split_groups (leaf_entry <$> tie_ops) = Ok ([s1; e4], [s2; e3; e5]) /\
     split_groups_claimed (leaf_entry <$> tie_ops) =
       Ok ([s1; e3; e4], [s2; e5])) /\
  (exists s1 s2 e3 e4 e5 m1,
     leaf_entry <$> drift_ops = [s1; s2; e3; e4; e5] /\
     pickSeeds (leaf_entry <$> drift_ops) = (0, 1) /\
     mbr [s1; e3] = Ok m1 /\
     flt (area_increase m1 e4) (area_increase (bounding_box s2) e4) = true /\
     flt (area_increase (bounding_box s2) e4)
         (area_increase (bounding_box s1) e4) = true /\
     split_groups (leaf_entry <$> drift_ops) = Ok ([s1; e3; e5], [s2; e4]) /\
     split_groups_claimed (leaf_entry <$> drift_ops) =
       Ok ([s1; e3; e4; e5], [s2])).
Proof.
  split.
  - by eexists _, _, _, _, _.
  - by eexists _, _, _, _, _, _.
Qed.

(** C5 on the entries of [nested_ops]. The seed loops replace the initial
    seeds 0 and 1 only by a pair whose [area_diff] is above the initial
    [max_area_diff] of -1: when no pair is, the seeds stay 0 and 1 whichever
    pair has the largest [area_diff]. The five rectangles of [nested_ops] are
    such: the split keeps the entries 0 and 1 as seeds, though the pair (0, 2)
    has a larger [area_diff] than the pair (0, 1). *)
Theorem pickSeeds_keeps_initial_seeds :
  (forall es : list (Entry Z),
     (forall ei ej, ei ∈ es -> ej ∈ es ->
        fgt (area_diff ei ej) minus_one = false) ->
     pickSeeds es = (0, 1)) /\
  exists e0 e1 e2 e3 e4,
    leaf_entry <$> nested_ops = [e0; e1; e2; e3; e4] /\
    pickSeeds (leaf_entry <$> nested_ops) = (0, 1) /\
    flt (area_diff e0 e1) (area_diff e0 e2) = true /\
    split_groups (leaf_entry <$> nested_ops) = Ok ([e0], [e1; e2; e3; e4]).
Proof.
  split; [apply pickSeeds_below|]. by eexists _, _, _, _, _.
Qed.

(** C6, as stated, fails. A rectangle of width 0 on the border of the query
    rectangle is contained in it and is not found. And in [nan_deep_index],
    whose leaves hold three rectangles of NaN bounds, the query rectangle
    [3,9,6,12] contains the rectangle [4,10,5,11] of the value 8 and does not
    find it. *)
Lemma contained_rect_not_found :
  (legal (rect 5 0 5 5) = true /\
   covers (rect 0 0 5 5) (rect 5 0 5 5) = true /\
   build [(rect 5 0 5 5, 7%Z)] ≫=
     (fun s : Index Z => rangeQuery s (rect 0 0 5 5)) = Ok []) /\
  (build_reserved 8 nan_deep_ops = Ok nan_deep_index /\
   (rect 4 10 5 11, 8%Z) ∈ nan_deep_ops /\
   legal (rect 4 10 5 11) = true /\
   covers (rect 3 9 6 12) (rect 4 10 5 11) = true /\
   overlaps (rect 4 10 5 11) (rect 3 9 6 12) = true /\
   rangeQuery nan_deep_index (rect 3 9 6 12) = Ok [7%Z]).
Proof.
  split; [done|]. split; [vm_compute; reflexivity|]. split; [|done].
  apply (list_elem_of_lookup_2 _ 7%nat). reflexivity.
Qed.

(** A rectangle of no extent inside the query rectangle is found. *)
Lemma rangeQuery_finds_contained_witness :
  exists res,
    rangeQuery point_index (rect 0 0 5 5) = Ok res /\ 9%Z ∈ res.
Proof.
  destruct (rangeQuery_finds_contained 4 point_ops point_index
              (rect 3 3 3 3) 9%Z (rect 0 0 5 5))
    as (_ & _ & _ & res & Hres & Hin).
  - vm_compute. reflexivity.
  - left. repeat constructor.
  - apply (list_elem_of_lookup_2 _ 5%nat). reflexivity.
  - reflexivity.
  - reflexivity.
  - exists res. split; [|by apply Hin]. exact Hres.
Defined.



Lemma insert_dangling_reference_witness :
  exists s : Index Z,
    build sample4 = Ok s /\
    insert s (rect 21 21 25 25) 5%Z = Err DanglingReference.
Proof.
  apply (insert_dangling_reference sample4 (rect 21 21 25 25) 5%Z).
  reflexivity.
Defined.



Lemma entries_well_formed_witness :
  exists lvl,
    (forall i n e,
       at_ (nodes diagonal7) i = Ok n -> is_leaf n = true -> e ∈ entries n ->
       is_Some (data e)) /\
    (forall i n e,
       at_ (nodes diagonal7) i = Ok n -> is_leaf n = false -> e ∈ entries n ->
       child_index e < size (nodes diagonal7) /\
       S (lvl (child_index e)) = lvl i) /\
    (forall i n,
       at_ (nodes diagonal7) i = Ok n -> (is_leaf n = true <-> lvl i = O)) /\
    forall q, exists res, rangeQuery diagonal7 q = Ok res.
Proof.
  apply (entries_well_formed 4 (diagonal_ops ++ [(rect 4 4 5 5, 7%Z)])
           diagonal7).
  vm_compute. reflexivity.
Defined.

(** * Further properties of the code *)

(** ** Rectangle: overlaps and expand *)

Section MoreGeometry.

Lemma flt_irrefl x : flt x x = false.
Proof.
  destruct (flt x x) eqn:E; [|done].
  pose proof (flt_not_fle _ _ E) as H. by rewrite (flt_fle _ _ E) in H.
Qed.

Lemma flt_not_nan x y : flt x y = true -> is_nan x = false /\ is_nan y = false.
Proof. intros H. by apply fle_not_nan, flt_fle. Qed.

Lemma flt_negb_fle x y :
  is_nan x = false -> is_nan y = false -> flt x y = negb (fle y x).
Proof.
  intros Hx Hy. destruct (flt x y) eqn:E.
  - by rewrite (flt_not_fle _ _ E).
  - by rewrite (not_flt_fle _ _ Hx Hy E).
Qed.

Lemma flt_trans x y z : flt x y = true -> flt y z = true -> flt x z = true.
Proof. intros Hxy Hyz. eapply flt_fle_trans; [done|]. by apply flt_fle. Qed.

Lemma flt_asym x y : flt x y = true -> flt y x = false.
Proof.
  intros H. destruct (flt y x) eqn:E; [|done].
  pose proof (flt_trans _ _ _ H E) as H'. by rewrite (flt_irrefl x) in H'.
Qed.

Lemma is_nan_fmin a b : is_nan (fmin a b) = is_nan a.
Proof.
  unfold fmin. destruct (flt b a) eqn:E; [|done].
  by destruct (flt_not_nan _ _ E) as [-> ->].
Qed.

Lemma is_nan_fmax a b : is_nan (fmax a b) = is_nan a.
Proof.
  unfold fmax. destruct (flt a b) eqn:E; [|done].
  by destruct (flt_not_nan _ _ E) as [-> ->].
Qed.

Lemma fmin_nan_r a b : is_nan b = true -> fmin a b = a.
Proof.
  unfold fmin. destruct (flt b a) eqn:E; [|done].
  destruct (flt_not_nan _ _ E) as [Hb _]. congruence.
Qed.

Lemma fmax_nan_r a b : is_nan b = true -> fmax a b = a.
Proof.
  unfold fmax. destruct (flt a b) eqn:E; [|done].
  destruct (flt_not_nan _ _ E) as [_ Hb]. congruence.
Qed.

(** X1. [overlaps] is symmetric, whatever the bounds of the two rectangles
    are, NaN included. *)
Theorem overlaps_sym a b : overlaps a b = overlaps b a.
Proof.
  unfold overlaps. rewrite !fge_fle.
  destruct (fle (x_max b) (x_min a)), (fle (x_max a) (x_min b)),
    (fle (y_max b) (y_min a)), (fle (y_max a) (y_min b)); done.
Qed.

(** X2. A rectangle whose bounds are numbers overlaps itself exactly when
    it has positive width and positive height: a degenerate rectangle does not
    overlap itself. *)
Theorem overlaps_self r :
  numeric r = true ->
  overlaps r r = flt (x_min r) (x_max r) && flt (y_min r) (y_max r).
Proof.
  intros (?&?&?&?)%numeric_iff. unfold overlaps.
  rewrite !fge_fle, !flt_negb_fle by done.
  destruct (fle (x_max r) (x_min r)), (fle (y_max r) (y_min r)); done.
Qed.

(** X3. For rectangles whose bounds are numbers, [expand] computes the least
    rectangle that contains the receiver and the argument. *)
Theorem expand_least_cover a b :
  numeric a = true -> numeric b = true ->
  numeric (expand a b) = true /\
  covers (expand a b) a = true /\ covers (expand a b) b = true /\
  forall c, covers c a = true -> covers c b = true ->
            covers c (expand a b) = true.
Proof.
  intros Ha Hb. split; [by apply expand_numeric|].
  split; [by apply expand_covers_l|]. split; [by apply expand_covers_r|].
  intros c. apply expand_least.
Qed.

(** X4. On rectangles whose bounds are numbers, [expand] is idempotent,
    commutative and associative, the last two up to mutual containment (the
    results can differ in the sign of a zero bound only). *)
Theorem expand_semilattice a b c :
  numeric a = true -> numeric b = true -> numeric c = true ->
  expand a a = a /\
  covers (expand a b) (expand b a) = true /\
  covers (expand (expand a b) c) (expand a (expand b c)) = true /\
  covers (expand a (expand b c)) (expand (expand a b) c) = true.
Proof.
  intros Ha Hb Hc.
  pose proof (expand_numeric _ _ Ha Hb) as Hab.
  pose proof (expand_numeric _ _ Hb Hc) as Hbc.
  split; [|split; [|split]].
  - destruct a as [x y X Y]. unfold expand, fmin, fmax. simpl.
    by rewrite !flt_irrefl.
  - apply expand_least; [by apply expand_covers_r|by apply expand_covers_l].
  - apply expand_least.
    + eapply covers_trans; [by apply expand_covers_l|by apply expand_covers_l].
    + apply expand_least.
      * eapply covers_trans; [by apply expand_covers_l|by apply expand_covers_r].
      * by apply expand_covers_r.
  - apply expand_least.
    + apply expand_least; [by apply expand_covers_l|].
      eapply covers_trans; [by apply expand_covers_r|by apply expand_covers_l].
    + eapply covers_trans; [by apply expand_covers_r|by apply expand_covers_r].
Qed.

(** X5. [expand] and NaN: [std::min] and [std::max] keep a NaN receiver and
    skip a NaN argument. So each bound of the result is a NaN exactly where the
    bound of the receiver is one, and a NaN bound of the argument leaves the
    bound of the receiver as it is. *)
Theorem expand_nan a b :
  is_nan (x_min (expand a b)) = is_nan (x_min a) /\
  is_nan (y_min (expand a b)) = is_nan (y_min a) /\
  is_nan (x_max (expand a b)) = is_nan (x_max a) /\
  is_nan (y_max (expand a b)) = is_nan (y_max a) /\
  numeric (expand a b) = numeric a /\
  (is_nan (x_min b) = true -> x_min (expand a b) = x_min a) /\
  (is_nan (y_min b) = true -> y_min (expand a b) = y_min a) /\
  (is_nan (x_max b) = true -> x_max (expand a b) = x_max a) /\
  (is_nan (y_max b) = true -> y_max (expand a b) = y_max a).
Proof.
  split; [apply is_nan_fmin|]. split; [apply is_nan_fmin|].
  split; [apply is_nan_fmax|]. split; [apply is_nan_fmax|]. split.
  - unfold numeric. simpl. by rewrite !is_nan_fmin, !is_nan_fmax.
  - simpl. auto using fmin_nan_r, fmax_nan_r.
Qed.

(** The same for the second rectangle. *)
Lemma overlaps_covers_r p q i :
  covers p q = true -> overlaps i q = true -> overlaps i p = true.
Proof.
  rewrite covers_iff. unfold overlaps.
  rewrite !negb_true_iff, !orb_false_iff, !fge_fle.
  intros (Hx&Hy&HX&HY) (((H1&H2)&H3)&H4). repeat split.
  - destruct (fle (x_max p) (x_min i)) eqn:E; [|done].
    by rewrite (fle_trans _ _ _ HX E) in H1.
  - destruct (fle (x_max i) (x_min p)) eqn:E; [|done].
    by rewrite (fle_trans _ _ _ E Hx) in H2.
  - destruct (fle (y_max p) (y_min i)) eqn:E; [|done].
    by rewrite (fle_trans _ _ _ HY E) in H3.
  - destruct (fle (y_max i) (y_min p)) eqn:E; [|done].
    by rewrite (fle_trans _ _ _ E Hy) in H4.
Qed.

(** X6. [overlaps] is monotone: rectangles that contain two overlapping
    rectangles overlap. This is what makes the pruning of [rangeQueryHelper]
    sound. *)
Theorem overlaps_monotone o i p q :
  covers o i = true -> covers p q = true -> overlaps i q = true ->
  overlaps o p = true.
Proof.
  intros Ho Hp Hov. apply (overlaps_covers_r p q o Hp).
  apply (overlaps_covers o i q Ho Hov).
Qed.

End MoreGeometry.

(** ** The loops: mbr, chooseLeaf, the seeds *)

Section MoreLoops.

Context {DataT : Type}.
Implicit Types (e s : Entry DataT) (es g : list (Entry DataT)).
Implicit Types (st c : seeds) (l : list seeds).

(** *** mbr *)

(** X7. [mbr], the loop that [splitNode] runs three times, fails on an empty
    vector of entries; on entries whose bounds are numbers it returns the least
    rectangle that contains the bounding rectangle of every entry. *)
Theorem mbr_least_cover es :
  Forall (fun e => numeric (bounding_box e) = true) es ->
  match mbr es with
  | Ok m =>
      es <> [] /\ numeric m = true /\
      (forall e, e ∈ es -> covers m (bounding_box e) = true) /\
      (forall c : Rectangle,
         (forall e, e ∈ es -> covers c (bounding_box e) = true) ->
         covers c m = true)
  | Err err => es = [] /\ err = OutOfRange
  end.
Proof.
  intros Hes. rewrite Forall_forall in Hes.
  destruct (mbr es) as [m|err] eqn:Hm.
  - destruct (mbr_covers es m Hm Hes) as [Hnum Hcov].
    split; [by intros ->|]. split; [done|]. split; [done|].
    intros c Hc. by eapply mbr_least.
  - destruct es as [|e0 es]; [|done]. by injection Hm as <-.
Qed.

(** X8. The bounding rectangle of a vector of entries does not depend on the
    order of the entries, up to mutual containment (the sign of a zero
    bound). *)
Theorem mbr_permutation es es' m :
  Forall (fun e => numeric (bounding_box e) = true) es ->
  es ≡ₚ es' -> mbr es = Ok m ->
  exists m', mbr es' = Ok m' /\ covers m m' = true /\ covers m' m = true.
Proof.
  intros Hes Hp Hm. rewrite Forall_forall in Hes.
  assert (es' <> []) as Hne.
  { intros ->. apply Permutation_nil_r in Hp as ->. done. }
  destruct (mbr_is_Ok es' Hne) as [m' Hm']. exists m'. split; [done|].
  destruct (mbr_covers es m Hm Hes) as [_ Hcov].
  destruct (mbr_covers es' m' Hm') as [_ Hcov'].
  { intros e He. apply Hes. by rewrite Hp. }
  split.
  - eapply mbr_least; [done|]. intros e He. apply Hcov. by rewrite Hp.
  - eapply mbr_least; [done|]. intros e He. apply Hcov'. by rewrite <-Hp.
Qed.

(** *** The loop of chooseLeaf *)

Lemma flt_keeps x a m :
  flt x m = false -> flt a m = true -> flt x a = false.
Proof.
  intros Hx Ha. destruct (flt x a) eqn:E; [|done].
  by rewrite (flt_trans _ _ _ E Ha) in Hx.
Qed.

Lemma flt_beats x a m :
  flt x m = false -> flt a m = true ->
  is_nan x = true \/ flt a x = true.
Proof.
  intros Hx Ha. destruct (is_nan x) eqn:E; [by left|right].
  destruct (flt_not_nan _ _ Ha) as [_ Hm].
  eapply flt_fle_trans; [done|]. by apply not_flt_fle.
Qed.

Lemma chooseLeaf_scan_inv rect es i best m :
  let b := chooseLeaf_scan rect es i best m in
  (b = best /\ forall e, e ∈ es -> flt (enlargement rect e) m = false) \/
  exists eb, i <= b /\ at_ es (b - i) = Ok eb /\
    flt (enlargement rect eb) m = true /\
    (forall e, e ∈ es ->
       flt (enlargement rect e) (enlargement rect eb) = false) /\
    forall j e, at_ es j = Ok e -> i + j < b ->
      is_nan (enlargement rect e) = true \/
      flt (enlargement rect eb) (enlargement rect e) = true.
Proof.
  revert i best m. induction es as [|e es IH]; intros i best m.
  { left. split; [done|]. by intros ? ?%elem_of_nil. }
  cbn [chooseLeaf_scan]. cbv zeta.
  change (fsub (area (expand (bounding_box e) rect)) (area (bounding_box e)))
    with (enlargement rect e).
  destruct (flt (enlargement rect e) m) eqn:Hem.
  - destruct (IH (i + 1) i (enlargement rect e))
      as [[-> Hall]|(eb & Hib & Hat & Hbe & Hall & Hfirst)]; right.
    + exists e. split; [lia|]. rewrite N.sub_diag. split; [done|].
      split; [done|]. split.
      * intros e' [->|He']%elem_of_cons; [apply flt_irrefl|by apply Hall].
      * intros j e' _ Hj. lia.
    + exists eb. split; [lia|].
      rewrite at_cons_pos by lia.
      replace (chooseLeaf_scan rect es (i + 1) i (enlargement rect e) - i - 1)
        with (chooseLeaf_scan rect es (i + 1) i (enlargement rect e) - (i + 1))
        by lia.
      split; [done|]. split; [by eapply flt_trans|]. split.
      * intros e' [->|He']%elem_of_cons; [by apply flt_asym|by apply Hall].
      * intros j e' Hj Hlt. destruct (decide (j = 0)) as [->|Hj0].
        { injection Hj as <-. by right. }
        rewrite at_cons_pos in Hj by lia. apply (Hfirst (j - 1)); [done|lia].
  - destruct (IH (i + 1) best m)
      as [[-> Hall]|(eb & Hib & Hat & Hbe & Hall & Hfirst)]; [left|right].
    + split; [done|]. intros e' [->|He']%elem_of_cons; [done|by apply Hall].
    + exists eb. split; [lia|].
      rewrite at_cons_pos by lia.
      replace (chooseLeaf_scan rect es (i + 1) best m - i - 1)
        with (chooseLeaf_scan rect es (i + 1) best m - (i + 1)) by lia.
      split; [done|]. split; [done|]. split.
      * intros e' [->|He']%elem_of_cons; [by eapply flt_keeps|by apply Hall].
      * intros j e' Hj Hlt. destruct (decide (j = 0)) as [->|Hj0].
        { injection Hj as <-. by eapply flt_beats. }
        rewrite at_cons_pos in Hj by lia. apply (Hfirst (j - 1)); [done|lia].
Qed.

(** X9. The loop of [chooseLeaf] selects the first entry, in storage order,
    whose area increase is the least one, among the entries whose area increase
    is below [FLT_MAX]; when no entry has an area increase below [FLT_MAX] (it
    is [FLT_MAX], infinite or a NaN for every entry), the loop selects the
    entry 0. *)
Theorem chooseLeaf_scan_first_min rect es :
  let b := chooseLeaf_scan rect es 0 0 FLT_MAX in
  (b = 0 /\ forall e, e ∈ es -> flt (enlargement rect e) FLT_MAX = false) \/
  exists eb, at_ es b = Ok eb /\
    flt (enlargement rect eb) FLT_MAX = true /\
    (forall e, e ∈ es ->
       flt (enlargement rect e) (enlargement rect eb) = false) /\
    forall j e, at_ es j = Ok e -> j < b ->
      is_nan (enlargement rect e) = true \/
      flt (enlargement rect eb) (enlargement rect e) = true.
Proof.
  destruct (chooseLeaf_scan_inv rect es 0 0 FLT_MAX)
    as [?|(eb & _ & Hat & Hb & Hall & Hfirst)]; [by left|right].
  rewrite N.sub_0_r in Hat. exists eb. split; [done|]. split; [done|].
  split; [done|]. intros j e Hj Hlt. apply (Hfirst j e Hj). lia.
Qed.

(** *** The seed loops of splitNode *)

Lemma pickSeeds_inner_fold ei i es j st :
  pickSeeds_inner ei i es j st = fold_left pick (pairs_with ei i es j) st.
Proof.
  revert j st. induction es as [|e es IH]; intros j st; [done|].
  simpl. by rewrite IH.
Qed.

Lemma pickSeeds_outer_fold es i st :
  pickSeeds_outer es i st = fold_left pick (pairs_from es i) st.
Proof.
  revert i st. induction es as [|e es IH]; intros i st; [done|].
  simpl. by rewrite fold_left_app, IH, pickSeeds_inner_fold.
Qed.

Lemma pick_first_max l st :
  let r := fold_left pick l st in
  (r = st /\ forall c, c ∈ l -> fgt (snd c) (snd st) = false) \/
  exists k : nat, l !! k = Some r /\ fgt (snd r) (snd st) = true /\
    (forall c, c ∈ l -> fgt (snd c) (snd r) = false) /\
    forall (k' : nat) c, l !! k' = Some c -> (k' < k)%nat ->
      is_nan (snd c) = true \/ flt (snd c) (snd r) = true.
Proof.
  revert st. induction l as [|x l IH]; intros st.
  { left. split; [done|]. by intros ? ?%elem_of_nil. }
  cbn [fold_left]. cbv zeta.
  destruct (fgt (snd x) (snd st)) eqn:Hx.
  - assert (pick st x = x) as -> by (unfold pick; by rewrite Hx).
    destruct (IH x) as [[Hr Hall]|(k & Hk & Hb & Hall & Hfirst)]; right.
    + exists 0%nat. cbv zeta in *. rewrite Hr. split; [done|]. split; [done|].
      split.
      * intros c [->|Hc]%elem_of_cons; [|by apply Hall].
        rewrite fgt_flt. apply flt_irrefl.
      * intros k' c _ Hlt. lia.
    + exists (S k). cbv zeta in *. split; [done|].
      rewrite !fgt_flt in *. split; [by eapply flt_trans|]. split.
      * intros c [->|Hc]%elem_of_cons.
        { rewrite fgt_flt. by apply flt_asym. }
        by apply Hall.
      * intros [|k'] c Hc Hlt.
        { injection Hc as <-. by right. }
        apply (Hfirst k' c Hc). lia.
  - assert (pick st x = st) as -> by (unfold pick; by rewrite Hx).
    destruct (IH st) as [[Hr Hall]|(k & Hk & Hb & Hall & Hfirst)]; [left|right].
    + split; [done|]. intros c [->|Hc]%elem_of_cons; [done|by apply Hall].
    + exists (S k). cbv zeta in *. split; [done|]. split; [done|].
      rewrite !fgt_flt in *. split.
      * intros c [->|Hc]%elem_of_cons.
        { rewrite fgt_flt.
          destruct (flt (snd (fold_left pick l st)) (snd x)) eqn:E; [|done].
          by rewrite (flt_trans _ _ _ Hb E) in Hx. }
        by apply Hall.
      * intros [|k'] c Hc Hlt.
        { injection Hc as <-.
          destruct (is_nan (snd x)) eqn:E; [by left|right].
          destruct (flt_not_nan _ _ Hb) as [Hst _].
          eapply fle_flt_trans; [|done]. by apply not_flt_fle. }
        apply (Hfirst k' c Hc). lia.
Qed.

Lemma lookup_pairs_with ei i es j (k : nat) :
  pairs_with ei i es j !! k =
  (fun ej => (i, j + N.of_nat k, area_diff ei ej)) <$> (es !! k).
Proof.
  revert j k. induction es as [|e es IH]; intros j [|k]; try done.
  - simpl. by rewrite N.add_0_r.
  - cbn [pairs_with]. rewrite !lookup_cons. rewrite IH.
    destruct (es !! k); [|done]. simpl. do 3 f_equal. lia.
Qed.

Lemma elem_pairs_with ei i es j a b d :
  (a, b, d) ∈ pairs_with ei i es j <->
  a = i /\ j <= b /\ exists ej, at_ es (b - j) = Ok ej /\ d = area_diff ei ej.
Proof.
  rewrite list_elem_of_lookup. split.
  - intros [k Hk]. rewrite lookup_pairs_with in Hk.
    destruct (es !! k) as [ej|] eqn:E; [|done]. simpl in Hk.
    injection Hk as <- <- <-. split; [done|]. split; [lia|].
    exists ej. split; [|done]. apply at_Ok.
    by replace (N.to_nat (j + N.of_nat k - j)) with k by lia.
  - intros (-> & Hb & ej & Hat%at_Ok & ->). exists (N.to_nat (b - j)).
    rewrite lookup_pairs_with, Hat. simpl. rewrite N2Nat.id.
    by replace (j + (b - j)) with b by lia.
Qed.

Lemma elem_pairs_from es i a b d :
  (a, b, d) ∈ pairs_from es i <->
  i <= a /\ a < b /\
  exists ei ej, at_ es (a - i) = Ok ei /\ at_ es (b - i) = Ok ej /\
                d = area_diff ei ej.
Proof.
  revert i. induction es as [|e es IH]; intros i.
  { split; [by intros ?%elem_of_nil|]. by intros (_ & _ & ? & ? & ? & _). }
  cbn [pairs_from]. rewrite elem_of_app, elem_pairs_with, IH. split.
  - intros [(-> & Hb & ej & Hat & ->)|(Ha & Hab & ei & ej & Hi & Hj & ->)].
    + split; [lia|]. split; [lia|]. exists e, ej.
      rewrite N.sub_diag, (at_cons_pos _ _ (b - i)) by lia.
      replace (b - i - 1) with (b - (i + 1)) by lia. done.
    + split; [lia|]. split; [lia|]. exists ei, ej.
      rewrite !at_cons_pos by lia.
      replace (a - i - 1) with (a - (i + 1)) by lia.
      replace (b - i - 1) with (b - (i + 1)) by lia. done.
  - intros (Ha & Hab & ei & ej & Hi & Hj & ->).
    rewrite at_cons_pos in Hj by lia.
    replace (b - i - 1) with (b - (i + 1)) in Hj by lia.
    destruct (decide (a = i)) as [->|Hne].
    + left. rewrite N.sub_diag in Hi. injection Hi as <-.
      split; [done|]. split; [lia|]. by exists ej.
    + right. rewrite at_cons_pos in Hi by lia.
      replace (a - i - 1) with (a - (i + 1)) in Hi by lia.
      split; [lia|]. split; [lia|]. by exists ei, ej.
Qed.

Lemma ordered_app l1 l2 :
  ordered l1 -> ordered l2 ->
  (forall c1 c2, c1 ∈ l1 -> c2 ∈ l2 -> before c1 c2) ->
  ordered (l1 ++ l2).
Proof.
  intros H1 H2 H12 k' k c' c Hk' Hk Hlt.
  apply lookup_app_Some in Hk' as [Hk'|[Hle' Hk']];
    apply lookup_app_Some in Hk as [Hk|[Hle Hk]].
  - by eapply H1.
  - eapply H12; by eapply list_elem_of_lookup_2.
  - apply lookup_lt_Some in Hk. lia.
  - eapply H2; [done..|]. lia.
Qed.

Lemma ordered_pairs_with ei i es j : ordered (pairs_with ei i es j).
Proof.
  intros k' k c' c Hk' Hk Hlt. rewrite lookup_pairs_with in Hk', Hk.
  destruct (es !! k'); [|done]. destruct (es !! k); [|done].
  injection Hk' as <-. injection Hk as <-. right. simpl. lia.
Qed.

Lemma ordered_pairs_from es i : ordered (pairs_from es i).
Proof.
  revert i. induction es as [|e es IH]; intros i.
  { by intros k' k c' c ?. }
  cbn [pairs_from]. apply ordered_app; [apply ordered_pairs_with|apply IH|].
  intros [[a b] d] [[a' b'] d'] (-> & _)%elem_pairs_with (? & _)%elem_pairs_from.
  left. simpl. lia.
Qed.

(** X10. The seed loops of [splitNode]. When some pair of entries (i, j),
    i < j, has an [area_diff] above -1, the seeds are the first pair, in the
    order of the loops, whose [area_diff] is the greatest; when none has, the
    seeds are the entries 0 and 1. *)
Theorem pickSeeds_first_max es :
  (pickSeeds es = (0, 1) /\
   forall i j ei ej, i < j -> at_ es i = Ok ei -> at_ es j = Ok ej ->
     fgt (area_diff ei ej) minus_one = false) \/
  exists seed1 seed2 e1 e2,
    pickSeeds es = (seed1, seed2) /\ seed1 < seed2 /\
    at_ es seed1 = Ok e1 /\ at_ es seed2 = Ok e2 /\
    fgt (area_diff e1 e2) minus_one = true /\
    forall i j ei ej, i < j -> at_ es i = Ok ei -> at_ es j = Ok ej ->
      fgt (area_diff ei ej) (area_diff e1 e2) = false /\
      (i < seed1 \/ (i = seed1 /\ j < seed2) ->
       is_nan (area_diff ei ej) = true \/
       flt (area_diff ei ej) (area_diff e1 e2) = true).
Proof.
  unfold pickSeeds. rewrite pickSeeds_outer_fold.
  assert (forall i j ei ej, i < j -> at_ es i = Ok ei -> at_ es j = Ok ej ->
            (i, j, area_diff ei ej) ∈ pairs_from es 0) as Hin.
  { intros i j ei ej Hij Hi Hj. apply elem_pairs_from.
    split; [lia|]. split; [done|]. exists ei, ej. by rewrite !N.sub_0_r. }
  destruct (pick_first_max (pairs_from es 0) (0, 1, minus_one))
    as [[-> Hall]|(k & Hk & Hb & Hall & Hfirst)]; [left|right].
  - split; [done|]. intros i j ei ej Hij Hi Hj.
    apply (Hall _ (Hin i j ei ej Hij Hi Hj)).
  - cbv zeta in *.
    destruct (fold_left pick (pairs_from es 0) (0, 1, minus_one))
      as [[seed1 seed2] d].
    pose proof (list_elem_of_lookup_2 _ _ _ Hk) as Hr.
    apply elem_pairs_from in Hr as (_ & H12 & e1 & e2 & H1 & H2 & ->).
    rewrite N.sub_0_r in H1, H2. exists seed1, seed2, e1, e2.
    split; [done|]. split; [done|]. split; [done|]. split; [done|].
    split; [done|]. intros i j ei ej Hij Hi Hj.
    pose proof (Hin i j ei ej Hij Hi Hj) as Hc. split; [by apply (Hall _ Hc)|].
    intros Hlex. apply list_elem_of_lookup_1 in Hc as [k' Hk'].
    apply (Hfirst k' _ Hk').
    destruct (decide (k' < k)%nat) as [|Hge]; [done|exfalso].
    unfold seeds in *.
    destruct (decide (k' = k)) as [Heq|Hne].
    + assert (Some (i, j, area_diff ei ej) =
              Some (seed1, seed2, area_diff e1 e2)) as [= ? ? _] by congruence.
      lia.
    + assert (k < k')%nat as Hlt by lia.
      pose proof (ordered_pairs_from es 0 k k' _ _ Hk Hk' Hlt) as Hbf.
      unfold before in Hbf. simpl in Hbf. lia.
Qed.

(** X11. The first part of [splitNode], the seeds and the distribution,
    fails on a vector of fewer than two entries (there is no second seed);
    otherwise it returns two groups, neither of them empty, that hold the
    entries of the vector, each of them once. *)
Theorem split_groups_partition es :
  match split_groups es with
  | Ok (g1, g2) =>
      2 <= size es /\ g1 <> [] /\ g2 <> [] /\ g1 ++ g2 ≡ₚ es /\
      size g1 + size g2 = size es
  | Err err => size es < 2 /\ err = OutOfRange
  end.
Proof.
  destruct (decide (2 <= size es)) as [Hlen|Hlen].
  - destruct (split_groups_Ok es Hlen) as (g1 & g2 & -> & Hp & Hg1 & Hg2).
    split; [done|]. split; [done|]. split; [done|]. split; [done|].
    rewrite <-size_app. unfold size. by rewrite Hp.
  - destruct es as [|e [|e' es]].
    + done.
    + done.
    + rewrite !size_cons in Hlen. lia.
Qed.

End MoreLoops.

(** ** The first insertions *)

Section Small.

Context {DataT : Type}.
Implicit Types (e : Entry DataT) (es g : list (Entry DataT)).
Implicit Types (n node parent : Node DataT) (ns : list (Node DataT)).
Implicit Types (t : RTree DataT) (lvl : N -> nat) (q r m : Rectangle).
Implicit Types (ops : list (Rectangle * DataT)) (d v : DataT).

(** X12. Up to [MAX_ENTRIES] insertions into a new index, the index is one
    leaf that holds the entries in the order of the insertions, in the storage
    for one node that the constructor has allocated; and a query returns the
    values of the rectangles that overlap the query rectangle in this order.
    The rectangles are arbitrary, NaN bounds included. *)
Theorem build_small ops q :
  size ops <= MAX_ENTRIES ->
  build ops = Ok (mkIndex (mkRTree [mkNode true (leaf_entry <$> ops)] 0) 1) /\
  rangeQuery (mkRTree [mkNode true (leaf_entry <$> ops)] 0) q =
    Ok (snd <$> filter (fun op => overlaps (fst op) q = true) ops).
Proof.
  intros Hlen. split.
  - rewrite build_unreserved.
    by rewrite (build_refines 0 ops _ (build_stable_small ops Hlen)).
  - by rewrite rangeQuery_single_leaf, hits_leaf_entries.
Qed.

(** X13. The insertion number [MAX_ENTRIES + 1] splits the root leaf. When
    [nodes] has storage for three nodes, the index then has three nodes: the
    leaf 0 with the first group of [split_groups], the new root at the handle
    1, and the new leaf at the handle 2 with the second group; the two entries
    of the root refer to the leaves 0 and 2 and hold the bounding rectangles of
    the two groups. With less storage the insertion stops at a reference that
    is no longer valid. *)
Theorem first_split_layout c ops :
  size ops = MAX_ENTRIES + 1 ->
  exists g1 g2 m1 m2,
    split_groups (leaf_entry <$> ops) = Ok (g1, g2) /\
    mbr g1 = Ok m1 /\ mbr g2 = Ok m2 /\
    build_reserved c ops =
      if 3 <=? c
      then Ok (mkIndex (mkRTree [mkNode true g1;
                                 mkNode false [link m1 0; link m2 2];
                                 mkNode true g2] 1) c)
      else Err DanglingReference.
Proof.
  intros Hlen.
  destruct (build_stable_first_split ops Hlen)
    as (g1 & g2 & m1 & m2 & Hg & Hm1 & Hm2 & Hb).
  exists g1, g2, m1, m2. split; [done|]. split; [done|]. split; [done|].
  rewrite (build_refines c ops _ Hb). cbn [nodes].
  rewrite !size_cons, size_nil.
  destruct (N.leb_spec 3 c).
  - rewrite N.max_r by lia. case_leb; [done|lia].
  - case_leb; [lia|done].
Qed.

End Small.

(** ** The number of entries of a node *)

Section Capacity.

Context {DataT : Type}.
Implicit Types (e : Entry DataT) (es g : list (Entry DataT)).
Implicit Types (n node parent : Node DataT) (ns : list (Node DataT)).
Implicit Types (t : RTree DataT) (lvl : N -> nat) (q r m : Rectangle).
Implicit Types (ops : list (Rectangle * DataT)) (d v : DataT).

Lemma group_sizes g1 g2 es :
  g1 ++ g2 ≡ₚ es -> g1 <> [] -> g2 <> [] -> size es <= MAX_ENTRIES + 1 ->
  (1 <= size g1 <= MAX_ENTRIES) /\ (1 <= size g2 <= MAX_ENTRIES).
Proof.
  intros Hp Hg1 Hg2 Hes. apply Permutation_length in Hp.
  rewrite length_app in Hp. unfold size in *.
  destruct g1; [done|]. destruct g2; [done|]. simpl in *. lia.
Qed.

(** A split of a node that holds one entry too many leaves every node with
    one entry at least and [MAX_ENTRIES] at most. *)
Lemma splitNode_capacity fuel lvl t k node t' :
  shape lvl t -> at_ (nodes t) k = Ok node ->
  size (entries node) = MAX_ENTRIES + 1 ->
  (forall i n, at_ (nodes t) i = Ok n -> i <> k ->
     1 <= size (entries n) <= MAX_ENTRIES) ->
  splitNode_stable fuel t k = Ok t' ->
  forall i n, at_ (nodes t') i = Ok n -> 1 <= size (entries n) <= MAX_ENTRIES.
Proof.
  revert lvl t k node.
  induction fuel as [|fuel IH]; intros lvl t k node Hs Hn Hsz Hcap; [done|].
  assert (2 <= size (entries node)) as Hsz2.
  { rewrite Hsz. unfold MAX_ENTRIES. lia. }
  destruct (split_groups_Ok _ Hsz2) as (g1 & g2 & Hgr & Hg & Hg1 & Hg2).
  destruct (group_sizes g1 g2 _ Hg Hg1 Hg2) as [Hc1 Hc2]; [lia|].
  pose proof (at_lt _ _ _ Hn) as Hlt.
  destruct (decide (k = root_index t)) as [Hk|Hk].
  - destruct (splitNode_root fuel t k node g1 g2 Hn Hgr Hg1 Hg2 Hk)
      as (m1 & m2 & Hm1 & Hm2 & ->).
    intros [= <-] i n Hi. cbn [nodes] in Hi.
    apply at_root_split in Hi as [[-> ->]|[[Hik Hi]|[[-> ->]|[-> ->]]]];
      [done|by eapply Hcap|..|done].
    + simpl. unfold size, MAX_ENTRIES. simpl. lia.
    + done.
  - destruct (findParent_split lvl t k node g1 g2 Hs Hn Hk Hg)
      as (p & parent & e0 & Hfp & Hpk & Hp & Hpl & He0 & Hc0).
    destruct (splitNode_inner fuel t k node g1 g2 p parent
                Hn Hgr Hg1 Hg2 Hk Hfp Hpk Hp)
      as (m1 & m2 & es' & Hm1 & Hm2 & HF & ->).
    pose proof (inner_split_shape lvl t k node g1 g2 p parent es' m1 m2 e0
                  Hs Hn Hp Hpl He0 Hc0 HF Hg Hg1 Hg2) as Hs'.
    pose proof (at_lt _ _ _ Hp) as Hplt.
    assert (size es' = size (entries parent)) as Hes'.
    { unfold size. by rewrite (Forall2_length _ _ _ HF). }
    pose proof (Hcap p parent Hp Hpk) as Hcp.
    assert (size (es' ++ [link (DataT:=DataT) m2 (size (nodes t))]) =
            size (entries parent) + 1) as Hsz'.
    { by rewrite size_app, size_cons, size_nil, Hes'. }
    cbv zeta.
    set (t4 := mkRTree (arena_inner_split (nodes t) k node g1 g2 p parent es' m2)
                       (root_index t)) in *.
    assert (forall i n, at_ (nodes t4) i = Ok n -> i <> p ->
              1 <= size (entries n) <= MAX_ENTRIES) as Hcap4.
    { intros i n Hi Hip. cbn [nodes t4] in Hi.
      apply at_inner_split in Hi as
        [[-> _]|[[-> ->]|[(_ & Hik & Hi)|[-> ->]]]]; [done|done| |done|done..].
      by eapply Hcap. }
    destruct (MAX_ENTRIES <? size (es' ++ [link m2 (size (nodes t))]))
      eqn:Hover.
    + apply N.ltb_lt in Hover.
      apply (IH (relevel lvl (size (nodes t)) (lvl k)) t4 p
               (set_entries parent (es' ++ [link m2 (size (nodes t))]))).
      * done.
      * by apply at_inner_split_parent.
      * simpl. lia.
      * done.
    + apply N.ltb_ge in Hover. intros [= <-] i n Hi.
      destruct (decide (i = p)) as [->|Hip]; [|by eapply Hcap4].
      cbn [nodes t4] in Hi. rewrite at_inner_split_parent in Hi by done.
      injection Hi as <-. simpl. lia.
Qed.

Lemma node_grown_size r n n' :
  node_grown r n n' -> size (entries n') = size (entries n).
Proof. intros (_ & _ & HF). unfold size. by rewrite (Forall2_length _ _ _ HF). Qed.

Lemma insert_capacity lvl t r d t' :
  shape lvl t ->
  (forall i n, at_ (nodes t) i = Ok n -> size (entries n) <= MAX_ENTRIES) ->
  (forall i n, at_ (nodes t) i = Ok n -> 1 <= size (entries n)) \/
    length (nodes t) = 1%nat ->
  insert_stable t r d = Ok t' ->
  forall i n, at_ (nodes t') i = Ok n -> 1 <= size (entries n) <= MAX_ENTRIES.
Proof.
  intros Hs Hcap Hpop.
  destruct (chooseLeaf_spec lvl r (length (nodes t)) t (root_index t) Hs)
    as (t1 & leaf & nl & Hcl & Hg & Hnl & Hl).
  { by eapply shape_root_lt. }
  { apply (shape_fuel _ _ Hs). }
  pose proof (grown_shape _ _ _ _ Hg Hs) as Hs1.
  set (e := Entry_new r (Some d)).
  set (t2 := set_node t1 leaf (set_entries nl (entries nl ++ [e]))).
  pose proof (append_leaf_shape lvl t1 leaf nl e Hs1 Hnl Hl) as Hs2.
  fold t2 in Hs2.
  pose proof (at_lt _ _ _ Hnl) as Hlt.
  assert (at_ (nodes t2) leaf = Ok (set_entries nl (entries nl ++ [e]))) as Hn2.
  { by apply at_insert_eq. }
  assert (size (entries nl) <= MAX_ENTRIES) as Hcl'.
  { destruct (grown_at _ _ _ _ _ Hg Hnl) as (n0 & Hn0 & Hgn).
    rewrite (node_grown_size _ _ _ Hgn). by eapply Hcap. }
  assert (forall i n, at_ (nodes t2) i = Ok n -> i <> leaf ->
            1 <= size (entries n) <= MAX_ENTRIES) as Hcap2.
  { intros i n [[-> ->]|[_ Hi]]%at_set_node Hne; [done|].
    destruct (grown_at _ _ _ _ _ Hg Hi) as (n0 & Hn0 & Hgn).
    rewrite (node_grown_size _ _ _ Hgn). split; [|by eapply Hcap].
    destruct Hpop as [Hpop|Hone]; [by eapply Hpop|].
    apply at_lt in Hi. unfold size in *.
    rewrite (grown_length _ _ _ Hg) in *. lia. }
  unfold insert_stable. rewrite Hcl. simpl. rewrite Hnl. simpl. fold e. fold t2.
  assert (size (entries nl ++ [e]) = size (entries nl) + 1) as Hsz.
  { by rewrite size_app, size_cons, size_nil. }
  destruct (MAX_ENTRIES <? size (entries nl ++ [e])) eqn:Hover.
  - apply N.ltb_lt in Hover. intros Hsp.
    apply (splitNode_capacity (length (nodes t)) lvl t2 leaf _ t' Hs2 Hn2);
      [|done..].
    simpl. lia.
  - apply N.ltb_ge in Hover. intros [= <-] i n Hi.
    destruct (decide (i = leaf)) as [->|Hne]; [|by eapply Hcap2].
    rewrite Hn2 in Hi. injection Hi as <-. simpl. lia.
Qed.

Lemma insert_all_capacity t ops0 ops :
  index_inv t ops0 ->
  (forall i n, at_ (nodes t) i = Ok n -> size (entries n) <= MAX_ENTRIES) ->
  (forall i n, at_ (nodes t) i = Ok n -> 1 <= size (entries n)) \/
    length (nodes t) = 1%nat ->
  exists t', insert_all_stable t ops = Ok t' /\
    forall i n, at_ (nodes t') i = Ok n ->
      size (entries n) <= MAX_ENTRIES /\ (ops <> [] -> 1 <= size (entries n)).
Proof.
  revert t ops0. induction ops as [|[r d] ops IH]; intros t ops0 Hinv Hcap Hpop.
  { exists t. split; [done|]. intros i n Hi. split; [by eapply Hcap|done]. }
  destruct (insert_inv t ops0 r d Hinv) as (t1 & Hin & Hinv1).
  pose proof Hinv as ([lvl Hs] & _).
  pose proof (insert_capacity lvl t r d t1 Hs Hcap Hpop Hin) as Hcap1.
  destruct (IH t1 _ Hinv1) as (t' & Hall & Hcap').
  { intros i n Hi. by apply (Hcap1 i n). }
  { left. intros i n Hi. by apply (Hcap1 i n). }
  exists t'. simpl. rewrite Hin. simpl. split; [done|].
  intros i n Hi. destruct (Hcap' i n Hi) as [Hle Hge]. split; [done|].
  intros _. destruct ops as [|op ops]; [|by apply Hge].
  injection Hall as <-. by apply (Hcap1 i n).
Qed.

(** The same for an index built on stable storage. *)
Lemma build_stable_capacity ops :
  exists t,
    build_stable ops = Ok t /\
    forall n, n ∈ nodes t ->
      size (entries n) <= MAX_ENTRIES /\ (ops <> [] -> 1 <= size (entries n)).
Proof.
  destruct (insert_all_capacity RTree_new_stable [] ops) as (t & Hb & Hcap).
  - apply new_inv.
  - intros i n Hi%at_elem. apply list_elem_of_singleton in Hi as ->. done.
  - by right.
  - exists t. split; [done|]. intros n [i Hi]%elem_at. by apply (Hcap i n).
Qed.

End Capacity.

(** X14. In every reachable index, no node holds more than [MAX_ENTRIES]
    entries, and after one insertion at least no node is empty. One entry is
    the least that is guaranteed: [MIN_ENTRIES] is not enforced by a split, and
    the insertions [nested_ops] leave a leaf with one entry. *)
Theorem node_capacity {DataT : Type} c (ops : list (Rectangle * DataT))
    (s : Index DataT) :
  build_reserved c ops = Ok s ->
  (forall n, n ∈ nodes s ->
     size (entries n) <= MAX_ENTRIES /\ (ops <> [] -> 1 <= size (entries n))) /\
  (build_reserved 3 nested_ops = Ok nested_index /\
   exists n, n ∈ nodes nested_index /\ size (entries n) < MIN_ENTRIES).
Proof.
  intros Hb. split.
  - destruct (build_stable_capacity ops) as (t & Hst & Hcap).
    destruct (built c ops s Hb) as (Hst' & _).
    by assert (t = members s) as -> by congruence.
  - split; [vm_compute; reflexivity|]. eexists. split.
    + apply (list_elem_of_lookup_2 _ 0%nat). reflexivity.
    + reflexivity.
Qed.

(** ** findParent and chooseLeaf on an index built by insertions *)

Section Parents.

Context {DataT : Type}.
Implicit Types (e : Entry DataT) (es g : list (Entry DataT)).
Implicit Types (n node parent : Node DataT) (ns : list (Node DataT)).
Implicit Types (t : RTree DataT) (lvl : N -> nat) (q r m : Rectangle).
Implicit Types (ops : list (Rectangle * DataT)) (d v : DataT).

Lemma findParent_from_Err ns i c err :
  findParent_from ns i c = Err err ->
  err = ParentNotFound /\ c ∉ all_children ns.
Proof.
  revert i. induction ns as [|n ns IH]; intros i.
  { intros [= <-]. split; [done|]. by intros ?%elem_of_nil. }
  cbn [findParent_from].
  destruct (negb (is_leaf n) && existsb _ (entries n)) eqn:E; [done|].
  intros [-> Hc]%IH. split; [done|].
  unfold all_children. rewrite bind_cons, elem_of_app. intros [Hn|?]; [|done].
  unfold children_of in Hn.
  destruct (is_leaf n); [by apply elem_of_nil in Hn|]. simpl in E.
  apply list_elem_of_fmap in Hn as (e & -> & He).
  apply not_true_iff_false in E. apply E, refers_to. eauto.
Qed.

(** X15. [findParent] on a reachable index. For a handle of the arena other
    than the root it returns the one node that has an entry which refers to
    the handle. For the root, and for a number that is not a handle of the
    arena, it raises its exception. *)
Theorem findParent_built c ops (s : Index DataT) k :
  build_reserved c ops = Ok s ->
  match findParent s k with
  | Ok p =>
      k < size (nodes s) /\ k <> root_index s /\
      exists n e,
        at_ (nodes s) p = Ok n /\ is_leaf n = false /\
        e ∈ entries n /\ child_index e = k /\
        forall p' n' e',
          at_ (nodes s) p' = Ok n' -> is_leaf n' = false ->
          e' ∈ entries n' -> child_index e' = k -> p' = p
  | Err err =>
      err = ParentNotFound /\ (k = root_index s \/ size (nodes s) <= k)
  end.
Proof.
  intros Hb. destruct (built c ops s Hb) as (_ & ([lvl Hs] & _) & _).
  destruct (findParent s k) as [p|err] eqn:Hfp.
  - destruct (findParent_inv _ _ _ Hfp) as (n & e & Hn & Hl & He & Hc).
    split; [|split].
    + rewrite <-Hc. by eapply shape_child_lt.
    + intros ->. apply (shape_root_orphan _ _ Hs). rewrite <-Hc.
      by eapply all_children_elem.
    + exists n, e. split; [done|]. split; [done|]. split; [done|].
      split; [done|]. intros p' n' e' Hn' Hl' [j' Hj']%elem_at Hc'.
      apply elem_at in He as [j Hj].
      by destruct (shape_unique_ref _ _ _ _ _ _ _ _ _ _ Hs
                     Hn' Hl' Hj' Hn Hl Hj) as [-> _]; [congruence|].
  - apply findParent_from_Err in Hfp as [-> Hc]. split; [done|].
    destruct (decide (k = root_index s)) as [|Hr]; [by left|right].
    destruct (N.le_gt_cases (size (nodes s)) k) as [|Hlt]; [done|].
    destruct Hc. by eapply shape_has_parent.
Qed.

(** X16. [chooseLeaf], started at the root of a reachable index, returns the
    handle of a leaf. On its way it changes bounding rectangles of entries of
    internal nodes, and nothing else: the root, the number of nodes and every
    leaf stay as they are, and every entry of an internal node keeps its place,
    its reference and its value, with its bounding rectangle as it was or
    expanded by the rectangle to insert. *)
Theorem chooseLeaf_effect c ops (s : Index DataT) r :
  build_reserved c ops = Ok s ->
  exists t1 leaf n,
    chooseLeaf (length (nodes s)) s (root_index s) r = Ok (t1, leaf) /\
    at_ (nodes t1) leaf = Ok n /\ is_leaf n = true /\
    root_index t1 = root_index s /\ length (nodes t1) = length (nodes s) /\
    (forall i n0, at_ (nodes s) i = Ok n0 -> is_leaf n0 = true ->
       at_ (nodes t1) i = Ok n0) /\
    (forall i n0 j e,
       at_ (nodes s) i = Ok n0 -> is_leaf n0 = false ->
       at_ (entries n0) j = Ok e ->
       exists n1 e1,
         at_ (nodes t1) i = Ok n1 /\ is_leaf n1 = false /\
         size (entries n1) = size (entries n0) /\
         at_ (entries n1) j = Ok e1 /\
         child_index e1 = child_index e /\ data e1 = data e /\
         (bounding_box e1 = bounding_box e \/
          bounding_box e1 = expand (bounding_box e) r)).
Proof.
  intros Hb. destruct (built c ops s Hb) as (_ & ([lvl Hs] & _) & _).
  destruct (chooseLeaf_spec lvl r (length (nodes s)) s (root_index s) Hs)
    as (t1 & leaf & n & Hcl & Hg & Hn & Hl).
  { by eapply shape_root_lt. }
  { apply (shape_fuel _ _ Hs). }
  exists t1, leaf, n. split; [done|]. split; [done|].
  split; [done|]. split; [by destruct Hg|].
  split; [by eapply grown_length|]. split.
  - intros i n0 Hi Hl0.
    destruct (grown_at_l _ _ _ _ _ Hg Hi) as (n1 & Hn1 & _ & Heq & _).
    by rewrite Hn1, Heq.
  - intros i n0 j e Hi Hl0 Hj.
    destruct (grown_at_l _ _ _ _ _ Hg Hi) as (n1 & Hn1 & Hgn).
    pose proof Hgn as (Hl1 & _ & HF). apply at_Ok in Hj.
    destruct (Forall2_lookup_l _ _ _ _ _ HF Hj) as (e1 & Hj1 & Hge).
    exists n1, e1. split; [done|]. split; [congruence|].
    split; [by eapply node_grown_size|]. split; [by apply at_Ok|].
    destruct Hge as [-> | ->]; simpl; auto.
Qed.

End Parents.

(** ** rangeQuery, whatever the rectangles are, and with insert *)

Section Queries.

Context {DataT : Type}.
Implicit Types (e : Entry DataT) (es g : list (Entry DataT)).
Implicit Types (n node parent : Node DataT) (ns : list (Node DataT)).
Implicit Types (t : RTree DataT) (lvl : N -> nat) (q r m : Rectangle).
Implicit Types (ops : list (Rectangle * DataT)) (d v : DataT).
Implicit Types (acc res : list DataT).

Lemma sublist_omap {A B} (f : A -> option B) (l1 l2 : list A) :
  l1 `sublist_of` l2 -> omap f l1 `sublist_of` omap f l2.
Proof.
  induction 1 as [|x l1 l2 _ IH|x l1 l2 _ IH]; simpl.
  - constructor.
  - destruct (f x); [by constructor|done].
  - destruct (f x); [by constructor|done].
Qed.

Lemma omap_bind {A B C} (f : A -> list B) (g : B -> option C) (l : list A) :
  omap g (l ≫= f) = l ≫= (fun x => omap g (f x)).
Proof.
  induction l as [|a l IH]; [done|]. by rewrite !bind_cons, omap_app, IH.
Qed.

Lemma filter_all {A} (P : A -> Prop) `{forall x, Decision (P x)} (l : list A) :
  (forall x, x ∈ l -> P x) -> filter P l = l.
Proof.
  induction l as [|a l IH]; intros HP; [done|].
  rewrite filter_cons, decide_True by (apply HP; left).
  f_equal. apply IH. intros. apply HP. by right.
Qed.

Lemma filter_sublist_impl {A} (P Q : A -> Prop)
    `{forall x, Decision (P x)} `{forall x, Decision (Q x)} (l : list A) :
  (forall x, x ∈ l -> P x -> Q x) -> filter P l `sublist_of` filter Q l.
Proof.
  induction l as [|a l IH]; intros HPQ; [done|].
  assert (filter P l `sublist_of` filter Q l) as Hl.
  { apply IH. intros. apply HPQ; [by right|done]. }
  rewrite !filter_cons. destruct (decide (P a)) as [HP|HP].
  - rewrite decide_True by (apply HPQ; [left|done]). by constructor.
  - destruct (decide (Q a)); [by constructor|done].
Qed.

(** What [rangeQueryHelper] returns, whatever the bounding rectangles are:
    the values of the entries that the pruned traversal reaches. *)
Lemma rangeQueryHelper_found lvl t q fuel i acc :
  shape lvl t ->
  (forall e, e ∈ all_leaf_entries (nodes t) -> is_Some (data e)) ->
  i < size (nodes t) -> (lvl i < fuel)%nat ->
  rangeQueryHelper fuel t i q acc =
  Ok (acc ++ omap data (found (nodes t) q (lvl i) i)).
Proof.
  intros Hs Hdata. revert i acc.
  induction fuel as [|fuel IH]; intros i acc Hi Hf; [lia|].
  rewrite rangeQueryHelper_S. destruct (at_is_Ok _ _ Hi) as [n Hn].
  rewrite Hn. simpl. destruct (is_leaf n) eqn:Hl.
  - rewrite (shape_leaf _ _ Hs i n Hn Hl). cbn [found].
    rewrite (entries_at_Ok _ _ _ Hn).
    change (omap data (filter _ (entries n))) with (hits q (entries n)).
    rewrite <-hits_entries.
    apply for_each_app. intros e acc' He. rewrite hits_singleton.
    destruct (overlaps (bounding_box e) q); [|by rewrite app_nil_r].
    destruct (Hdata e) as [d ->]; [by eapply leaf_entry_elem|]. done.
  - destruct (shape_inner _ _ Hs i n Hn Hl) as [Hne Hlv].
    destruct (lvl i) as [|h] eqn:Hli.
    { destruct (entries n) as [|e es]; [done|].
      by specialize (Hlv e (list_elem_of_here _ _)). }
    cbn [found]. rewrite (entries_at_Ok _ _ _ Hn), omap_bind.
    rewrite <-(bind_filter _
                 (fun e => if overlaps (bounding_box e) q
                           then omap data (found (nodes t) q h (child_index e))
                           else [])).
    + apply for_each_app. intros e acc' He.
      assert (lvl (child_index e) = h) as Hce.
      { specialize (Hlv e He). lia. }
      destruct (overlaps (bounding_box e) q) eqn:Hov.
      * rewrite IH, Hce; [done| |lia]. by eapply shape_child_lt.
      * by rewrite app_nil_r.
    + intros e _ Hov. by apply not_true_is_false in Hov as ->.
    + by intros e _ ->.
Qed.

Lemma found_sublist ns q h i :
  found ns q h i `sublist_of`
  filter (fun e => overlaps (bounding_box e) q = true) (under ns h i).
Proof.
  revert i. induction h as [|h IH]; intros i; [done|].
  cbn [found under]. induction (entries_at ns i) as [|e es IHes]; [done|].
  rewrite filter_cons, bind_cons, filter_app.
  destruct (decide (overlaps (bounding_box e) q = true)).
  - rewrite bind_cons. by apply sublist_app.
  - by apply sublist_inserts_l.
Qed.

Lemma found_all ns q h i :
  (forall r, overlaps r q = true) -> found ns q h i = under ns h i.
Proof.
  intros Hq. revert i. induction h as [|h IH]; intros i; cbn [found under];
    rewrite filter_all by (intros; apply Hq); [done|].
  apply bind_ext_elem. intros. apply IH.
Qed.

Lemma rangeQuery_found c ops (s : Index DataT) :
  build_reserved c ops = Ok s ->
  exists lvl,
    under (nodes s) (lvl (root_index s)) (root_index s) ≡ₚ leaf_entry <$> ops /\
    forall q,
      rangeQuery s q =
      Ok (omap data (found (nodes s) q (lvl (root_index s)) (root_index s))).
Proof.
  intros Hb. destruct (built c ops s Hb) as (_ & Hinv & _).
  pose proof Hinv as ([lvl Hs] & Hle & _).
  exists lvl. split; [by rewrite (under_root _ _ Hs)|].
  intros q. unfold rangeQuery.
  apply (rangeQueryHelper_found lvl s q _ _ [] Hs).
  - intros e. by apply (index_inv_data s ops).
  - by eapply shape_root_lt.
  - apply (shape_fuel _ _ Hs).
Qed.

(** X17. On a reachable index, every value that [rangeQuery] returns is the
    value of an inserted pair whose rectangle overlaps the query rectangle, and
    no pair is returned more often than it was inserted. This holds for all
    rectangles, NaN bounds included: a bound that is a NaN can make a query
    miss a value, never return a wrong one. *)
Theorem rangeQuery_sound c ops (s : Index DataT) q :
  build_reserved c ops = Ok s ->
  exists res,
    rangeQuery s q = Ok res /\
    res ⊆+ snd <$> filter (fun op => overlaps (fst op) q = true) ops.
Proof.
  intros Hb. destruct (rangeQuery_found c ops s Hb) as (lvl & Hperm & Hq).
  eexists. split; [apply Hq|].
  rewrite <-hits_leaf_entries. unfold hits. rewrite <-Hperm.
  apply sublist_submseteq, sublist_omap, found_sublist.
Qed.

(** X18. A query rectangle that overlaps every rectangle (one whose four
    bounds are NaN) prunes nothing: on a reachable index [rangeQuery] returns
    every value that was inserted, whatever the inserted rectangles are. *)
Theorem rangeQuery_all c ops (s : Index DataT) q :
  build_reserved c ops = Ok s ->
  (forall r, overlaps r q = true) ->
  exists res, rangeQuery s q = Ok res /\ res ≡ₚ snd <$> ops.
Proof.
  intros Hb Hall. destruct (rangeQuery_found c ops s Hb) as (lvl & Hperm & Hq).
  eexists. split; [apply Hq|].
  rewrite (found_all _ _ _ _ Hall), Hperm.
  clear. induction ops as [|[r d] ops IH]; [done|].
  rewrite !fmap_cons. simpl. by rewrite IH.
Qed.

(** X19. [insert] and [rangeQuery]: after an insertion that returns, a query
    returns what it returned before, and the new value besides when the new
    rectangle overlaps the query rectangle. The rectangles have numbers as
    bounds. *)
Theorem rangeQuery_after_insert c ops (s s' : Index DataT) r d q :
  build_reserved c ops = Ok s -> insert s r d = Ok s' ->
  Forall (fun op => numeric (fst op) = true) ops -> numeric r = true ->
  exists res res',
    rangeQuery s q = Ok res /\ rangeQuery s' q = Ok res' /\
    res' ≡ₚ res ++ (if overlaps r q then [d] else []).
Proof.
  intros Hb Hin Hops Hr.
  destruct (rangeQuery_under c ops s q Hb) as (lvl & Hq & Hperm); [by left|].
  destruct (rangeQuery_under c (ops ++ [(r, d)]) s' q)
    as (lvl' & Hq' & Hperm').
  { by rewrite build_reserved_snoc, Hb. }
  { left. apply Forall_app. split; [done|]. by apply Forall_singleton. }
  eexists _, _. split; [done|]. split; [done|].
  unfold hits at 1 2. rewrite Hperm', Hperm. fold (hits q (leaf_entry <$> ops)).
  rewrite fmap_app.
  fold (hits q ((leaf_entry <$> ops) ++ (leaf_entry <$> [(r, d)]))).
  rewrite hits_app. f_equiv.
  change (leaf_entry <$> [(r, d)]) with [leaf_entry (r, d)].
  rewrite hits_singleton. simpl. by destruct (overlaps r q).
Qed.

(** X20. The result of a query does not depend on the order of the
    insertions, as a multiset: two sequences of insertions of the same pairs
    that both build an index build indexes that answer every query alike. The
    rectangles have numbers as bounds. *)
Theorem rangeQuery_order_irrelevant c c' ops ops' (s s' : Index DataT) q :
  build_reserved c ops = Ok s -> build_reserved c' ops' = Ok s' ->
  Forall (fun op => numeric (fst op) = true) ops -> ops ≡ₚ ops' ->
  exists res res',
    rangeQuery s q = Ok res /\ rangeQuery s' q = Ok res' /\ res ≡ₚ res'.
Proof.
  intros Hb Hb' Hops Hp.
  assert (Forall (fun op => numeric (fst op) = true) ops') as Hops'.
  { by rewrite <-Hp. }
  destruct (rangeQuery_under c ops s q Hb) as (lvl & Hq & Hperm); [by left|].
  destruct (rangeQuery_under c' ops' s' q Hb') as (lvl' & Hq' & Hperm');
    [by left|].
  eexists _, _. split; [done|]. split; [done|].
  unfold hits. by rewrite Hperm, Hperm', Hp.
Qed.

(** X21. [rangeQuery] is monotone in the query rectangle: on a reachable
    index, a query rectangle that contains another one returns every value that
    the other one returns. The inserted rectangles have numbers as bounds. *)
Theorem rangeQuery_monotone c ops (s : Index DataT) p q :
  build_reserved c ops = Ok s ->
  Forall (fun op => numeric (fst op) = true) ops -> covers p q = true ->
  exists res res',
    rangeQuery s q = Ok res /\ rangeQuery s p = Ok res' /\ res ⊆+ res'.
Proof.
  intros Hb Hops Hpq.
  destruct (rangeQuery_under c ops s q Hb) as (lvl & Hq & Hperm); [by left|].
  destruct (rangeQuery_under c ops s p Hb) as (lvl' & Hq' & Hperm');
    [by left|].
  eexists _, _. split; [done|]. split; [done|].
  unfold hits. rewrite Hperm, Hperm'.
  apply sublist_submseteq, sublist_omap, filter_sublist_impl.
  intros e _ Hov.
  by apply (overlaps_covers_r p q).
Qed.

End Queries.

(** ** The bounding rectangles are minimal *)

Section Tight.

Context {DataT : Type}.
Implicit Types (e : Entry DataT) (es g : list (Entry DataT)).
Implicit Types (n node parent : Node DataT) (ns : list (Node DataT)).
Implicit Types (t : RTree DataT) (lvl : N -> nat) (q r m b : Rectangle).
Implicit Types (ops : list (Rectangle * DataT)) (d v : DataT).

Lemma relink_NoDup es k nes m :
  NoDup (child_index <$> es) -> mbr nes = Ok m ->
  relink es k nes = Ok (relabel k m <$> es).
Proof.
  intros Hnd Hm. induction es as [|e es IH]; [done|].
  rewrite fmap_cons in Hnd. apply NoDup_cons in Hnd as [Hne Hnd].
  cbn [relink]. rewrite fmap_cons. unfold relabel at 1.
  destruct (N.eqb_spec (child_index e) k) as [Hk|Hk].
  - rewrite Hm. simpl. do 2 f_equal.
    rewrite <-(list_fmap_id es) at 1. apply list_fmap_ext. intros j x Hx.
    unfold relabel. destruct (N.eqb_spec (child_index x) k) as [Hxk|]; [|done].
    destruct Hne. rewrite Hk, <-Hxk. apply list_elem_of_fmap_2.
    by eapply list_elem_of_lookup_2.
  - rewrite IH by done. done.
Qed.

Lemma relabel_relinked k m es : Forall2 (relinked k m) es (relabel k m <$> es).
Proof.
  induction es as [|e es IH]; [constructor|]. rewrite fmap_cons.
  constructor; [|done]. unfold relabel, relinked.
  destruct (N.eqb_spec (child_index e) k); auto.
Qed.

Lemma shape_NoDup_entries lvl t p parent :
  shape lvl t -> at_ (nodes t) p = Ok parent -> is_leaf parent = false ->
  NoDup (child_index <$> entries parent).
Proof.
  intros Hs Hp Hl.
  destruct (NoDup_bind_inv _ _ (shape_NoDup _ _ Hs)) as [Hin _].
  specialize (Hin parent (at_elem _ _ _ Hp)). unfold children_of in Hin.
  by rewrite Hl in Hin.
Qed.

Lemma chooseLeaf_tight lvl r fuel t i t1 leaf :
  numeric r = true -> shape lvl t -> all_numeric t ->
  (forall j, j <> i -> tight_at t j) -> pending_tight t i r ->
  chooseLeaf fuel t i r = Ok (t1, leaf) ->
  (forall j, j <> leaf -> tight_at t1 j) /\ pending_tight t1 leaf r.
Proof.
  intros Hr. revert t i.
  induction fuel as [|fuel IH]; intros t i Hs Hnum Htight Hpen; [done|].
  rewrite chooseLeaf_S. intros (node & Hn & H)%bind_Ok.
  destruct (is_leaf node) eqn:Hl; [by injection H as <- <-|].
  simpl in H. apply bind_Ok in H as (e & He & H).
  pose proof (expand_entry_grown r t i node _ e Hn Hl He) as Hg.
  pose proof (at_elem _ _ _ He) as Hin.
  pose proof (at_lt _ _ _ Hn) as Hi.
  assert (numeric (bounding_box e) = true) as Hnume by eauto using at_elem.
  set (bi := chooseLeaf_scan r (entries node) 0 0 FLT_MAX) in *.
  set (e' := set_bounding_box e (expand (bounding_box e) r)) in *.
  set (node' := set_entries node (<[N.to_nat bi := e']> (entries node))) in *.
  assert (forall x, x ∈ entries node' ->
            x = e' \/ (x ∈ entries node)) as Hentries.
  { intros x [j Hj]%list_elem_of_lookup_1. simpl in Hj.
    apply list_lookup_insert_Some in Hj as [(_ & <- & _)|[_ Hj]]; [by left|].
    right. by eapply list_elem_of_lookup_2. }
  assert (forall b,
            (forall x, x ∈ entries node' -> covers b (bounding_box x) = true) ->
            (forall x, x ∈ entries node -> covers b (bounding_box x) = true) /\
            covers b r = true) as Hcov.
  { intros b Hb.
    assert (covers b (expand (bounding_box e) r) = true) as Hbe.
    { apply (Hb e'). simpl. apply (list_elem_of_lookup_2 _ (N.to_nat bi)).
      apply list_lookup_insert_eq. apply at_Ok, lookup_lt_Some in He. done. }
    split.
    - intros x [j Hj]%list_elem_of_lookup_1.
      destruct (decide (j = N.to_nat bi)) as [->|Hne].
      + apply at_Ok in He. assert (x = e) as -> by congruence.
        eapply covers_trans; [done|]. by apply expand_covers_l.
      + apply Hb. simpl. apply (list_elem_of_lookup_2 _ j).
        by rewrite list_lookup_insert_ne.
    - eapply covers_trans; [done|]. by apply expand_covers_r. }
  assert (forall y, y ∈ entries node -> child_index y <> i) as Hlvl.
  { intros y Hy Heq. pose proof (shape_child_lvl _ _ _ _ _ Hs Hn Hl Hy).
    rewrite Heq in *. lia. }
  apply (IH _ _ (grown_shape _ _ _ _ Hg Hs)) in H; [done| | |].
  - (* all_numeric *)
    intros n x [p Hpn]%elem_at Hx.
    apply at_set_node in Hpn as [[-> ->]|[_ Hpn]]; [|by eauto using at_elem].
    apply Hentries in Hx as [->|Hx]; [|by eauto using at_elem].
    by apply expand_numeric.
  - (* the other entries *)
    intros j Hj p n x c b Hpn Hnl Hx Hxj Hc Hb.
    apply at_set_node in Hpn as [[-> ->]|[Hpi Hpn]].
    + apply Hentries in Hx as [->|Hx]; [done|].
      assert (j <> i) as Hji by (rewrite <-Hxj; by apply Hlvl).
      apply at_set_node in Hc as [[? _]|[_ Hc]]; [done|].
      by apply (Htight j Hji i node x c b).
    + apply at_set_node in Hc as [[-> ->]|[Hji Hc]].
      * destruct (Hcov b Hb) as [Hb' Hbr].
        by apply (Hpen p n x node b).
      * by apply (Htight j Hji p n x c b).
  - (* the entry that the descent follows *)
    intros p n x c b Hpn Hnl Hx Hxc Hc Hb Hbr.
    assert (child_index e <> i) as Hci by by apply Hlvl.
    apply at_set_node in Hc as [[? _]|[_ Hc]]; [done|].
    apply elem_at in Hx as [j Hj].
    apply at_set_node in Hpn as [[-> ->]|[Hpi Hpn]].
    + simpl in Hj. apply at_Ok, list_lookup_insert_Some in Hj
        as [(_ & <- & _)|[Hjb Hj]].
      { simpl. apply expand_least; [|done].
        by apply (Htight (child_index e) Hci i node e c b). }
      apply at_Ok in Hj.
      destruct (shape_unique_ref _ _ _ _ _ _ _ _ _ _ Hs Hn Hl Hj Hn Hl He Hxc).
      lia.
    + destruct (shape_unique_ref _ _ _ _ _ _ _ _ _ _ Hs Hpn Hnl Hj Hn Hl He Hxc).
      done.
Qed.

Lemma append_leaf_tight t leaf n r d :
  (forall j, j <> leaf -> tight_at t j) -> pending_tight t leaf r ->
  at_ (nodes t) leaf = Ok n -> is_leaf n = true ->
  tight (set_node t leaf
           (set_entries n (entries n ++ [Entry_new r (Some d)]))).
Proof.
  intros Htight Hpen Hn Hl j p nn x c b Hp Hnl Hx Hxj Hc Hb.
  apply at_set_node in Hp as [[-> ->]|[_ Hp]].
  { simpl in Hnl. congruence. }
  apply at_set_node in Hc as [[-> ->]|[Hne Hc]].
  - apply (Hpen p nn x n b); [done..| |].
    + intros e' He'. apply Hb. simpl. apply elem_of_app. by left.
    + apply (Hb (Entry_new r (Some d))). simpl. apply elem_of_app. right.
      by apply list_elem_of_singleton.
  - by apply (Htight j Hne p nn x c b).
Qed.

Lemma root_split_tight lvl t k node g1 g2 m1 m2 :
  shape lvl t -> tight t ->
  k = root_index t -> at_ (nodes t) k = Ok node ->
  g1 ++ g2 ≡ₚ entries node -> mbr g1 = Ok m1 -> mbr g2 = Ok m2 ->
  tight (mkRTree (arena_root_split (nodes t) k node g1 g2 m1 m2)
                 (size (nodes t))).
Proof.
  intros Hs Htight Hk Hn Hg Hm1 Hm2.
  pose proof (at_lt _ _ _ Hn) as Hlt.
  (* entries that were in the arena before the split *)
  assert (forall i n e c b,
            at_ (nodes t) i = Ok n -> is_leaf n = false -> e ∈ entries n ->
            at_ (arena_root_split (nodes t) k node g1 g2 m1 m2)
                (child_index e) = Ok c ->
            (forall e', e' ∈ entries c -> covers b (bounding_box e') = true) ->
            covers b (bounding_box e) = true) as Hold.
  { intros i n e c b Hi Hl He Hc Hb.
    pose proof (shape_child_lt _ _ _ _ _ Hs Hi Hl He) as Hclt.
    apply at_root_split in Hc as
      [[Hck ->]|[[_ Hc]|[[? _]|[? _]]]]; [| |lia|lia|done].
    - exfalso. apply (shape_root_orphan _ _ Hs). rewrite <-Hk, <-Hck.
      by eapply all_children_elem.
    - by apply (Htight (child_index e) i n e c b). }
  intros j i n e c b Hi Hl He <- Hc Hb. cbn [nodes] in Hi, Hc.
  apply at_root_split in Hi as
    [[-> ->]|[[_ Hi]|[[-> ->]|[-> ->]]]]; [..|done]; simpl in He, Hl.
  - eapply (Hold k node); [done..| |done|done]. by eapply group_l.
  - by eapply (Hold i n).
  - apply elem_of_cons in He as [-> | ->%list_elem_of_singleton];
      simpl in Hc |- *.
    + apply at_root_split in Hc as
        [[_ ->]|[[? _]|[[? _]|[? _]]]]; [|done|lia|lia|done].
      by eapply mbr_least.
    + apply at_root_split in Hc as
        [[? _]|[[_ Hc]|[[? _]|[_ ->]]]]; [lia| |lia| |done].
      { apply at_lt in Hc. lia. }
      by eapply mbr_least.
  - eapply (Hold k node); [done..| |done|done]. by eapply group_r.
Qed.

Lemma inner_split_tight lvl t k node g1 g2 p parent m1 m2 e0 :
  shape lvl t -> all_numeric t -> tight t ->
  at_ (nodes t) k = Ok node -> at_ (nodes t) p = Ok parent -> p <> k ->
  is_leaf parent = false -> e0 ∈ entries parent -> child_index e0 = k ->
  g1 ++ g2 ≡ₚ entries node -> mbr g1 = Ok m1 -> mbr g2 = Ok m2 ->
  tight (mkRTree (arena_inner_split (nodes t) k node g1 g2 p parent
                    (relabel k m1 <$> entries parent) m2)
                 (root_index t)).
Proof.
  intros Hs Hnum Htight Hn Hp Hpk Hpl He0 Hc0 Hg Hm1 Hm2.
  pose proof (at_lt _ _ _ Hn) as Hlt.
  pose proof (at_lt _ _ _ Hp) as Hplt.
  set (es' := relabel k m1 <$> entries parent).
  destruct (mbr_covers g1 m1 Hm1) as [_ Hc1].
  { apply (group_numeric t k node g1 Hnum Hn). intros. by eapply group_l. }
  destruct (mbr_covers g2 m2 Hm2) as [_ Hc2].
  { apply (group_numeric t k node g2 Hnum Hn). intros. by eapply group_r. }
  (* what contains the two new bounding rectangles contains the entries of
     the node before the split *)
  assert (forall b x, covers b m1 = true -> covers b m2 = true ->
            x ∈ entries node -> covers b (bounding_box x) = true) as Hnode.
  { intros b x Hb1 Hb2 Hx. rewrite <-Hg in Hx.
    apply elem_of_app in Hx as [Hx|Hx].
    - eapply covers_trans; [apply Hb1|by apply Hc1].
    - eapply covers_trans; [apply Hb2|by apply Hc2]. }
  (* and then the entries of the parent before the split *)
  assert (forall b,
            (forall x, x ∈ es' ++ [link m2 (size (nodes t))] ->
                       covers b (bounding_box x) = true) ->
            forall y, y ∈ entries parent ->
                      covers b (bounding_box y) = true) as Hparent.
  { intros b Hb y Hy.
    assert (covers b (bounding_box (relabel k m1 y)) = true) as Hry.
    { apply Hb, elem_of_app. left. by apply list_elem_of_fmap_2. }
    unfold relabel in Hry.
    destruct (N.eqb_spec (child_index y) k) as [Hyk|]; [|done]. simpl in Hry.
    apply (Htight k p parent y node b); [done..|].
    intros x Hx. apply Hnode; [done| |done].
    apply (Hb (link m2 (size (nodes t)))), elem_of_app. right.
    by apply list_elem_of_singleton. }
  (* entries that were in the arena before the split *)
  assert (forall i n e c b,
            at_ (nodes t) i = Ok n -> is_leaf n = false -> e ∈ entries n ->
            child_index e <> k ->
            at_ (arena_inner_split (nodes t) k node g1 g2 p parent es' m2)
                (child_index e) = Ok c ->
            (forall e', e' ∈ entries c -> covers b (bounding_box e') = true) ->
            covers b (bounding_box e) = true) as Hold.
  { intros i n e c b Hi Hl He Hek Hc Hb.
    pose proof (shape_child_lt _ _ _ _ _ Hs Hi Hl He) as Hclt.
    apply at_inner_split in Hc as
      [[Hcp ->]|[[Hck _]|[(_ & _ & Hc)|[? _]]]]; [|done| |lia|done..].
    - apply (Htight p i n e parent b); [done..|]. by apply Hparent.
    - by apply (Htight (child_index e) i n e c b). }
  assert (forall x, x ∈ entries node -> is_leaf node = false ->
            child_index x <> k) as Hnot.
  { intros x Hx Hl Heq.
    pose proof (shape_child_lvl _ _ _ _ _ Hs Hn Hl Hx) as H.
    rewrite Heq in H. lia. }
  intros j i n e c b Hi Hl He <- Hc Hb. cbn [nodes] in Hi, Hc.
  apply at_inner_split in Hi as
    [[-> ->]|[[-> ->]|[(Hip & Hik & Hi)|[-> ->]]]]; [..|done|done|done];
    simpl in He, Hl.
  - apply elem_of_app in He as [He| ->%list_elem_of_singleton].
    + apply list_elem_of_fmap in He as (y & -> & Hy). unfold relabel in *.
      destruct (N.eqb_spec (child_index y) k) as [Hyk|Hyk].
      * simpl in Hc |- *. rewrite Hyk, at_inner_split_node in Hc by done.
        injection Hc as <-. by eapply mbr_least.
      * by apply (Hold p parent y c b).
    + simpl in Hc |- *. rewrite at_inner_split_new in Hc.
      injection Hc as <-. by eapply mbr_least.
  - apply (Hold k node e c b); [done..| | |done|done].
    + by eapply group_l.
    + apply Hnot; [by eapply group_l|done].
  - apply (Hold i n e c b); [done..| |done|done].
    intros Hek. apply elem_at in He as [je Hje].
    apply elem_at in He0 as [j0 Hj0].
    destruct (shape_unique_ref _ _ _ _ _ _ _ _ _ _ Hs Hi Hl Hje Hp Hpl Hj0);
      [congruence|done].
  - apply (Hold k node e c b); [done..| | |done|done].
    + by eapply group_r.
    + apply Hnot; [by eapply group_r|done].
Qed.

Lemma splitNode_tight fuel lvl t k node t' :
  shape lvl t -> all_numeric t -> contained t -> tight t ->
  at_ (nodes t) k = Ok node -> 2 <= size (entries node) ->
  splitNode_stable fuel t k = Ok t' -> tight t'.
Proof.
  revert lvl t k node.
  induction fuel as [|fuel IH]; intros lvl t k node Hs Hnum Hcon Htight Hn Hsz;
    [done|].
  destruct (split_groups_Ok _ Hsz) as (g1 & g2 & Hgr & Hg & Hg1 & Hg2).
  destruct (decide (k = root_index t)) as [Hk|Hk].
  - destruct (splitNode_root fuel t k node g1 g2 Hn Hgr Hg1 Hg2 Hk)
      as (m1 & m2 & Hm1 & Hm2 & ->).
    intros [= <-]. by eapply root_split_tight.
  - destruct (findParent_split lvl t k node g1 g2 Hs Hn Hk Hg)
      as (p & parent & e0 & Hfp & Hpk & Hp & Hpl & He0 & Hc0).
    destruct (mbr_is_Ok g1 Hg1) as [m1 Hm1].
    destruct (mbr_is_Ok g2 Hg2) as [m2 Hm2].
    pose proof (relink_NoDup (entries parent) k g1 m1
                  (shape_NoDup_entries _ _ _ _ Hs Hp Hpl) Hm1) as Hrel.
    pose proof (relabel_relinked k m1 (entries parent)) as HF.
    rewrite (splitNode_inner_eq fuel t k node g1 g2 p parent _ m2
               Hn Hgr Hk Hfp Hpk Hp Hrel Hm2).
    pose proof (inner_split_shape lvl t k node g1 g2 p parent _ m1 m2 e0
                  Hs Hn Hp Hpl He0 Hc0 HF Hg Hg1 Hg2) as Hs'.
    destruct (inner_split_boxed lvl t k node g1 g2 p parent _ m1 m2 e0
                Hs Hnum Hcon Hn Hp Hpk Hpl He0 Hc0 HF Hg Hm1 Hm2)
      as [Hnum' Hcon'].
    pose proof (inner_split_tight lvl t k node g1 g2 p parent m1 m2 e0
                  Hs Hnum Htight Hn Hp Hpk Hpl He0 Hc0 Hg Hm1 Hm2) as Htight'.
    pose proof (at_lt _ _ _ Hp) as Hplt.
    cbv zeta in *.
    set (es' := relabel k m1 <$> entries parent) in *.
    set (t4 := mkRTree (arena_inner_split (nodes t) k node g1 g2 p parent es' m2)
                       (root_index t)) in *.
    destruct (MAX_ENTRIES <? size (es' ++ [link m2 (size (nodes t))]))
      eqn:Hover.
    + apply N.ltb_lt in Hover.
      apply (IH (relevel lvl (size (nodes t)) (lvl k)) t4 p
               (set_entries parent (es' ++ [link m2 (size (nodes t))])));
        [done..| |].
      * by apply at_inner_split_parent.
      * simpl. unfold MAX_ENTRIES in Hover. lia.
    + by intros [= <-].
Qed.

Lemma insert_tight lvl t r d t' :
  numeric r = true ->
  shape lvl t -> all_numeric t -> contained t -> tight t ->
  insert_stable t r d = Ok t' -> tight t'.
Proof.
  intros Hr Hs Hnum Hcon Htight.
  destruct (chooseLeaf_spec lvl r (length (nodes t)) t (root_index t) Hs)
    as (t1 & leaf & n & Hcl & Hg & Hn & Hl).
  { by eapply shape_root_lt. }
  { apply (shape_fuel _ _ Hs). }
  destruct (chooseLeaf_contained lvl r _ t _ t1 leaf Hr Hs Hnum Hcon
              (root_pending _ _ _ Hs) Hcl) as (Hnum1 & Hcon1 & Hpen).
  destruct (chooseLeaf_tight lvl r (length (nodes t)) t (root_index t) t1 leaf
              Hr Hs Hnum) as [Ht1 Hpt]; [by intros j _; apply Htight| |done|].
  { intros p x e c b Hp Hxl He Hc. exfalso.
    apply (shape_root_orphan _ _ Hs). rewrite <-Hc.
    by eapply all_children_elem. }
  pose proof (grown_shape _ _ _ _ Hg Hs) as Hs1.
  set (e := Entry_new r (Some d)).
  set (t2 := set_node t1 leaf (set_entries n (entries n ++ [e]))).
  pose proof (append_leaf_shape lvl t1 leaf n e Hs1 Hn Hl) as Hs2.
  destruct (append_leaf_boxed t1 leaf n r d Hr Hnum1 Hcon1 Hpen Hn Hl)
    as [Hnum2 Hcon2].
  pose proof (append_leaf_tight t1 leaf n r d Ht1 Hpt Hn Hl) as Ht2.
  fold e in Hnum2, Hcon2, Ht2. fold t2 in Hs2, Hnum2, Hcon2, Ht2.
  assert (at_ (nodes t2) leaf = Ok (set_entries n (entries n ++ [e]))) as Hn2.
  { apply at_insert_eq. by eapply at_lt. }
  unfold insert_stable. rewrite Hcl. simpl. rewrite Hn. simpl. fold e. fold t2.
  destruct (MAX_ENTRIES <? size (entries n ++ [e])) eqn:Hover.
  - apply N.ltb_lt in Hover.
    apply (splitNode_tight (length (nodes t)) lvl t2 leaf
             (set_entries n (entries n ++ [e])) t'); [done..|].
    simpl. unfold MAX_ENTRIES in Hover. lia.
  - by intros [= <-].
Qed.

Lemma insert_all_tight t ops0 ops :
  index_inv t ops0 ->
  Forall (fun op => numeric (fst op) = true) (ops0 ++ ops) -> tight t ->
  exists t', insert_all_stable t ops = Ok t' /\ tight t'.
Proof.
  revert t ops0. induction ops as [|[r d] ops IH]; intros t ops0 Hinv Hops Ht.
  { by exists t. }
  destruct (insert_inv t ops0 r d Hinv) as (t1 & Hin & Hinv1).
  pose proof Hinv as ([lvl Hs] & _ & Hbx).
  apply Forall_app in Hops as [Hops0 Hops].
  apply Forall_cons in Hops as [Hr Hops]. simpl in Hr.
  destruct (Hbx Hops0) as [Hnum Hcon].
  pose proof (insert_tight lvl t r d t1 Hr Hs Hnum Hcon Ht Hin) as Ht1.
  destruct (IH t1 _ Hinv1) as (t' & Hall & Ht'); [|done|].
  { rewrite <-(assoc_L (++)). apply Forall_app. split; [done|].
    by apply Forall_cons. }
  exists t'. simpl. rewrite Hin. by simpl.
Qed.

Lemma build_stable_tight ops :
  Forall (fun op => numeric (fst op) = true) ops ->
  exists t, build_stable ops = Ok t /\ tight t.
Proof.
  intros Hops. apply (insert_all_tight RTree_new_stable [] ops);
    [apply new_inv|done|].
  intros j p n e c b Hp Hl. apply at_Ok in Hp.
  destruct (N.to_nat p) as [|[|?]]; simplify_eq/=.
Qed.

(** X22. In every reachable index built from rectangles whose bounds are
    numbers, the bounding rectangle of every entry of an internal node is the
    bounding rectangle of the entries of the node it refers to: it contains it
    and is contained in it (they differ in the sign of a zero bound at
    most). *)
Theorem bounding_boxes_minimal c ops (s : Index DataT) :
  build_reserved c ops = Ok s ->
  Forall (fun op => numeric (fst op) = true) ops ->
  forall i n e k,
    at_ (nodes s) i = Ok n -> is_leaf n = false -> e ∈ entries n ->
    at_ (nodes s) (child_index e) = Ok k ->
    exists m, mbr (entries k) = Ok m /\
              covers (bounding_box e) m = true /\
              covers m (bounding_box e) = true.
Proof.
  intros Hb Hops.
  destruct (built c ops s Hb) as (Hst & Hinv & _).
  destruct (build_stable_tight ops Hops) as (t0 & Hb0 & Ht).
  assert (t0 = members s) as -> by congruence.
  destruct (build_stable_capacity ops) as (t0 & Hb1 & Hcap).
  assert (t0 = members s) as -> by congruence.
  destruct Hinv as ([lvl Hs] & _ & Hbx). destruct (Hbx Hops) as [Hnum Hcon].
  intros i n e k Hi Hl He Hk.
  assert (ops <> []) as Hne.
  { intros ->. rewrite (built_small c [] s Hb) in Hi by done.
    apply at_Ok in Hi. destruct (N.to_nat i) as [|[|?]]; simplify_eq/=. }
  destruct (mbr_is_Ok (entries k)) as [m Hm].
  { destruct (Hcap k (at_elem _ _ _ Hk)) as [_ Hpos]. specialize (Hpos Hne).
    destruct (entries k); [|done]. rewrite size_nil in Hpos. lia. }
  exists m. split; [done|].
  destruct (mbr_covers _ m Hm) as [_ Hcov].
  { intros e' He'. apply (Hnum k e'); [by eapply at_elem|done]. }
  split.
  - eapply mbr_least; [done|]. intros e' He'.
    by apply (Hcon i n e k e').
  - by apply (Ht (child_index e) i n e k m).
Qed.

End Tight.

(** ** The leaf entries *)

Section Stored.

Context {DataT : Type}.
Implicit Types (e : Entry DataT) (es g : list (Entry DataT)).
Implicit Types (n node parent : Node DataT) (ns : list (Node DataT)).
Implicit Types (t : RTree DataT) (lvl : N -> nat) (q r m b : Rectangle).
Implicit Types (ops : list (Rectangle * DataT)) (d v : DataT).

(** X23. The leaves of a reachable index hold the inserted pairs as they
    were given, each of them once: no split, and no descent, changes the
    rectangle or the value of a leaf entry, and a leaf entry refers to no
    node. *)
Theorem leaves_hold_inserted_pairs c ops (s : Index DataT) :
  build_reserved c ops = Ok s ->
  all_leaf_entries (nodes s) ≡ₚ leaf_entry <$> ops /\
  forall i n e,
    at_ (nodes s) i = Ok n -> is_leaf n = true -> e ∈ entries n ->
    child_index e = SIZE_MAX /\
    exists op, op ∈ ops /\ bounding_box e = fst op /\ data e = Some (snd op).
Proof.
  intros Hb. destruct (built c ops s Hb) as (_ & (_ & Hle & _) & _).
  split; [done|]. intros i n e Hn Hl He.
  pose proof (leaf_entry_elem _ _ _ _ Hn Hl He) as Hin. rewrite Hle in Hin.
  apply list_elem_of_fmap in Hin as (op & -> & Hop). split; [done|].
  by exists op.
Qed.

(** X24. An insertion that splits no node (the arena has as many nodes after
    it as before) leaves every entry of every internal node in its place, and
    its bounding rectangle contains the one it had before. The index is
    reachable and built from rectangles whose bounds are numbers. *)
Theorem insert_without_split_in_place c ops (s s' : Index DataT) r d i n j e :
  build_reserved c ops = Ok s ->
  Forall (fun op => numeric (fst op) = true) ops ->
  insert s r d = Ok s' ->
  length (nodes s') = length (nodes s) ->
  at_ (nodes s) i = Ok n -> is_leaf n = false -> at_ (entries n) j = Ok e ->
  exists n' e',
    at_ (nodes s') i = Ok n' /\ at_ (entries n') j = Ok e' /\
    child_index e' = child_index e /\
    covers (bounding_box e') (bounding_box e) = true.
Proof.
  intros Hb Hops Hin Hlen Hn Hl He.
  destruct (built c ops s Hb) as (_ & ([lvl Hs] & _ & Hbx) & _ & Hcap).
  destruct (Hbx Hops) as [Hnum _].
  destruct (insert_spec lvl s r d Hs)
    as (t1 & leaf & nl & t2 & _ & Hg & Hnl & Hll & Hin2 & _ & _ & _ & Hcase
        & _).
  rewrite (insert_refines s r d t2 Hcap Hin2) in Hin.
  destruct (size (nodes t2) <=? capacity s); [|done].
  injection Hin as <-. cbn [members put] in *.
  destruct Hcase as [->|?]; [|lia].
  destruct (grown_at_l _ _ _ _ _ Hg Hn) as (n1 & Hn1 & Hl1 & _ & HF).
  assert (i <> leaf) as Hne by (intros ->; congruence).
  apply at_Ok in He.
  destruct (Forall2_lookup_l _ _ _ _ _ HF He) as (e1 & He1 & Hge).
  exists n1, e1. split; [|split; [|split]].
  - simpl. by rewrite at_insert_ne.
  - by apply at_Ok.
  - by apply (entry_grown_child r).
  - assert (numeric (bounding_box e) = true) as Hne'.
    { eapply Hnum; [by eapply at_elem|by eapply list_elem_of_lookup_2]. }
    destruct Hge as [->| ->]; [by apply covers_refl|].
    simpl. by apply expand_covers_l.
Qed.

(** X25. What the storage of [nodes] decides. The insertions [ops] need an
    arena of [n] nodes, one node when they are [MAX_ENTRIES] at most and three
    nodes at least when they are more. When [nodes] holds [n] nodes without
    reallocating, they build the index, which is the same whatever the storage
    is beyond that; when it does not, an insertion stops at a reference that
    is no longer valid. No other failure occurs: no access is out of range, no
    optional is empty, [findParent] finds the parent of every node that is
    split, and the recursion ends. *)
Theorem build_reserved_storage ops :
  exists (n : N) (t : RTree DataT),
    (size ops <= MAX_ENTRIES -> n = 1) /\
    (MAX_ENTRIES < size ops -> 3 <= n) /\
    size (nodes t) = n /\
    forall c,
      (n <= N.max 1 c ->
       build_reserved c ops = Ok (mkIndex t (N.max 1 c))) /\
      (N.max 1 c < n -> build_reserved c ops = Err DanglingReference).
Proof.
  destruct (build_inv ops) as (t & Hb & _).
  exists (size (nodes t)), t. split; [|split; [|split]].
  - intros Hlen. rewrite (build_stable_small ops Hlen) in Hb.
    by injection Hb as <-.
  - intros Hlen. by apply (build_stable_nodes ops).
  - done.
  - intros c. rewrite (build_refines c ops t Hb). split; intros Hc.
    + case_leb; [done|lia].
    + case_leb; [lia|done].
Qed.


End Stored.

Lemma overlaps_nan_rect r : overlaps r nan_rect = true.
Proof.
  unfold overlaps, nan_rect. rewrite !fge_fle. simpl.
  by destruct (x_min r), (x_max r), (y_min r), (y_max r).
Qed.

(** ** The further properties on sample runs *)

Lemma overlaps_self_witness :
  overlaps (rect 0 0 5 5) (rect 0 0 5 5) =
  flt (x_min (rect 0 0 5 5)) (x_max (rect 0 0 5 5)) &&
  flt (y_min (rect 0 0 5 5)) (y_max (rect 0 0 5 5)).
Proof. apply (overlaps_self (rect 0 0 5 5)). reflexivity. Defined.

Lemma expand_least_cover_witness :
  numeric (expand (rect 0 0 1 1) (rect 2 2 3 3)) = true /\
  covers (expand (rect 0 0 1 1) (rect 2 2 3 3)) (rect 0 0 1 1) = true /\
  covers (expand (rect 0 0 1 1) (rect 2 2 3 3)) (rect 2 2 3 3) = true /\
  forall c, covers c (rect 0 0 1 1) = true -> covers c (rect 2 2 3 3) = true ->
            covers c (expand (rect 0 0 1 1) (rect 2 2 3 3)) = true.
Proof.
  apply (expand_least_cover (rect 0 0 1 1) (rect 2 2 3 3)); reflexivity.
Defined.

Lemma expand_semilattice_witness :
  expand (rect 0 0 1 1) (rect 0 0 1 1) = rect 0 0 1 1 /\
  covers (expand (rect 0 0 1 1) (rect 2 2 3 3))
         (expand (rect 2 2 3 3) (rect 0 0 1 1)) = true /\
  covers (expand (expand (rect 0 0 1 1) (rect 2 2 3 3)) (rect 4 4 5 5))
         (expand (rect 0 0 1 1) (expand (rect 2 2 3 3) (rect 4 4 5 5))) = true /\
  covers (expand (rect 0 0 1 1) (expand (rect 2 2 3 3) (rect 4 4 5 5)))
         (expand (expand (rect 0 0 1 1) (rect 2 2 3 3)) (rect 4 4 5 5)) = true.
Proof.
  apply (expand_semilattice (rect 0 0 1 1) (rect 2 2 3 3) (rect 4 4 5 5));
    reflexivity.
Defined.

Lemma overlaps_monotone_witness :
  overlaps (rect 0 0 4 4) (rect 0 0 9 9) = true.
Proof.
  apply (overlaps_monotone (rect 0 0 4 4) (rect 1 1 2 2)
           (rect 0 0 9 9) (rect 1 1 3 3)); reflexivity.
Defined.

Lemma mbr_least_cover_witness :
  match mbr (leaf_entry <$> sample4) with
  | Ok m =>
      leaf_entry <$> sample4 <> [] /\ numeric m = true /\
      (forall e, e ∈ leaf_entry <$> sample4 ->
                 covers m (bounding_box e) = true) /\
      (forall c : Rectangle,
         (forall e, e ∈ leaf_entry <$> sample4 ->
                    covers c (bounding_box e) = true) ->
         covers c m = true)
  | Err err => leaf_entry <$> sample4 = [] /\ err = OutOfRange
  end.
Proof. apply (mbr_least_cover (leaf_entry <$> sample4)). repeat constructor. Defined.

Lemma mbr_permutation_witness :
  exists m',
    mbr (leaf_entry <$> reverse sample4) = Ok m' /\
    covers (rect 0 0 20 20) m' = true /\ covers m' (rect 0 0 20 20) = true.
Proof.
  apply (mbr_permutation (leaf_entry <$> sample4)
           (leaf_entry <$> reverse sample4) (rect 0 0 20 20)).
  - repeat constructor.
  - apply fmap_Permutation. symmetry. apply reverse_Permutation.
  - reflexivity.
Defined.

Lemma build_small_witness :
  build sample4 =
    Ok (mkIndex (mkRTree [mkNode true (leaf_entry <$> sample4)] 0) 1) /\
  rangeQuery (mkRTree [mkNode true (leaf_entry <$> sample4)] 0)
             (rect 10 10 20 20) =
    Ok (snd <$> filter (fun op => overlaps (fst op) (rect 10 10 20 20) = true)
                  sample4).
Proof.
  apply (build_small sample4 (rect 10 10 20 20)). vm_compute. discriminate.
Defined.

Lemma first_split_layout_witness :
  exists g1 g2 m1 m2,
    split_groups (leaf_entry <$> tie_ops) = Ok (g1, g2) /\
    mbr g1 = Ok m1 /\ mbr g2 = Ok m2 /\
    build_reserved 3 tie_ops =
      if 3 <=? 3
      then Ok (mkIndex (mkRTree [mkNode true g1;
                                 mkNode false [link m1 0; link m2 2];
                                 mkNode true g2] 1) 3)
      else Err DanglingReference.
Proof. apply (first_split_layout 3 tie_ops). reflexivity. Defined.

Lemma node_capacity_witness :
  (forall n, n ∈ nodes diagonal7 ->
     size (entries n) <= MAX_ENTRIES /\
     (diagonal_ops ++ [(rect 4 4 5 5, 7%Z)] <> [] -> 1 <= size (entries n))) /\
  (build_reserved 3 nested_ops = Ok nested_index /\
   exists n, n ∈ nodes nested_index /\ size (entries n) < MIN_ENTRIES).
Proof.
  apply (node_capacity 4 (diagonal_ops ++ [(rect 4 4 5 5, 7%Z)]) diagonal7).
  vm_compute. reflexivity.
Defined.

Lemma findParent_built_witness :
  match findParent diagonal7 3 with
  | Ok p =>
      3 < size (nodes diagonal7) /\ 3 <> root_index diagonal7 /\
      exists n e,
        at_ (nodes diagonal7) p = Ok n /\ is_leaf n = false /\
        e ∈ entries n /\ child_index e = 3 /\
        forall p' n' e',
          at_ (nodes diagonal7) p' = Ok n' -> is_leaf n' = false ->
          e' ∈ entries n' -> child_index e' = 3 -> p' = p
  | Err err =>
      err = ParentNotFound /\
      (3 = root_index diagonal7 \/ size (nodes diagonal7) <= 3)
  end.
Proof.
  apply (findParent_built 4 (diagonal_ops ++ [(rect 4 4 5 5, 7%Z)]) diagonal7
           3).
  vm_compute. reflexivity.
Defined.

Lemma chooseLeaf_effect_witness :
  exists t1 leaf n,
    chooseLeaf (length (nodes diagonal6)) diagonal6 (root_index diagonal6)
      (rect 4 4 5 5) = Ok (t1, leaf) /\
    at_ (nodes t1) leaf = Ok n /\ is_leaf n = true /\
    root_index t1 = root_index diagonal6 /\
    length (nodes t1) = length (nodes diagonal6) /\
    (forall i n0, at_ (nodes diagonal6) i = Ok n0 -> is_leaf n0 = true ->
       at_ (nodes t1) i = Ok n0) /\
    (forall i n0 j e,
       at_ (nodes diagonal6) i = Ok n0 -> is_leaf n0 = false ->
       at_ (entries n0) j = Ok e ->
       exists n1 e1,
         at_ (nodes t1) i = Ok n1 /\ is_leaf n1 = false /\
         size (entries n1) = size (entries n0) /\
         at_ (entries n1) j = Ok e1 /\
         child_index e1 = child_index e /\ data e1 = data e /\
         (bounding_box e1 = bounding_box e \/
          bounding_box e1 = expand (bounding_box e) (rect 4 4 5 5))).
Proof.
  apply (chooseLeaf_effect 4 diagonal_ops diagonal6 (rect 4 4 5 5)).
  vm_compute. reflexivity.
Defined.

Lemma rangeQuery_sound_witness :
  exists res,
    rangeQuery nan_index (rect 20 20 30 30) = Ok res /\
    res ⊆+ snd <$> filter (fun op => overlaps (fst op) (rect 20 20 30 30) = true)
                     nan_ops.
Proof.
  apply (rangeQuery_sound 3 nan_ops nan_index (rect 20 20 30 30)).
  vm_compute. reflexivity.
Defined.

Lemma rangeQuery_all_witness :
  exists res, rangeQuery nan_index nan_rect = Ok res /\ res ≡ₚ snd <$> nan_ops.
Proof.
  apply (rangeQuery_all 3 nan_ops nan_index nan_rect).
  - vm_compute. reflexivity.
  - apply overlaps_nan_rect.
Defined.

Lemma rangeQuery_after_insert_witness :
  exists res res',
    rangeQuery diagonal6 (rect 0 0 20 20) = Ok res /\
    rangeQuery diagonal7 (rect 0 0 20 20) = Ok res' /\
    res' ≡ₚ res ++ (if overlaps (rect 4 4 5 5) (rect 0 0 20 20)
                    then [7%Z] else []).
Proof.
  apply (rangeQuery_after_insert 4 diagonal_ops diagonal6 diagonal7
           (rect 4 4 5 5) 7%Z (rect 0 0 20 20)).
  - vm_compute. reflexivity.
  - vm_compute. reflexivity.
  - repeat constructor.
  - reflexivity.
Defined.

Lemma rangeQuery_order_irrelevant_witness :
  exists res res',
    rangeQuery diagonal6 (rect 0 0 3 3) = Ok res /\
    rangeQuery diagonal6_reversed (rect 0 0 3 3) = Ok res' /\ res ≡ₚ res'.
Proof.
  apply (rangeQuery_order_irrelevant 4 4 diagonal_ops (reverse diagonal_ops)
           diagonal6 diagonal6_reversed (rect 0 0 3 3)).
  - vm_compute. reflexivity.
  - vm_compute. reflexivity.
  - repeat constructor.
  - symmetry. apply reverse_Permutation.
Defined.

Lemma rangeQuery_monotone_witness :
  exists res res',
    rangeQuery diagonal6 (rect 1 1 3 3) = Ok res /\
    rangeQuery diagonal6 (rect 0 0 11 11) = Ok res' /\ res ⊆+ res'.
Proof.
  apply (rangeQuery_monotone 4 diagonal_ops diagonal6 (rect 0 0 11 11)
           (rect 1 1 3 3)).
  - vm_compute. reflexivity.
  - repeat constructor.
  - reflexivity.
Defined.

Lemma bounding_boxes_minimal_witness :
  build_reserved 4 (diagonal_ops ++ [(rect 4 4 5 5, 7%Z)]) = Ok diagonal7 /\
  forall i n e k,
    at_ (nodes diagonal7) i = Ok n -> is_leaf n = false -> e ∈ entries n ->
    at_ (nodes diagonal7) (child_index e) = Ok k ->
    exists m, mbr (entries k) = Ok m /\
              covers (bounding_box e) m = true /\
              covers m (bounding_box e) = true.
Proof.
  split; [vm_compute; reflexivity|].
  apply (bounding_boxes_minimal 4 (diagonal_ops ++ [(rect 4 4 5 5, 7%Z)])
           diagonal7).
  - vm_compute. reflexivity.
  - repeat constructor.
Defined.

Lemma leaves_hold_inserted_pairs_witness :
  all_leaf_entries (nodes diagonal7) ≡ₚ
    leaf_entry <$> diagonal_ops ++ [(rect 4 4 5 5, 7%Z)] /\
  forall i n e,
    at_ (nodes diagonal7) i = Ok n -> is_leaf n = true -> e ∈ entries n ->
    child_index e = SIZE_MAX /\
    exists op, op ∈ diagonal_ops ++ [(rect 4 4 5 5, 7%Z)] /\
               bounding_box e = fst op /\ data e = Some (snd op).
Proof.
  apply (leaves_hold_inserted_pairs 4 (diagonal_ops ++ [(rect 4 4 5 5, 7%Z)])
           diagonal7).
  vm_compute. reflexivity.
Defined.

Lemma insert_without_split_in_place_witness :
  exists n' e',
    at_ (nodes diagonal6) 1 = Ok n' /\ at_ (entries n') 0 = Ok e' /\
    child_index e' = 0 /\
    covers (bounding_box e') (rect 0 0 3 3) = true.
Proof.
  apply (insert_without_split_in_place 4 (take 5 diagonal_ops)
           diagonal5 diagonal6 (rect 3 3 4 4) 6%Z 1
           (mkNode false [link (rect 0 0 3 3) 0; link (rect 10 10 12 12) 2])
           0 (link (rect 0 0 3 3) 0)).
  - vm_compute. reflexivity.
  - repeat constructor.
  - vm_compute. reflexivity.
  - reflexivity.
  - reflexivity.
  - reflexivity.
  - reflexivity.
Defined.

